(** * gscrape: the goroutine-dump normalizer (gcount) and indexer (gindex)

    A shallow embedding of the two programs concatenated in
    [cmd/gcount/main.go]: the format converter's [cleanStackLine] and the
    indexer's parser, per-host aggregation and store writes, with the
    properties of the specification proved (or refuted) against them.

    Go strings are byte sequences: they are modelled as [list ascii].
    The patterns of the program only mention ASCII bytes, and every
    wildcard they contain ([.], [[^\],]]) accepts all bytes of a
    multi-byte rune alike, so matching byte by byte finds the same
    spans as Go's rune-wise matcher. *)

From Stdlib Require Import ZArith Ascii String List Bool Lia.
From Stdlib Require Import DecimalString DecimalZ DecimalPos.
From stdpp Require Import gmap strings list fin_maps sorting relations.

Local Open Scope list_scope.

Abbreviation str := (list ascii).

(** A Go string literal. *)
Definition bytes (s : string) : str := list_ascii_of_string s.

(** ** Byte classes used by the patterns *)
Module Class.

Definition code (c : ascii) : N := N_of_ascii c.

Definition between (lo hi : string) (c : ascii) : bool :=
  match bytes lo, bytes hi with
  | [a], [b] => (code a <=? code c)%N && (code c <=? code b)%N
  | _, _ => false
  end.

Definition one (s : string) (c : ascii) : bool :=
  match bytes s with
  | [a] => Ascii.eqb a c
  | _ => false
  end.

(** [\d] *)
Definition digit (c : ascii) : bool := between "0" "9" c.

(** [[0-9a-fA-F]] *)
Definition hex (c : ascii) : bool :=
  between "0" "9" c || between "a" "f" c || between "A" "F" c.

(** [\s] is [[\t\n\f\r ]] in Go's regexp syntax (no vertical tab). *)
Definition space (c : ascii) : bool :=
  Ascii.eqb c "009" || Ascii.eqb c "010" || Ascii.eqb c "012"
  || Ascii.eqb c "013" || Ascii.eqb c " ".

(** [.] without the s flag: any byte but the newline. *)
Definition dot (c : ascii) : bool := negb (Ascii.eqb c "010").

(** [[^\],]] *)
Definition state (c : ascii) : bool := negb (one "]" c || one "," c).

End Class.

(** ** The fragment of Go's [regexp] the program uses

    Leftmost-first (backtracking-priority) semantics, as Go documents
    for its non-POSIX patterns: a greedy repetition prefers the longest
    run and gives bytes back one at a time until the rest of the pattern
    matches.  All repetitions in the program's patterns range over a
    one-byte class, so [Star] takes a class. *)
Module Regexp.

Inductive regex : Type :=
| Eps
| Cls (p : ascii -> bool)
| Cat (r1 r2 : regex)
| Star (p : ascii -> bool)
| Opt (r : regex)
| Eot                       (* [$] without the m flag: end of text *)
| Bol                       (* [^] with the m flag: start of a line *)
| Grp (n : nat) (r : regex).

Definition Plus (p : ascii -> bool) : regex := Cat (Cls p) (Star p).

Fixpoint Lit (s : str) : regex :=
  match s with
  | [] => Eps
  | c :: s' => Cat (Cls (Ascii.eqb c)) (Lit s')
  end.

Fixpoint Seq (rs : list regex) : regex :=
  match rs with
  | [] => Eps
  | r :: rs' => Cat r (Seq rs')
  end.

(** A position in the text while one match is attempted: the byte
    before it, the offset from the start of the attempt, and the text
    still ahead. *)
Record cursor := Cursor { prev : option ascii; off : nat; rest : str }.

(** Capture groups: group number to (start, end) offsets, latest first. *)
Definition caps := list (nat * (nat * nat)).

Section Run.
Context {R : Type}.

Fixpoint star (p : ascii -> bool) (pv : option ascii) (o : nat) (s : str)
    (k : cursor -> option R) : option R :=
  match s with
  | c :: s' =>
      if p c then
        match star p (Some c) (S o) s' k with
        | Some r => Some r
        | None => k (Cursor pv o s)
        end
      else k (Cursor pv o s)
  | [] => k (Cursor pv o [])
  end.

Fixpoint run (r : regex) (z : cursor) (cs : caps)
    (k : cursor -> caps -> option R) : option R :=
  match r with
  | Eps => k z cs
  | Cls p =>
      match rest z with
      | c :: t => if p c then k (Cursor (Some c) (S (off z)) t) cs else None
      | [] => None
      end
  | Cat r1 r2 => run r1 z cs (fun z' cs' => run r2 z' cs' k)
  | Star p => star p (prev z) (off z) (rest z) (fun z' => k z' cs)
  | Opt r1 =>
      match run r1 z cs k with
      | Some x => Some x
      | None => k z cs
      end
  | Eot => match rest z with [] => k z cs | _ :: _ => None end
  | Bol =>
      match prev z with
      | None => k z cs
      | Some c => if Ascii.eqb c "010" then k z cs else None
      end
  | Grp n r1 => run r1 z cs (fun z' cs' => k z' ((n, (off z, off z')) :: cs'))
  end.
End Run.

(** One match attempt at the start of [s] ([pv] is the byte before it):
    the length of the match and its groups. *)
Definition exec (r : regex) (pv : option ascii) (s : str) : option (nat * caps) :=
  run r (Cursor pv 0 s) [] (fun z cs => Some (off z, cs)).

Fixpoint lookup_group (n : nat) (cs : caps) : option (nat * nat) :=
  match cs with
  | [] => None
  | (m, span) :: cs' => if Nat.eqb n m then Some span else lookup_group n cs'
  end.

(** The text of group [n] of a match that starts at the head of [s]. *)
Definition group (s : str) (cs : caps) (n : nat) : str :=
  match lookup_group n cs with
  | Some (a, b) => take (b - a) (drop a s)
  | None => []
  end.

(** Leftmost match at or after the head of [s]: its start (counted from
    [pos]), the text from that start on, and the match. *)
Fixpoint find (r : regex) (pv : option ascii) (s : str) (pos : nat)
    : option (nat * str * (nat * caps)) :=
  match exec r pv s with
  | Some m => Some (pos, s, m)
  | None =>
      match s with
      | [] => None
      | c :: s' => find r (Some c) s' (S pos)
      end
  end.

(** [MatchString]. *)
Definition MatchString (r : regex) (s : str) : bool :=
  match find r None s 0 with Some _ => true | None => false end.

(** [FindStringSubmatch]: the whole match and the groups asked for. *)
Definition FindStringSubmatch (r : regex) (s : str) : option (str * (nat -> str)) :=
  match find r None s 0 with
  | Some (_, s', (len, cs)) => Some (take len s', group s' cs)
  | None => None
  end.

(** The scan shared by [ReplaceAllString] and [FindAllStringIndex]:
    left to right, non-overlapping; [skip] counts the bytes of the last
    match still to be stepped over.  No pattern of the program matches
    the empty string, so an empty match counts as none. *)
Fixpoint replace_go (r : regex) (tmpl : str -> caps -> str)
    (pv : option ascii) (s : str) (skip : nat) : str :=
  match s with
  | [] => []
  | c :: s' =>
      match skip with
      | S n => replace_go r tmpl (Some c) s' n
      | O =>
          match exec r pv s with
          | Some (S n, cs) => tmpl s cs ++ replace_go r tmpl (Some c) s' n
          | _ => c :: replace_go r tmpl (Some c) s' 0
          end
      end
  end.

(** [ReplaceAllString] with the replacement given as a function of the
    match ([$1] is [fun s cs => group s cs 1]). *)
Definition ReplaceAllString (r : regex) (tmpl : str -> caps -> str) (s : str) : str :=
  replace_go r tmpl None s 0.

Fixpoint index_go (r : regex) (pv : option ascii) (s : str) (pos skip : nat)
    : list nat :=
  match s with
  | [] => []
  | c :: s' =>
      match skip with
      | S n => index_go r (Some c) s' (S pos) n
      | O =>
          match exec r pv s with
          | Some (S n, _) => pos :: index_go r (Some c) s' (S pos) n
          | _ => index_go r (Some c) s' (S pos) 0
          end
      end
  end.

(** [FindAllStringIndex(s, -1)], keeping the start of each match (the
    program reads nothing else). *)
Definition FindAllStringIndex (r : regex) (s : str) : list nat :=
  index_go r None s 0 0.

(** *** Vocabulary for reasoning about matches *)

(** Length of the longest prefix of [s] inside the class [p]. *)
Fixpoint run_len (p : ascii -> bool) (s : str) : nat :=
  match s with
  | c :: s' => if p c then S (run_len p s') else 0
  | [] => 0
  end.

(** The cursor [j] bytes further on. *)
Fixpoint seek (pv : option ascii) (o : nat) (s : str) (j : nat) : cursor :=
  match j, s with
  | S j', c :: s' => seek (Some c) (S o) s' j'
  | _, _ => Cursor pv o s
  end.

(** Backtracking made explicit: try the continuation [j] bytes on, then
    [j - 1], down to none. *)
Fixpoint back {R : Type} (k : cursor -> option R) (pv : option ascii) (o : nat)
    (s : str) (j : nat) : option R :=
  match k (seek pv o s j) with
  | Some r => Some r
  | None =>
      match j with
      | O => None
      | S j' => back k pv o s j'
      end
  end.

(** Patterns without a line anchor: their matches do not depend on the
    byte before the attempt. *)
Fixpoint unanchored (r : regex) : bool :=
  match r with
  | Bol => false
  | Cat r1 r2 => unanchored r1 && unanchored r2
  | Opt r1 | Grp _ r1 => unanchored r1
  | _ => true
  end.

(** Two cursors that differ in the byte before them only. *)
Definition same (z z' : cursor) : Prop := off z = off z' /\ rest z = rest z'.

End Regexp.

(** ** gcount: the format converter's line normalizer *)
Module GCount.
Import Regexp.

(** [\+0x[0-9a-fA-F]+\s*$] *)
Definition offsetRe : regex :=
  Seq [Lit (bytes "+0x"); Plus Class.hex; Star Class.space; Eot].

(** [(created by .+) in goroutine \d+] *)
Definition createdByRe : regex :=
  Seq [Grp 1 (Seq [Lit (bytes "created by "); Plus Class.dot]);
       Lit (bytes " in goroutine "); Plus Class.digit].

(** [0x[0-9a-fA-F]+\??] *)
Definition hexPtrRe : regex :=
  Seq [Lit (bytes "0x"); Plus Class.hex; Opt (Cls (Class.one "?"))].

Definition cleanStackLine (line : str) : str :=
  let line := ReplaceAllString offsetRe (fun _ _ => []) line in
  let line := ReplaceAllString createdByRe (fun s cs => group s cs 1) line in
  let line := ReplaceAllString hexPtrRe (fun _ _ => bytes "...") line in
  line.

End GCount.

(** ** The functions of Go's [strings] package the indexer calls *)
Module Strings.

Definition byte (n : N) : ascii := ascii_of_N n.

(** The six ASCII bytes of [unicode.IsSpace]. *)
Definition asciiSpace (c : ascii) : bool :=
  (9 <=? Class.code c)%N && (Class.code c <=? 13)%N || Ascii.eqb c " ".

(** [prefix_of p s] is the rest of [s] after the prefix [p]. *)
Fixpoint prefix_of (p s : str) : option str :=
  match p, s with
  | [], _ => Some s
  | a :: p', b :: s' => if Ascii.eqb a b then prefix_of p' s' else None
  | _ :: _, [] => None
  end.

Definition HasPrefix (s p : str) : bool :=
  match prefix_of p s with Some _ => true | None => false end.

Fixpoint Contains (s sub : str) : bool :=
  HasPrefix s sub ||
  match s with
  | [] => false
  | _ :: s' => Contains s' sub
  end.

(** The UTF-8 encodings of the other white-space runes of
    [unicode.IsSpace]: U+0085, U+00A0, U+1680, U+2000 to U+200A,
    U+2028, U+2029, U+202F, U+205F and U+3000. *)
Definition wideSpaces : list str :=
  map (map byte)
    ([[194; 133]; [194; 160]; [225; 154; 128]]
     ++ map (fun n => [226; 128; n]) [128; 129; 130; 131; 132; 133; 134; 135; 136; 137; 138]
     ++ [[226; 128; 168]; [226; 128; 169]; [226; 128; 175]; [226; 129; 159];
         [227; 128; 128]])%N.

(** The text after one leading white-space rune, if [s] starts with one. *)
Definition dropSpace (s : str) : option str :=
  match s with
  | c :: s' =>
      if asciiSpace c then Some s'
      else
        match omap (fun w => prefix_of w s) wideSpaces with
        | r :: _ => Some r
        | [] => None
        end
  | [] => None
  end.

Fixpoint trimLeft_go (fuel : nat) (s : str) : str :=
  match fuel with
  | O => s
  | S n => match dropSpace s with Some s' => trimLeft_go n s' | None => s end
  end.

(** Every step removes at least one byte, so [length s] steps are
    enough to remove all leading white space. *)
Definition TrimLeft (s : str) : str := trimLeft_go (length s) s.

(** The text before one trailing white-space rune: the same test on the
    reversed text, with the encodings reversed. *)
Definition dropSpaceR (r : str) : option str :=
  match r with
  | c :: r' =>
      if asciiSpace c then Some r'
      else
        match omap (fun w => prefix_of (rev w) r) wideSpaces with
        | t :: _ => Some t
        | [] => None
        end
  | [] => None
  end.

Fixpoint trimRight_go (fuel : nat) (r : str) : str :=
  match fuel with
  | O => r
  | S n => match dropSpaceR r with Some r' => trimRight_go n r' | None => r end
  end.

Definition TrimRight (s : str) : str := rev (trimRight_go (length s) (rev s)).

Definition TrimSpace (s : str) : str := TrimRight (TrimLeft s).

(** [Split(s, "\n")]: never empty, one more piece than newlines. *)
Fixpoint SplitLines (s : str) : list str :=
  match s with
  | [] => [[]]
  | c :: s' =>
      if Ascii.eqb c "010" then [] :: SplitLines s'
      else
        match SplitLines s' with
        | l :: ls => (c :: l) :: ls
        | [] => [[c]]
        end
  end.

(** [Join(ls, "\n")]. *)
Fixpoint JoinLines (ls : list str) : str :=
  match ls with
  | [] => []
  | [l] => l
  | l :: ls' => l ++ "010"%char :: JoinLines ls'
  end.

(** [Index(s, c)] for a one-byte separator. *)
Fixpoint Index (c : ascii) (s : str) : option nat :=
  match s with
  | [] => None
  | a :: s' => if Ascii.eqb a c then Some 0 else option_map S (Index c s')
  end.

(** [LastIndex(s, c)] for a one-byte separator. *)
Fixpoint LastIndex (c : ascii) (s : str) : option nat :=
  match s with
  | [] => None
  | a :: s' =>
      match LastIndex c s' with
      | Some i => Some (S i)
      | None => if Ascii.eqb a c then Some 0 else None
      end
  end.

(** Byte-wise order of Go strings. *)
Fixpoint leb (a b : str) : bool :=
  match a, b with
  | [], _ => true
  | _ :: _, [] => false
  | x :: a', y :: b' =>
      if (Class.code x <? Class.code y)%N then true
      else if (Class.code y <? Class.code x)%N then false
      else leb a' b'
  end.

Fixpoint insert_sorted (x : str) (l : list str) : list str :=
  match l with
  | [] => [x]
  | y :: l' => if leb x y then x :: l else y :: insert_sorted x l'
  end.

(** [sort.Strings]. *)
Definition SortStrings (l : list str) : list str := foldr insert_sorted [] l.

End Strings.

(** ** gindex: the indexer *)
Module GIndex.
Import Regexp Strings.

(** *** Data structures *)

Record StackEntry := mkStackEntry {
  Timestamp : Z;      (* Unix seconds *)
  State : str;
  Stack : str;        (* normalized stack trace *)
  CreatedBy : Z       (* parent goroutine id, 0 when none *)
}.

Record GoroutineTimeSeries := mkSeries { Entries : list StackEntry }.

Record FuncOccurrence := mkOcc {
  Host : str;
  GoroutineID : Z;
  FirstSeen : Z;
  LastSeen : Z
}.

Record FuncIndex := mkFuncIndex { Occurrences : list FuncOccurrence }.

Record ChildInfo := mkChild {
  ID : Z;
  Funcs : str;
  ChildFirstSeen : Z;
  ChildLastSeen : Z
}.

(** [parsedGoroutine] without its [funcs] field: the indexer fills it
    but never reads it. *)
Record parsedGoroutine := mkParsed {
  state : str;
  stack : str;
  createdBy : Z
}.

(** *** Patterns *)

(** [(?m)^goroutine (\d+) \[([^\],]+)] *)
Definition goroHeaderRe : regex :=
  Seq [Bol; Lit (bytes "goroutine "); Grp 1 (Plus Class.digit);
       Lit (bytes " ["); Grp 2 (Plus Class.state)].

(** [0x[0-9a-fA-F]+\??] *)
Definition hexPtrRe : regex :=
  Seq [Lit (bytes "0x"); Plus Class.hex; Opt (Cls (Class.one "?"))].

(** [\+0x[0-9a-fA-F]+\s*$] *)
Definition offsetRe : regex :=
  Seq [Lit (bytes "+0x"); Plus Class.hex; Star Class.space; Eot].

(** [(created by .+) in goroutine \d+] *)
Definition createdByRe : regex :=
  Seq [Grp 1 (Seq [Lit (bytes "created by "); Plus Class.dot]);
       Lit (bytes " in goroutine "); Plus Class.digit].

(** [in goroutine (\d+)\s*$] *)
Definition createdByGoroIDRe : regex :=
  Seq [Lit (bytes "in goroutine "); Grp 1 (Plus Class.digit);
       Star Class.space; Eot].

(** *** Scanning a decimal id *)

Definition digitValue (c : ascii) : Z := Z.of_N (Class.code c) - 48.

Definition decimal (ds : str) : Z :=
  foldl (fun acc c => 10 * acc + digitValue c)%Z 0%Z ds.

Definition maxInt64 : Z := 9223372036854775807.

(** [fmt.Sscanf(ds, "%d", &v)] for a run of digits [ds], as the patterns
    capture it: a value that does not fit an [int64] is a scan error,
    which the program ignores, and [v] keeps its old value. *)
Definition Sscanf_d (ds : str) (old : Z) : Z :=
  if (decimal ds <=? maxInt64)%Z then decimal ds else old.

(** [fmt.Sprintf("%d", n)]. *)
Definition itoa (n : Z) : str := bytes (NilZero.string_of_int (Z.to_int n)).

(** *** Parsing one dump *)

(** The three rewrites of [parseGoroutineBlock] on one trimmed line. *)
Definition normalizeLine (line : str) : str :=
  let normalized := ReplaceAllString offsetRe (fun _ _ => []) line in
  let normalized := ReplaceAllString createdByRe (fun s cs => group s cs 1) normalized in
  let normalized := ReplaceAllString hexPtrRe (fun _ _ => bytes "...") normalized in
  normalized.

(** The loop over [lines[1:]]: the stack lines so far and [createdBy]. *)
Definition blockStep (acc : list str * Z) (line : str) : list str * Z :=
  let '(stackLines, createdBy) := acc in
  let line := TrimSpace line in
  match line with
  | [] => acc
  | _ :: _ =>
      let createdBy :=
        if (createdBy =? 0)%Z then
          match FindStringSubmatch createdByGoroIDRe line with
          | Some (_, g) => Sscanf_d (g 1) createdBy
          | None => createdBy
          end
        else createdBy in
      (stackLines ++ [normalizeLine line], createdBy)
  end.

Definition parseGoroutineBlock (block : str) : option parsedGoroutine :=
  match SplitLines block with
  | [] => None
  | header :: lines =>
      match FindStringSubmatch goroHeaderRe header with
      | None => None
      | Some (_, g) =>
          let '(stackLines, createdBy) := foldl blockStep ([], 0%Z) lines in
          Some (mkParsed (g 2) (JoinLines stackLines) createdBy)
      end
  end.

(** [data[start:end]] for every header start, [end] being the next
    header start or the end of the text. *)
Fixpoint blocks (data : str) (starts : list nat) : list str :=
  match starts with
  | [] => []
  | a :: rest =>
      match rest with
      | [] => [drop a data]
      | b :: _ => take (b - a) (drop a data) :: blocks data rest
      end
  end.

(** The body of the loop of [parseGoroutines] for one block. *)
Definition addBlock (result : gmap Z parsedGoroutine) (block : str)
    : gmap Z parsedGoroutine :=
  match parseGoroutineBlock block with
  | None => result
  | Some g =>
      match FindStringSubmatch goroHeaderRe block with
      | None => result
      | Some (_, h) => <[Sscanf_d (h 1) 0 := g]> result
      end
  end.

Definition parseGoroutines (data : str) : gmap Z parsedGoroutine :=
  foldl addBlock ∅ (blocks data (FindAllStringIndex goroHeaderRe data)).

(** *** Symbols of a normalized stack *)

Definition cleanFuncName (fn : str) : str :=
  match LastIndex "." fn with
  | Some (S lastDot') =>
      let lastDot := S lastDot' in
      match Index "(" (drop lastDot fn) with
      | Some (S parenIdx') => take (lastDot + S parenIdx') fn
      | _ => fn
      end
  | _ => fn
  end.

(** [fn[:idx]] unless the byte before [idx] is [.] or [*] (a method
    receiver), for [idx > 0]. *)
Definition cutArgs (fn : str) (idx : option nat) : str :=
  match idx with
  | Some (S i) =>
      match last (take (S i) fn) with
      | Some lastChar =>
          if Ascii.eqb lastChar "." || Ascii.eqb lastChar "*" then fn
          else take (S i) fn
      | None => fn
      end
  | _ => fn
  end.

Definition skipsLine (line : str) : bool :=
  match line with
  | [] => true
  | _ :: _ => Contains line (bytes ".go:") || HasPrefix line (bytes "created by")
  end.

Definition extractFuncsFromStack (stack : str) : list str :=
  foldl (fun funcs line =>
           let line := TrimSpace line in
           if skipsLine line then funcs
           else
             let fn := cleanFuncName (cutArgs line (Index "(" line)) in
             match fn with
             | [] => funcs
             | _ :: _ => funcs ++ [fn]
             end)
        [] (SplitLines stack).

(** The first loop of [extractFirstTwoFuncs]: one symbol per function
    line, in the order of the text. *)
Definition extractSymbols (stack : str) : list str :=
  foldl (fun allFuncs line =>
           let line := TrimSpace line in
           if skipsLine line then allFuncs
           else
             let fn :=
               match LastIndex "/" line with
               | Some lastSlash => drop (S lastSlash) line
               | None => line
               end in
             allFuncs ++ [cutArgs fn (LastIndex "(" fn)])
        [] (SplitLines stack).

(** The end of [extractFirstTwoFuncs]: the last two symbols. *)
Definition joinLastTwo (allFuncs : list str) : str :=
  match rev allFuncs with
  | [] => []
  | [f] => f
  | f :: f' :: _ => f' ++ bytes " -> " ++ f
  end.

Definition extractFirstTwoFuncs (stack : str) : str :=
  joinLastTwo (extractSymbols stack).

(** *** The store

    A Pebble store is modelled by the log of the writes it received,
    oldest first; [Get] sees the latest write of a key.  Values are
    kept decoded: [compressJSON] and [decompressJSON] (JSON and gzip
    from Go's library) are taken to be each other's inverse, and writes
    to succeed. *)

Inductive value :=
| VSeries (s : GoroutineTimeSeries)
| VChildren (l : list ChildInfo)
| VStats (timestamps : list Z) (counts : list nat)
| VFuncIndex (f : FuncIndex)
| VHosts (l : list str)
| VFuncs (l : list str).

Definition DB := list (str * value).

Definition Put (db : DB) (key : str) (v : value) : DB := db ++ [(key, v)].

Fixpoint Get (db : DB) (key : str) : option value :=
  match db with
  | [] => None
  | (k, v) :: db' =>
      match Get db' key with
      | Some v' => Some v'
      | None => if decide (k = key) then Some v else None
      end
  end.

Definition key_g (host : str) (goroID : Z) : str :=
  bytes "g:" ++ host ++ bytes ":" ++ itoa goroID.
Definition key_c (host : str) (parentID : Z) : str :=
  bytes "c:" ++ host ++ bytes ":" ++ itoa parentID.
Definition key_s (host : str) : str := bytes "s:" ++ host.
Definition key_f (funcName : str) : str := bytes "f:" ++ funcName.
Definition key_hosts : str := bytes "m:hosts".
Definition key_funcs : str := bytes "m:funcs".

(** *** Dump files

    A [time.Time] is modelled by its nanoseconds since the epoch.  A dump
    file is what [parseSnapshotFile] gets from the file system: the time
    parsed from its name and its decompressed text, each [None] when the
    program logs the failure and gives up on the file. *)

Definition Unix (t : Z) : Z := (t / 1000000000)%Z.
Definition Before (a b : Z) : bool := (a <? b)%Z.

Record dumpFile := mkFile { stamp : option Z; content : option str }.

Record parseResult := mkResult {
  timestamp : Z;
  goros : gmap Z parsedGoroutine
}.

Definition parseSnapshotFile (f : dumpFile) : option parseResult :=
  match stamp f with
  | None => None
  | Some ts =>
      match content f with
      | None => None
      | Some data => Some (mkResult ts (parseGoroutines data))
      end
  end.

(** The results the workers send, here in the order of the files. *)
Definition collect (files : list dumpFile) : list parseResult :=
  omap parseSnapshotFile files.

(** *** What the language leaves open

    Go does not specify the order in which a [range] visits a map, and
    the order in which concurrent workers deliver to a channel is up to
    the scheduler.  An [Order] makes these choices: the indexer is a
    function of its input and of an order, and its properties are stated
    for every order that is [fair].  The [nat] names the loop: it is the
    line of [cmd/gcount/main.go] on which the loop starts. *)
Record Order := mkOrder {
  rangeZ : forall A : Type, nat -> gmap Z A -> list (Z * A);
  rangeS : forall A : Type, nat -> gmap str A -> list (str * A);
  rangeSet : nat -> gset str -> list str;
  recv : forall A : Type, nat -> list A -> list A
}.
Arguments rangeZ _ {A} _ _.
Arguments rangeS _ {A} _ _.
Arguments recv _ {A} _ _.

(** A loop visits every key of the map once, and a channel delivers what
    was sent. *)
Record fair (ord : Order) : Prop := mkFair {
  rangeZ_perm : forall A line (m : gmap Z A), rangeZ ord line m ≡ₚ map_to_list m;
  rangeS_perm : forall A line (m : gmap str A), rangeS ord line m ≡ₚ map_to_list m;
  rangeSet_perm : forall line (s : gset str), rangeSet ord line s ≡ₚ elements s;
  recv_perm : forall A line (l : list A), recv ord line l ≡ₚ l
}.

(** The order of the keys' encoding, and workers that deliver in turn. *)
Definition mapOrder : Order :=
  mkOrder (fun A _ => map_to_list) (fun A _ => map_to_list) (fun _ => elements)
          (fun A _ l => l).

Fixpoint insertResult (r : parseResult) (l : list parseResult) : list parseResult :=
  match l with
  | [] => [r]
  | x :: l' =>
      if Before (timestamp x) (timestamp r) then x :: insertResult r l'
      else r :: l
  end.

(** [sort.Slice] by [timestamp.Before].  Go does not say in which order
    results with equal timestamps come out; this sort keeps them in the
    order received, which is any order ([recv]), so that every
    outcome of Go's sort is the outcome of this one for some order. *)
Definition sortResults (l : list parseResult) : list parseResult :=
  foldr insertResult [] l.

(** *** First pass: time series and stats *)

Definition entriesOf (goroSeries : gmap Z GoroutineTimeSeries) (goroID : Z)
    : list StackEntry :=
  match goroSeries !! goroID with
  | Some series => Entries series
  | None => []
  end.

Definition addEntry (ts : Z) (goroSeries : gmap Z GoroutineTimeSeries)
    (kv : Z * parsedGoroutine) : gmap Z GoroutineTimeSeries :=
  let '(goroID, g) := kv in
  <[goroID := mkSeries (entriesOf goroSeries goroID
                        ++ [mkStackEntry ts (state g) (stack g) (createdBy g)])]>
    goroSeries.

Record pass1 := mkPass1 {
  goroSeries : gmap Z GoroutineTimeSeries;
  statsTimestamps : list Z;
  statsCounts : list nat
}.

Record funcOccResult := mkFuncOcc { fn : str; goroID : Z; occ : FuncOccurrence }.

Record batchState := mkBatch { store : DB; batch : DB; batchSize : nat }.

Section Ordered.
Context (ord : Order).

Definition pass1Step (acc : pass1) (r : parseResult) : pass1 :=
  let ts := Unix (timestamp r) in
  mkPass1 (foldl (addEntry ts) (goroSeries acc) (rangeZ ord 546 (goros r)))
          (statsTimestamps acc ++ [ts])
          (statsCounts acc ++ [size (goros r)]).

Definition buildSeries (allResults : list parseResult) : pass1 :=
  foldl pass1Step (mkPass1 ∅ [] []) allResults.

(** *** Second pass: function occurrences, in chunks *)

Definition setOcc (m : gmap str (gmap Z FuncOccurrence)) (fn : str) (goroID : Z)
    (occ : FuncOccurrence) : gmap str (gmap Z FuncOccurrence) :=
  <[fn := <[goroID := occ]> (default ∅ (m !! fn))]> m.

Definition firstTimestamp (entries : list StackEntry) : Z :=
  match entries with e :: _ => Timestamp e | [] => 0%Z end.

Definition lastTimestamp (entries : list StackEntry) : Z :=
  match last entries with Some e => Timestamp e | None => 0%Z end.

Definition workerStep (host : str) (series : gmap Z GoroutineTimeSeries)
    (localFuncMap : gmap str (gmap Z FuncOccurrence)) (goroID : Z)
    : gmap str (gmap Z FuncOccurrence) :=
  match entriesOf series goroID with
  | [] => localFuncMap
  | entries =>
      let allFuncs : gset str :=
        foldl (fun acc entry => list_to_set (extractFuncsFromStack (Stack entry)) ∪ acc)
              ∅ entries in
      foldl (fun m fn =>
               setOcc m fn goroID
                 (mkOcc host goroID (firstTimestamp entries) (lastTimestamp entries)))
            localFuncMap (rangeSet ord 614 allFuncs)
  end.

Definition worker (host : str) (series : gmap Z GoroutineTimeSeries) (ids : list Z)
    : list funcOccResult :=
  let localFuncMap := foldl (workerStep host series) ∅ ids in
  flat_map (fun '(fn, goroMap) =>
              map (fun '(goroID, occ) => mkFuncOcc fn goroID occ)
                  (rangeZ ord 629 goroMap))
           (rangeS ord 628 localFuncMap).

(** The slices [goroIDs[start:end]] handed to the workers. *)
Definition chunks (numWorkers : nat) (goroIDs : list Z) : list (list Z) :=
  let chunkSize := (length goroIDs + numWorkers - 1) / numWorkers in
  omap (fun i =>
          let start := i * chunkSize in
          if length goroIDs <=? start then None
          else Some (take (Nat.min (start + chunkSize) (length goroIDs) - start)
                          (drop start goroIDs)))
       (seq 0 numWorkers).

Definition buildFuncOccurrences (host : str) (numWorkers : positive)
    (series : gmap Z GoroutineTimeSeries) : gmap str (gmap Z FuncOccurrence) :=
  let goroIDs := map fst (rangeZ ord 563 series) in
  let resultCh := map (worker host series) (chunks (Pos.to_nat numWorkers) goroIDs) in
  foldl (fun m r => setOcc m (fn r) (goroID r) (occ r)) ∅
        (concat (recv ord 644 resultCh)).

(** *** Writes of one host *)

Definition writeSeriesStep (host : str) (st : batchState) (kv : Z * GoroutineTimeSeries)
    : batchState :=
  let '(goroID, series) := kv in
  let batch := batch st ++ [(key_g host goroID, VSeries series)] in
  let batchSize := S (batchSize st) in
  if 1000 <=? batchSize then mkBatch (store st ++ batch) [] 0
  else mkBatch (store st) batch batchSize.

Definition writeSeries (host : str) (db : DB) (series : gmap Z GoroutineTimeSeries) : DB :=
  let st := foldl (writeSeriesStep host) (mkBatch db [] 0) (rangeZ ord 656 series) in
  if 0 <? batchSize st then store st ++ batch st else store st.

(** The first entry that names a parent: the parent and the label taken
    from the stack of that same entry. *)
Fixpoint findParent (entries : list StackEntry) : Z * str :=
  match entries with
  | [] => (0%Z, [])
  | entry :: entries' =>
      if negb (CreatedBy entry =? 0)%Z
      then (CreatedBy entry, extractFirstTwoFuncs (Stack entry))
      else findParent entries'
  end.

Definition childStep (childrenIndex : gmap Z (list ChildInfo))
    (kv : Z * GoroutineTimeSeries) : gmap Z (list ChildInfo) :=
  let '(goroID, series) := kv in
  match Entries series with
  | [] => childrenIndex
  | entries =>
      let '(parentID, funcs) := findParent entries in
      if (parentID =? 0)%Z then childrenIndex
      else
        <[parentID := default [] (childrenIndex !! parentID)
                      ++ [mkChild goroID funcs (firstTimestamp entries)
                                  (lastTimestamp entries)]]> childrenIndex
  end.

Definition buildChildren (series : gmap Z GoroutineTimeSeries) : gmap Z (list ChildInfo) :=
  foldl childStep ∅ (rangeZ ord 689 series).

Definition writeChildren (host : str) (db : DB) (childrenIndex : gmap Z (list ChildInfo))
    : DB :=
  foldl (fun db '(parentID, children) => Put db (key_c host parentID) (VChildren children))
        db (rangeZ ord 719 childrenIndex).

Definition existingIndex (db : DB) (key : str) : list FuncOccurrence :=
  match Get db key with
  | Some (VFuncIndex existing) => Occurrences existing
  | _ => []
  end.

Definition mergeStep (acc : DB * gset str) (kv : str * gmap Z FuncOccurrence)
    : DB * gset str :=
  let '(db, allFuncs) := acc in
  let '(funcName, goroMap) := kv in
  let key := key_f funcName in
  let existing :=
    foldl (fun existing '(_, occ) => existing ++ [occ])
          (existingIndex db key) (rangeZ ord 758 goroMap) in
  (Put db key (VFuncIndex (mkFuncIndex existing)), {[funcName]} ∪ allFuncs).

Definition mergeFuncs (db : DB) (funcOccurrences : gmap str (gmap Z FuncOccurrence))
    : DB * gset str :=
  foldl mergeStep (db, ∅) (rangeS ord 745 funcOccurrences).

(** [processHost] on the files found by the [Glob] of the host
    directory ([None]: the [Glob] failed); the store after it and the
    function names it returns. *)
Definition processHost (db : DB) (host : str) (files : option (list dumpFile))
    (numWorkers : positive) : DB * gset str :=
  match files with
  | None => (db, ∅)
  | Some files =>
      let allResults := sortResults (recv ord 520 (collect files)) in
      let p := buildSeries allResults in
      let funcOccurrences := buildFuncOccurrences host numWorkers (goroSeries p) in
      let db := writeSeries host db (goroSeries p) in
      let db := writeChildren host db (buildChildren (goroSeries p)) in
      let db := Put db (key_s host) (VStats (statsTimestamps p) (statsCounts p)) in
      mergeFuncs db funcOccurrences
  end.

(** *** The rebuild

    [corpus] is the input directory: its host directories in the order
    of [os.ReadDir], each with the dump files of its [Glob].  The worker
    count is positive (the default is the number of CPUs; the program
    panics on zero or less). *)
Definition hostStep (numWorkers : positive) (acc : DB * gset str)
    (h : str * option (list dumpFile)) : DB * gset str :=
  let '(db, allFuncs) := acc in
  let '(db, funcs) := processHost db (fst h) (snd h) numWorkers in
  (db, funcs ∪ allFuncs).

Definition runIndex (corpus : list (str * option (list dumpFile)))
    (numWorkers : positive) : DB :=
  let hosts := map fst corpus in
  let db := Put [] key_hosts (VHosts hosts) in
  let '(db, allFuncs) := foldl (hostStep numWorkers) (db, ∅) corpus in
  let funcList := SortStrings (rangeSet ord 444 allFuncs) in
  Put db key_funcs (VFuncs funcList).

End Ordered.

End GIndex.

(** ** Notions in which the properties of the normalizer are stated *)
Module GCountSpec.
Import Regexp GCount Strings.

Definition stripOffset : str -> str := ReplaceAllString offsetRe (fun _ _ => []).
Definition stripTask : str -> str :=
  ReplaceAllString createdByRe (fun s cs => group s cs 1).
Definition stripPointers : str -> str :=
  ReplaceAllString hexPtrRe (fun _ _ => bytes "...").

(** [s] starts with [0x] and a hex digit. *)
Definition hexStart (s : str) : bool :=
  match s with
  | c1 :: c2 :: c3 :: _ => Ascii.eqb "0" c1 && Ascii.eqb "x" c2 && Class.hex c3
  | _ => false
  end.

(** Length of the pointer that starts [s]: [0x], the hex run and one [?]. *)
Definition hexLen (s : str) : nat :=
  let n := run_len Class.hex (drop 2 s) in
  match drop (2 + n) s with
  | c :: _ => if Class.one "?" c then 2 + n + 1 else 2 + n
  | [] => 2 + n
  end.

(** [s] is [+0x], hex digits and blanks up to the end of the text. *)
Definition offsetTail (s : str) : bool :=
  match s with
  | c0 :: s' =>
      Ascii.eqb "+" c0 && hexStart s'
      && forallb Class.space (drop (run_len Class.hex (drop 3 s)) (drop 3 s))
  | [] => false
  end.

(** The number of digits of a task number, if [t] reads, [j] bytes on,
    [ in goroutine ] and at least one digit. *)
Definition taskTail (t : str) (j : nat) : option nat :=
  match prefix_of (bytes " in goroutine ") (drop j t) with
  | Some (d :: u) => if Class.digit d then Some (S (run_len Class.digit u)) else None
  | _ => None
  end.

(** What [createdByRe] matches at the head of [s]: the number of bytes
    its [.+] keeps after the first one, and the number of digits. *)
Definition createdMatch (s : str) : option (nat * nat) :=
  match prefix_of (bytes "created by ") s with
  | Some (c :: t) =>
      if Class.dot c then
        back (fun z => (fun d => (off z, d)) <$> taskTail t (off z))
             None 0 t (run_len Class.dot t)
      else None
  | _ => None
  end.






End GCountSpec.

(** ** Notions in which the properties of the indexer are stated *)
Module GIndexSpec.
Import Regexp Strings GIndex.

(** The entry a dump at Unix time [ts] adds for the parsed goroutine [g]. *)
Definition newEntry (ts : Z) (g : parsedGoroutine) : StackEntry :=
  mkStackEntry ts (state g) (stack g) (createdBy g).

(** What one block contributes to the result of [parseGoroutines]. *)
Definition blockRecord (block : str) : option (Z * parsedGoroutine) :=
  match parseGoroutineBlock block with
  | None => None
  | Some g =>
      match FindStringSubmatch goroHeaderRe block with
      | None => None
      | Some (_, h) => Some (Sscanf_d (h 1) 0, g)
      end
  end.

(** The blocks of a dump, in the order of the text. *)
Definition dumpBlocks (data : str) : list str :=
  blocks data (FindAllStringIndex goroHeaderRe data).

(** Ordered by time. *)
Definition byTime (a b : parseResult) : Prop := (timestamp a <= timestamp b)%Z.

(** The dump [r] holds a goroutine [id]. *)
Definition appearsIn (id : Z) (r : parseResult) : Prop := is_Some (goros r !! id).

Section Ordered.
Context (ord : Order).

(** The parsed dumps of a host, sorted by time. *)
Definition hostResults (files : list dumpFile) : list parseResult :=
  sortResults (recv ord 520 (collect files)).

(** The time series of a host, from its dump files. *)
Definition hostSeries (files : list dumpFile) : gmap Z GoroutineTimeSeries :=
  goroSeries (buildSeries ord (hostResults files)).

(** The records that [processHost] writes for a host, but for the
    function index: series, children lists and stats, in this order. *)
Definition seriesRecords (host : str) (series : gmap Z GoroutineTimeSeries) : DB :=
  map (fun kv => (key_g host kv.1, VSeries kv.2)) (rangeZ ord 656 series).

Definition childRecords (host : str) (childrenIndex : gmap Z (list ChildInfo)) : DB :=
  map (fun kv => (key_c host kv.1, VChildren kv.2)) (rangeZ ord 719 childrenIndex).

Definition statsRecord (host : str) (files : list dumpFile) : str * value :=
  let p := buildSeries ord (hostResults files) in
  (key_s host, VStats (statsTimestamps p) (statsCounts p)).

Definition hostRecords (host : str) (files : list dumpFile) : DB :=
  seriesRecords host (hostSeries files)
  ++ childRecords host (buildChildren ord (hostSeries files))
  ++ [statsRecord host files].

(** The function occurrences of a host, from its dump files. *)
Definition hostFuncs (host : str) (numWorkers : positive) (files : list dumpFile)
    : gmap str (gmap Z FuncOccurrence) :=
  buildFuncOccurrences ord host numWorkers (hostSeries files).

End Ordered.

(** A file that [parseSnapshotFile] parses. *)
Definition parsed (f : dumpFile) : Prop := is_Some (stamp f) /\ is_Some (content f).

(** Every series of the store holds at least one entry. *)
Definition nonEmpty (series : gmap Z GoroutineTimeSeries) : Prop :=
  forall id s, series !! id = Some s -> Entries s <> [].

Definition isFuncRecord (kv : str * value) : Prop :=
  exists funcName f, kv = (key_f funcName, VFuncIndex f).

(** The entry of the children list of [p] that a series gives rise to. *)
Definition childOf (p : Z) (kv : Z * GoroutineTimeSeries) : option ChildInfo :=
  match Entries kv.2 with
  | [] => None
  | entries =>
      let '(parentID, funcs) := findParent entries in
      if (parentID =? 0)%Z then None
      else if decide (parentID = p)
           then Some (mkChild kv.1 funcs (firstTimestamp entries) (lastTimestamp entries))
           else None
  end.

(** The function names of a series: those of all its stacks. *)
Definition seriesFuncs (entries : list StackEntry) : gset str :=
  foldl (fun acc entry => list_to_set (extractFuncsFromStack (Stack entry)) ∪ acc)
        ∅ entries.

(** The occurrence recorded for a goroutine of a host. *)
Definition occOf (host : str) (series : gmap Z GoroutineTimeSeries) (id : Z)
    : FuncOccurrence :=
  mkOcc host id (firstTimestamp (entriesOf series id)) (lastTimestamp (entriesOf series id)).

Definition lookupOcc (m : gmap str (gmap Z FuncOccurrence)) (funcName : str) (id : Z)
    : option FuncOccurrence :=
  m !! funcName ≫= fun goroMap => goroMap !! id.

End GIndexSpec.

(** ** Sample dumps *)
Module Samples.
Import Strings GIndex.

(** A corpus of one host with two dumps of goroutine 7: the first dump
    does not show who created it, the second names goroutine 1, of
    which there is no block in either dump. *)
Definition dumpEarly : str := bytes "goroutine 7 [running]:
main.early()
	/src/a.go:1 +0x1
".

Definition dumpLate : str := bytes "goroutine 7 [running]:
main.late()
	/src/b.go:2 +0x2
main.spawn()
	/src/b.go:9 +0x3
created by main.start in goroutine 1
	/src/b.go:20 +0x4
".

Definition sampleFiles : list dumpFile :=
  [mkFile (Some 1000000000000%Z) (Some dumpEarly);
   mkFile (Some 2000000000000%Z) (Some dumpLate)].

Definition sampleCorpus : list (str * option (list dumpFile)) :=
  [(bytes "h", Some sampleFiles)].

(** Two hosts whose goroutine 1 runs the same function. *)
Definition dumpHandle : str := bytes "goroutine 1 [select]:
pkg.Handle()
	/src/pkg/handle.go:7 +0x1c
".

Definition twoHosts : list (str * option (list dumpFile)) :=
  [(bytes "a", Some [mkFile (Some 1000000000000%Z) (Some dumpHandle)]);
   (bytes "b", Some [mkFile (Some 1060000000000%Z) (Some dumpHandle)])].

End Samples.

(** ** gcount: grouping the goroutines of a dump and printing the groups *)
Module Grouping.
Import Regexp GCount Strings.

Record goroutineGroup := mkGroup {
  count : Z;
  state : str;
  stack : str;
  waits : list Z
}.

(** [[^\]]] *)
Definition notClose (c : ascii) : bool := negb (Class.one "]" c).

(** [(?m)^goroutine \d+ \[([^\]]+)\]:] *)
Definition goroutineHeaderRe : regex :=
  Seq [Bol; Lit (bytes "goroutine "); Plus Class.digit; Lit (bytes " [");
       Grp 1 (Plus notClose); Lit (bytes "]:")].

(** [^goroutine \d+ \[([^\],]+)(?:,\s*(\d+)\s*minutes?)?\]:] after its
    [^].  The pattern has no m flag: its [^] is the start of the text,
    and [FindStringSubmatchStart] makes the one attempt there. *)
Definition headerRe : regex :=
  Seq [Lit (bytes "goroutine "); Plus Class.digit; Lit (bytes " [");
       Grp 1 (Plus Class.state);
       Opt (Seq [Lit (bytes ","); Star Class.space; Grp 2 (Plus Class.digit);
                 Star Class.space; Lit (bytes "minute"); Opt (Lit (bytes "s"))]);
       Lit (bytes "]:")].

(** [FindStringSubmatch] for a pattern that opens with [^]. *)
Definition FindStringSubmatchStart (r : regex) (s : str) : option (str * (nat -> str)) :=
  match exec r None s with
  | Some (len, cs) => Some (take len s, group s cs)
  | None => None
  end.

(** The body of the loop over [lines[1:]]. *)
Definition stackStep (stackLines : list str) (line : str) : list str :=
  match TrimSpace line with
  | [] => stackLines
  | line' => stackLines ++ [cleanStackLine line']
  end.

(** [waitMinutes] is an [int], 64 bits wide on the platforms the tool is
    built for: [Sscanf] fails on a number that does not fit and leaves
    the 0.  [count] cannot wrap around: it is at most the number of
    blocks of the dump. *)
Definition parseGoroutineBlock (block : str) (groups : gmap str goroutineGroup)
    : gmap str goroutineGroup :=
  match SplitLines block with
  | [] => groups
  | header :: lines =>
      match FindStringSubmatchStart headerRe header with
      | None => groups
      | Some (_, m) =>
          let state := m 1 in
          let waitMinutes :=
            match m 2 with
            | [] => 0%Z
            | ds => GIndex.Sscanf_d ds 0
            end in
          let stackLines := foldl stackStep [] lines in
          let stack := JoinLines stackLines in
          let key := state ++ "010"%char :: stack in
          match groups !! key with
          | Some g =>
              <[key := mkGroup (count g + 1) (Grouping.state g) (Grouping.stack g)
                         (if (0 <? waitMinutes)%Z then waits g ++ [waitMinutes]
                          else waits g)]> groups
          | None =>
              <[key := mkGroup 1 state stack
                         (if (0 <? waitMinutes)%Z then [waitMinutes] else [])]> groups
          end
      end
  end.

Definition parseAndGroup (data : str) : gmap str goroutineGroup :=
  foldl (fun groups block => parseGoroutineBlock (TrimSpace block) groups) ∅
        (GIndex.blocks data (FindAllStringIndex goroutineHeaderRe data)).

(** [a < b] on Go strings. *)
Definition ltb (a b : str) : bool := negb (leb b a).

(** The [less] of the [sort.Slice] call. *)
Definition less (a b : goroutineGroup) : bool :=
  if negb (count a =? count b)%Z then (count b <? count a)%Z
  else ltb (state a) (state b).

Fixpoint insertGroup (x : str * goroutineGroup) (l : list (str * goroutineGroup))
    : list (str * goroutineGroup) :=
  match l with
  | [] => [x]
  | y :: l' => if less y.2 x.2 then y :: insertGroup x l' else x :: l
  end.

(** [sort.Slice] with [less].  Go does not say in which order groups
    that [less] does not tell apart come out; this sort keeps them in
    the order of the [range] over the map, which is any order, so that
    every outcome of Go's sort is the outcome of this one for some
    order. *)
Definition sortGroups (l : list (str * goroutineGroup)) : list (str * goroutineGroup) :=
  foldr insertGroup [] l.

(** [bufio.MaxScanTokenSize] *)
Definition MaxScanTokenSize : N := 65536.

Definition dropCR (data : str) : str :=
  match rev data with
  | c :: r => if Ascii.eqb c "013" then rev r else data
  | [] => data
  end.

(** The tokens of a [bufio.Scanner] with its default [ScanLines] and
    buffer, from the pieces between the newlines of the text: a piece
    gives a token without its trailing carriage return; the piece after
    the last newline gives none when it is empty; and a piece of
    [MaxScanTokenSize] bytes or more ends the scan. *)
Fixpoint scanPieces (pieces : list str) : list str :=
  match pieces with
  | [] => []
  | [l] =>
      match l with
      | [] => []
      | _ => if (N.of_nat (length l) <? MaxScanTokenSize)%N then [dropCR l] else []
      end
  | l :: rest =>
      if (N.of_nat (length l) <? MaxScanTokenSize)%N then dropCR l :: scanPieces rest else []
  end.

Definition ScanLines (s : str) : list str := scanPieces (SplitLines s).

(** One turn of the last loop of [formatDebug1]. *)
Definition formatGroup (g : goroutineGroup) : str :=
  "010"%char :: GIndex.itoa (count g) ++ bytes " [" ++ state g ++ bytes "]" ++ ["010"%char]
  ++ concat (map (fun line => bytes "#" ++ ["009"%char] ++ line ++ ["010"%char])
                 (ScanLines (stack g))).

Definition formatDebug1 (ord : GIndex.Order) (groups : gmap str goroutineGroup) : str :=
  let sorted := sortGroups (GIndex.rangeS ord 262 groups) in
  let total := foldl (fun total sg => (total + count sg.2)%Z) 0%Z sorted in
  bytes "goroutine profile: total " ++ GIndex.itoa total ++ ["010"%char]
  ++ concat (map (fun sg => formatGroup sg.2) sorted).

End Grouping.

(** ** Vocabulary for the grouping *)
Module GroupingSpec.
Import Regexp GCount Strings Grouping.

(** What [parseGoroutineBlock] reads off one block: the state, the
    stack and the minutes waited (0 when the header gives none). *)
Definition readBlock (block : str) : option (str * str * Z) :=
  match SplitLines block with
  | [] => None
  | header :: lines =>
      match FindStringSubmatchStart headerRe header with
      | None => None
      | Some (_, m) =>
          Some (m 1, JoinLines (foldl stackStep [] lines),
                match m 2 with [] => 0%Z | ds => GIndex.Sscanf_d ds 0 end)
      end
  end.

(** The key under which a goroutine is grouped. *)
Definition keyOf (r : str * str * Z) : str := r.1.1 ++ "010"%char :: r.1.2.

(** The goroutines [parseAndGroup] reads off a dump, in the order of the
    text. *)
Definition reads (data : str) : list (str * str * Z) :=
  omap (fun block => readBlock (TrimSpace block))
       (GIndex.blocks data (FindAllStringIndex goroutineHeaderRe data)).

(** What [parseGoroutineBlock] does to the map with what it read. *)
Definition addTo (groups : gmap str goroutineGroup) (r : str * str * Z)
    : gmap str goroutineGroup :=
  match groups !! keyOf r with
  | Some g =>
      <[keyOf r := mkGroup (count g + 1) (state g) (stack g)
                     (if (0 <? r.2)%Z then waits g ++ [r.2] else waits g)]> groups
  | None =>
      <[keyOf r := mkGroup 1 r.1.1 r.1.2 (if (0 <? r.2)%Z then [r.2] else [])]> groups
  end.

(** The group of the goroutines [rs], which share a key. *)
Definition groupOf (rs : list (str * str * Z)) : option goroutineGroup :=
  match rs with
  | [] => None
  | (st, sk, _) :: _ =>
      Some (mkGroup (Z.of_nat (length rs)) st sk (filter (fun w => (0 < w)%Z) (map snd rs)))
  end.

(** [a] is listed before [b]: more goroutines, or as many and a state
    that does not come later. *)
Definition listedBefore (a b : goroutineGroup) : Prop :=
  (count b < count a)%Z \/ (count a = count b /\ leb (state a) (state b) = true).

(** The number of goroutines in the groups [gs]. *)
Definition goroutines (gs : list goroutineGroup) : Z := foldr Z.add 0%Z (map count gs).

End GroupingSpec.

(** ** gindex: integers as eight bytes *)
Module Int64Bytes.
Import Strings.
Local Open Scope Z_scope.

(** [byte(v)] for a [uint64]: its low eight bits. *)
Definition toByte (v : Z) : ascii := byte (Z.to_N (Z.land v 255)).

(** [uint64(b)] for a byte. *)
Definition ofByte (b : ascii) : Z := Z.of_N (Class.code b).

(** [uint64(n)] for an [int64], and [int64(u)] for a [uint64]: the same
    64 bits read without and with a sign. *)
Definition uint64 (n : Z) : Z := n mod 2 ^ 64.
Definition int64 (u : Z) : Z := if u <? 2 ^ 63 then u else u - 2 ^ 64.

(** [binary.BigEndian.PutUint64] into a slice of eight bytes. *)
Definition PutUint64 (v : Z) : str :=
  [toByte (Z.shiftr v 56); toByte (Z.shiftr v 48); toByte (Z.shiftr v 40);
   toByte (Z.shiftr v 32); toByte (Z.shiftr v 24); toByte (Z.shiftr v 16);
   toByte (Z.shiftr v 8); toByte v].

(** [binary.BigEndian.Uint64]: it reads [b[0]] to [b[7]] and panics on a
    shorter slice ([None]).  A byte shifted by at most 56 bits fits in
    64 bits: the shifts lose nothing. *)
Definition Uint64 (b : str) : option Z :=
  match b with
  | b0 :: b1 :: b2 :: b3 :: b4 :: b5 :: b6 :: b7 :: _ =>
      Some (Z.lor (Z.lor (Z.lor (Z.lor (Z.lor (Z.lor (Z.lor
              (ofByte b7)
              (Z.shiftl (ofByte b6) 8))
              (Z.shiftl (ofByte b5) 16))
              (Z.shiftl (ofByte b4) 24))
              (Z.shiftl (ofByte b3) 32))
              (Z.shiftl (ofByte b2) 40))
              (Z.shiftl (ofByte b1) 48))
              (Z.shiftl (ofByte b0) 56))
  | _ => None
  end.

Definition int64ToBytes (n : Z) : str := PutUint64 (uint64 n).

Definition bytesToInt64 (b : str) : option Z := option_map int64 (Uint64 b).

End Int64Bytes.

(** * Properties *)

(** ** The matcher *)
Module RegexpFacts.
Import Regexp.

Lemma seek_0 pv o s : seek pv o s 0 = Cursor pv o s.
Proof. by destruct s. Qed.

Lemma seek_S pv o c s j : seek pv o (c :: s) (S j) = seek (Some c) (S o) s j.
Proof. done. Qed.

Lemma seek_off pv o s j : j <= length s -> off (seek pv o s j) = o + j.
Proof.
  revert pv o s. induction j as [|j IH]; intros pv o [|c s] Hj; simpl in *; try lia.
  rewrite IH; lia.
Qed.

Lemma seek_rest pv o s j : rest (seek pv o s j) = drop j s.
Proof.
  revert pv o s. induction j as [|j IH]; intros pv o [|c s]; simpl; auto.
Qed.

Lemma run_len_le p s : run_len p s <= length s.
Proof. induction s as [|c s IH]; simpl; [lia|]. destruct (p c); simpl; lia. Qed.

Lemma run_len_take p s : forallb p (take (run_len p s) s) = true.
Proof.
  induction s as [|c s IH]; simpl; auto.
  destruct (p c) eqn:E; simpl; auto. by rewrite E.
Qed.

Lemma run_len_all p s : forallb p s = true -> run_len p s = length s.
Proof.
  induction s as [|c s IH]; simpl; auto. intros [-> H]%andb_true_iff. by rewrite IH.
Qed.

Lemma run_len_app p a b :
  forallb p a = true -> run_len p (a ++ b) = length a + run_len p b.
Proof.
  induction a as [|c a IH]; simpl; auto. intros [-> H]%andb_true_iff. by rewrite IH.
Qed.

Lemma run_len_stop p c s : p c = false -> run_len p (c :: s) = 0.
Proof. simpl. by intros ->. Qed.

Section Star.
Context {R : Type}.
Implicit Types k : cursor -> option R.

Lemma back_S k pv o c s j :
  back k pv o (c :: s) (S j) =
  match back k (Some c) (S o) s j with
  | Some r => Some r
  | None => k (Cursor pv o (c :: s))
  end.
Proof.
  induction j as [|j IH].
  - simpl. rewrite !seek_0.
    by destruct (k (Cursor (Some c) (S o) s)), (k (Cursor pv o (c :: s))).
  - change (back k pv o (c :: s) (S (S j))) with
      (match k (seek (Some c) (S o) s (S j)) with
       | Some r => Some r
       | None => back k pv o (c :: s) (S j)
       end).
    rewrite IH. simpl. by destruct (k (seek (Some c) (S o) s (S j))).
Qed.

(** A greedy run is its longest extent, given back byte by byte. *)
Lemma star_back p pv o s k : star p pv o s k = back k pv o s (run_len p s).
Proof.
  revert pv o. induction s as [|c s IH]; intros pv o.
  - simpl. by destruct (k _).
  - cbn [star run_len]. destruct (p c).
    + by rewrite back_S, IH.
    + simpl. by destruct (k _).
Qed.

Lemma back_total k pv o s j :
  (forall i, i <= j -> is_Some (k (seek pv o s i))) ->
  back k pv o s j = k (seek pv o s j).
Proof.
  intros H. destruct j; simpl; destruct (H _ (le_n _)) as [r ->]; done.
Qed.

Lemma back_none k pv o s j :
  (forall i, i <= j -> k (seek pv o s i) = None) -> back k pv o s j = None.
Proof.
  induction j as [|j IH]; intros H; simpl; rewrite (H _ (le_n _)); auto.
Qed.

(** The first success from the top decides. *)
Lemma back_first k pv o s j i r :
  i <= j -> k (seek pv o s i) = Some r ->
  (forall i', i < i' <= j -> k (seek pv o s i') = None) ->
  back k pv o s j = Some r.
Proof.
  induction j as [|j IH]; intros Hi Hk Hn.
  - assert (i = 0) as -> by lia. simpl. by rewrite Hk.
  - destruct (decide (i = S j)) as [->|Hne].
    + simpl. by rewrite Hk.
    + simpl. rewrite Hn by lia. apply IH; [lia|done|]. intros; apply Hn; lia.
Qed.

Lemma back_Some k pv o s j r :
  back k pv o s j = Some r ->
  exists i, i <= j /\ k (seek pv o s i) = Some r /\
            forall i', i < i' <= j -> k (seek pv o s i') = None.
Proof.
  induction j as [|j IH]; simpl.
  - destruct (k _) eqn:E; [|done]. intros [= <-]. exists 0.
    rewrite seek_0 in E |- *. repeat split; auto. intros; lia.
  - destruct (k (seek pv o s (S j))) eqn:E.
    + intros [= <-]. exists (S j). repeat split; auto. intros; lia.
    + intros (i & Hi & Hk & Hn)%IH. exists i. repeat split; auto.
      intros i' Hi'. destruct (decide (i' = S j)) as [->|]; auto. apply Hn. lia.
Qed.
End Star.

Lemma star_same {R} p pv pv' o s (k : cursor -> option R) :
  (forall z z', same z z' -> k z = k z') ->
  star p pv o s k = star p pv' o s k.
Proof.
  intros Hk. revert pv pv' o. induction s as [|c s IH]; intros pv pv' o; simpl.
  - by apply Hk.
  - destruct (p c); [|by apply Hk].
    destruct (star p (Some c) (S o) s k); [done|]. by apply Hk.
Qed.

Lemma run_same {R} r z z' cs (k : cursor -> caps -> option R) :
  unanchored r = true ->
  (forall z z' cs, same z z' -> k z cs = k z' cs) ->
  same z z' -> run r z cs k = run r z' cs k.
Proof.
  revert z z' cs k. induction r; intros z z' cs k Hr Hk Hz; simpl in *;
    pose proof Hz as [Ho Hs].
  - by apply Hk.
  - rewrite Hs, Ho. done.
  - apply andb_true_iff in Hr as [H1 H2]. apply IHr1; [done| |done].
    intros. by apply IHr2.
  - rewrite Hs, Ho. apply star_same. intros; by apply Hk.
  - rewrite (IHr z z' cs k) by done. destruct (run r z' cs k); [done|]. by apply Hk.
  - rewrite Hs. destruct (rest z'); [|done]. by apply Hk.
  - done.
  - rewrite Ho. apply IHr; [done| |done]. intros z1 z2 cs' Hz'.
    pose proof Hz' as [Ho' Hs']. rewrite Ho'. by apply Hk.
Qed.

Lemma exec_unanchored r pv s :
  unanchored r = true -> exec r pv s = exec r None s.
Proof.
  intros Hr. unfold exec. apply run_same; [done| |done].
  by intros z z' cs [-> _].
Qed.

Section Replace.
Context (r : regex) (tmpl : str -> caps -> str).
Hypothesis Hr : unanchored r = true.

Lemma replace_go_pv pv s n : replace_go r tmpl pv s n = replace_go r tmpl None s n.
Proof using Hr.
  revert pv n. induction s as [|c s IH]; intros pv n; simpl; [done|].
  destruct n; [|done]. by rewrite (exec_unanchored r pv).
Qed.

Lemma replace_go_skip pv s n :
  replace_go r tmpl pv s n = ReplaceAllString r tmpl (drop n s).
Proof using Hr.
  unfold ReplaceAllString. revert pv s. induction n as [|n IH]; intros pv s.
  - rewrite drop_0. apply replace_go_pv.
  - destruct s as [|c s]; simpl; [done|]. apply IH.
Qed.

Lemma ReplaceAll_nil : ReplaceAllString r tmpl [] = [].
Proof. done. Qed.

Lemma ReplaceAll_match c s n cs :
  exec r None (c :: s) = Some (S n, cs) ->
  ReplaceAllString r tmpl (c :: s)
  = tmpl (c :: s) cs ++ ReplaceAllString r tmpl (drop n s).
Proof using Hr.
  intros H. unfold ReplaceAllString at 1. simpl. rewrite H.
  by rewrite replace_go_skip.
Qed.

Lemma ReplaceAll_skip c s :
  (forall n cs, exec r None (c :: s) <> Some (S n, cs)) ->
  ReplaceAllString r tmpl (c :: s) = c :: ReplaceAllString r tmpl s.
Proof using Hr.
  intros H. unfold ReplaceAllString at 1. simpl.
  destruct (exec r None (c :: s)) as [[[|n] cs]|] eqn:E;
    try (by rewrite replace_go_skip, drop_0).
  by destruct (H n cs).
Qed.

Lemma find_None pv s pos :
  find r pv s pos = None ->
  exec r None s = None /\
  match s with [] => True | c :: s' => find r (Some c) s' (S pos) = None end.
Proof using Hr.
  destruct s as [|c s']; simpl; rewrite (exec_unanchored r pv) by done;
    destruct (exec r None _); try done.
Qed.

Lemma find_pos pv pv' s pos pos' :
  find r pv s pos = None -> find r pv' s pos' = None.
Proof using Hr.
  revert pv pv' pos pos'. induction s as [|c s IH]; intros pv pv' pos pos' H.
  - apply find_None in H as [H _]. simpl.
    by rewrite (exec_unanchored r pv'), H.
  - apply find_None in H as [H H']. simpl.
    rewrite (exec_unanchored r pv'), H by done. by eapply IH.
Qed.

(** Without a match the text is returned as it is. *)
Lemma ReplaceAll_no_match s :
  MatchString r s = false -> ReplaceAllString r tmpl s = s.
Proof using Hr.
  unfold MatchString. induction s as [|c s IH]; [done|].
  destruct (find r None (c :: s) 0) eqn:E; [done|]. intros _.
  apply find_None in E as [E E'].
  rewrite ReplaceAll_skip by (intros; congruence).
  f_equal. apply IH. by rewrite (find_pos _ None _ _ 0 E').
Qed.

Lemma MatchString_cons c s :
  MatchString r (c :: s) = false <->
  exec r None (c :: s) = None /\ MatchString r s = false.
Proof using Hr.
  unfold MatchString. split.
  - destruct (find r None (c :: s) 0) eqn:E; [done|]. intros _.
    apply find_None in E as [E E']. split; [done|].
    by rewrite (find_pos _ None _ _ 0 E').
  - intros [E E']. simpl. rewrite E.
    destruct (find r None s 0) eqn:F; [done|].
    by rewrite (find_pos _ (Some c) _ _ 1 F).
Qed.

Lemma MatchString_nil : MatchString r [] = false <-> exec r None [] = None.
Proof. unfold MatchString. simpl. by destruct (exec r None []). Qed.
End Replace.

End RegexpFacts.

(** ** The line normalizer *)
Module GCountFacts.
Import Regexp RegexpFacts GCount Strings GCountSpec.
#[local] Arguments Ascii.eqb : simpl never.
#[local] Arguments Class.hex : simpl never.
#[local] Arguments Class.digit : simpl never.
#[local] Arguments Class.space : simpl never.
#[local] Arguments Class.dot : simpl never.
#[local] Arguments Class.one : simpl never.

Lemma cleanStackLine_steps line :
  cleanStackLine line = stripPointers (stripTask (stripOffset line)).
Proof. done. Qed.

Lemma exec_hexPtr pv s :
  exec hexPtrRe pv s = if hexStart s then Some (hexLen s, []) else None.
Proof.
  unfold exec, hexPtrRe. cbn [Seq Lit bytes list_ascii_of_string run Plus].
  destruct s as [|c1 [|c2 [|c3 t]]]; cbn [rest off prev hexStart]; try done.
  - by destruct (Ascii.eqb "0" c1).
  - by destruct (Ascii.eqb "0" c1), (Ascii.eqb "x" c2).
  - destruct (Ascii.eqb "0" c1), (Ascii.eqb "x" c2), (Class.hex c3) eqn:E3; try done.
    cbn [andb]. rewrite star_back, back_total.
    + unfold hexLen. cbn [drop run_len]. rewrite E3. cbn [Nat.add drop].
      rewrite seek_rest, seek_off by apply run_len_le.
      destruct (drop (run_len Class.hex t) t) as [|q u]; [done|].
      destruct (Class.one "?" q); do 2 f_equal; lia.
    + intros i _. destruct (rest _) as [|q u]; [done|]. by destruct (Class.one "?" q).
Qed.

Lemma hexLen_pos s : hexStart s = true -> exists n, hexLen s = S n.
Proof.
  unfold hexLen. destruct (drop _ s) as [|c u]; [eauto|]. destruct (Class.one "?" c); eauto.
Qed.

Lemma hex_not_space c : Class.hex c = true -> Class.space c = false.
Proof. destruct c as [[] [] [] [] [] [] [] []]; by vm_compute. Qed.

Lemma run_len_lookup p s i :
  i < run_len p s -> exists c u, drop i s = c :: u /\ p c = true.
Proof.
  revert i. induction s as [|c s IH]; intros i; simpl; [lia|].
  destruct (p c) eqn:E; [|lia]. destruct i as [|i]; [eauto|].
  intros H. apply IH. lia.
Qed.

Lemma star_to_end p pv o u :
  star p pv o u
       (fun z => match rest z with
                 | [] => Some (off z, @nil (nat * (nat * nat)))
                 | _ :: _ => None
                 end)
  = if forallb p u then Some (o + length u, []) else None.
Proof.
  revert pv o. induction u as [|c u IH]; intros pv o; simpl.
  - do 2 f_equal. lia.
  - destruct (p c); [|done]. rewrite IH. simpl.
    destruct (forallb p u); [|done]. do 2 f_equal. lia.
Qed.

Lemma exec_offset pv s :
  exec offsetRe pv s = if offsetTail s then Some (length s, []) else None.
Proof.
  unfold exec, offsetRe. cbn [Seq Lit bytes list_ascii_of_string run Plus].
  destruct s as [|c0 [|c1 [|c2 [|c3 t]]]]; cbn [rest off prev offsetTail hexStart]; try done.
  - by destruct (Ascii.eqb "+" c0).
  - destruct (Ascii.eqb "+" c0), (Ascii.eqb "0" c1); try done.
  - destruct (Ascii.eqb "+" c0), (Ascii.eqb "0" c1), (Ascii.eqb "x" c2); try done.
  - destruct (Ascii.eqb "+" c0), (Ascii.eqb "0" c1), (Ascii.eqb "x" c2),
      (Class.hex c3) eqn:E3; try done.
    cbn [andb drop run_len]. rewrite E3. cbn [drop]. rewrite star_back.
    pose proof (run_len_le Class.hex t) as Hle.
    destruct (forallb Class.space (drop (run_len Class.hex t) t)) eqn:E.
    + erewrite back_first; [done|apply le_n| |intros; lia].
      rewrite star_to_end, seek_rest, seek_off, E by done.
      rewrite length_drop. simpl. do 2 f_equal. lia.
    + apply back_none. intros i Hi. rewrite star_to_end, seek_rest.
      destruct (decide (i = run_len Class.hex t)) as [->|Hne]; [by rewrite E|].
      destruct (run_len_lookup Class.hex t i) as (c & u & -> & Hc); [lia|].
      simpl. by rewrite (hex_not_space c).
Qed.

Lemma offsetTail_hexStart c s : offsetTail (c :: s) = true -> hexStart s = true.
Proof. simpl. by intros [[_ ?]%andb_true_iff _]%andb_true_iff. Qed.

Lemma unanchored_offset : unanchored offsetRe = true. Proof. done. Qed.
Lemma unanchored_createdBy : unanchored createdByRe = true. Proof. done. Qed.
Lemma unanchored_hexPtr : unanchored hexPtrRe = true. Proof. done. Qed.

(** An offset can only match where a pointer matches one byte later. *)
Lemma MatchString_offset_hexPtr s :
  MatchString hexPtrRe s = false -> MatchString offsetRe s = false.
Proof.
  induction s as [|c s IH].
  - rewrite !MatchString_nil by done. by rewrite exec_offset.
  - rewrite !MatchString_cons by done. intros [H1 H2]. split; [|auto].
    rewrite exec_offset. destruct (offsetTail (c :: s)) eqn:E; [|done].
    apply offsetTail_hexStart in E.
    destruct s as [|c' s']; [done|].
    apply MatchString_cons in H2 as [H2 _]; [|done].
    rewrite exec_hexPtr, E in H2. done.
Qed.

(** What [stripPointers] returns starts with the dots of a replacement or
    with the first byte of its input. *)
Lemma stripPointers_cons c s :
  stripPointers (c :: s) =
  if hexStart (c :: s) then bytes "..." ++ stripPointers (drop (hexLen (c :: s)) (c :: s))
  else c :: stripPointers s.
Proof.
  unfold stripPointers. destruct (hexStart (c :: s)) eqn:E.
  - destruct (hexLen_pos _ E) as [n Hn].
    rewrite (ReplaceAll_match _ _ unanchored_hexPtr c s n []).
    + by rewrite Hn.
    + by rewrite exec_hexPtr, E, Hn.
  - apply ReplaceAll_skip; [done|]. intros n cs. by rewrite exec_hexPtr, E.
Qed.

Lemma stripPointers_head s c u :
  stripPointers s = c :: u -> c <> "."%char ->
  exists s', s = c :: s' /\ hexStart s = false /\ u = stripPointers s'.
Proof.
  destruct s as [|c' s']; [done|]. rewrite stripPointers_cons.
  destruct (hexStart (c' :: s')) eqn:E.
  - simpl. intros [= <- _]. done.
  - intros [= -> <-]. eauto.
Qed.

Lemma hexStart_first c s : hexStart (c :: s) = true -> c = "0"%char.
Proof.
  destruct s as [|c2 [|c3 s]]; simpl; try done.
  intros [[H _]%andb_true_iff _]%andb_true_iff. by apply Ascii.eqb_eq in H.
Qed.

Lemma hexStart_not c s : c <> "0"%char -> hexStart (c :: s) = false.
Proof.
  intros H. destruct (hexStart (c :: s)) eqn:E; [|done].
  by apply hexStart_first in E.
Qed.

Lemma stripPointers_clean s : MatchString hexPtrRe (stripPointers s) = false.
Proof.
  remember (length s) as n eqn:Hn. revert s Hn.
  induction n as [n IH] using lt_wf_ind. intros s Hn.
  destruct s as [|c s]; [done|]. rewrite stripPointers_cons.
  destruct (hexStart (c :: s)) eqn:E.
  - destruct (hexLen_pos _ E) as [m Hm]. rewrite Hm. cbn [drop].
    pose proof (IH (length (drop m s))) as IH'.
    rewrite length_drop in IH'. simpl in Hn.
    specialize (IH' ltac:(lia) (drop m s) ltac:(by rewrite length_drop)).
    cbn [bytes list_ascii_of_string app].
    rewrite !MatchString_cons by done. rewrite !exec_hexPtr.
    by rewrite !hexStart_not.
  - rewrite MatchString_cons by done. split.
    + rewrite exec_hexPtr.
      destruct (hexStart (c :: stripPointers s)) eqn:E'; [|done]. exfalso.
      simpl in E'. destruct (stripPointers s) as [|c2 [|c3 u]] eqn:Es; try done.
      apply andb_true_iff in E' as [[E1 E2]%andb_true_iff E3].
      apply Ascii.eqb_eq in E1 as <-. apply Ascii.eqb_eq in E2 as <-.
      apply stripPointers_head in Es as (s' & -> & _ & Es); [|done].
      symmetry in Es. apply stripPointers_head in Es as (s'' & -> & _ & _).
      * simpl in E. by rewrite E3 in E.
      * intros ->. done.
    + eapply (IH (length s)); [simpl in Hn; lia|done].
Qed.

Lemma run_Lit {R} (p : str) z cs (k : cursor -> caps -> option R) :
  run (Lit p) z cs k =
  match prefix_of p (rest z) with
  | Some t => k (seek (prev z) (off z) (rest z) (length p)) cs
  | None => None
  end.
Proof.
  revert z. induction p as [|a p IH]; intros [pv o s]; simpl.
  - by rewrite seek_0.
  - destruct s as [|b s]; [done|]. destruct (Ascii.eqb a b); [|done].
    rewrite IH. simpl. done.
Qed.



Lemma prefix_of_Some p s l : prefix_of p s = Some l <-> s = p ++ l.
Proof.
  revert s. induction p as [|a p IH]; intros s; simpl.
  - split; [by intros [= ->]|by intros ->].
  - destruct s as [|b s]; [done|]. destruct (Ascii.eqb_spec a b) as [->|Hne].
    + rewrite IH. split; [by intros ->|by intros [= ->]].
    + split; [done|]. intros [= ? ?]. done.
Qed.

Lemma prefix_of_app p l : prefix_of p (p ++ l) = Some l.
Proof. by apply prefix_of_Some. Qed.

Lemma back_ext {R R'} (f : R -> R') (k : cursor -> option R) (k' : cursor -> option R')
    pv pv' o o' s s' j :
  (forall i, i <= j -> k' (seek pv' o' s' i) = f <$> k (seek pv o s i)) ->
  back k' pv' o' s' j = f <$> back k pv o s j.
Proof.
  induction j as [|j IH]; intros H; simpl.
  - rewrite (H 0) by lia. by destruct (k _).
  - rewrite (H (S j)) by lia. destruct (k (seek pv o s (S j))); [done|].
    simpl. apply IH. intros; apply H; lia.
Qed.

Lemma exec_createdBy pv s :
  exec createdByRe pv s
  = (fun '(j, d) => (12 + j + 14 + d, [(1, (0, 12 + j))])) <$> createdMatch s.
Proof.
  unfold exec, createdByRe, createdMatch. cbn [Seq run Plus]. rewrite run_Lit.
  cbn [rest prev off].
  destruct (prefix_of _ s) as [l|] eqn:E; [|done].
  apply prefix_of_Some in E as ->.
  rewrite seek_rest, drop_app_length, seek_off by (rewrite !length_app; lia).
  destruct l as [|c t]; [done|]. destruct (Class.dot c); [|done].
  rewrite star_back. apply back_ext. intros i Hi.
  pose proof (run_len_le Class.dot t) as Hle.
  rewrite run_Lit, !seek_rest, !(seek_off _ _ t i) by lia. unfold taskTail.
  cbn [Nat.add].
  destruct (prefix_of _ (drop i t)) as [u|] eqn:E; [|done].
  apply prefix_of_Some in E. rewrite E.
  rewrite drop_app_length, seek_off by (rewrite !length_app; lia).
  destruct u as [|d u]; [done|]. destruct (Class.digit d); [|done].
  rewrite star_back, back_total by done.
  rewrite seek_off by apply run_len_le. simpl. do 3 f_equal. lia.
Qed.

Lemma createdMatch_inv s j d :
  createdMatch s = Some (j, d) ->
  exists c t, s = bytes "created by " ++ c :: t /\ Class.dot c = true /\
    j <= run_len Class.dot t /\ taskTail t j = Some d /\
    forall j', j < j' <= run_len Class.dot t -> taskTail t j' = None.
Proof.
  unfold createdMatch. destruct (prefix_of _ s) as [[|c t]|] eqn:E; try done.
  apply prefix_of_Some in E as ->. destruct (Class.dot c) eqn:Ec; [|done].
  pose proof (run_len_le Class.dot t) as Hle.
  intros (i & Hi & Hk & Hn)%back_Some. exists c, t.
  rewrite seek_off in Hk by lia. simpl in Hk.
  destruct (taskTail t i) as [d'|] eqn:Et; [|done]. injection Hk as <- <-.
  repeat split; auto. intros j' Hj'. specialize (Hn j' Hj').
  rewrite seek_off in Hn by lia. simpl in Hn. by destruct (taskTail t j').
Qed.



Lemma group_1 s a b : group s [(1, (a, b))] 1 = take (b - a) (drop a s).
Proof. done. Qed.

Lemma stripTask_cons c s :
  stripTask (c :: s) =
  match createdMatch (c :: s) with
  | Some (j, d) => take (12 + j) (c :: s) ++ stripTask (drop (12 + j + 14 + d) (c :: s))
  | None => c :: stripTask s
  end.
Proof.
  unfold stripTask. destruct (createdMatch (c :: s)) as [[j d]|] eqn:E.
  - rewrite (ReplaceAll_match _ _ unanchored_createdBy c s (11 + j + 14 + d) [(1, (0, 12 + j))]).
    + by rewrite group_1, Nat.sub_0_r, drop_0.
    + by rewrite exec_createdBy, E.
  - apply ReplaceAll_skip; [done|]. intros n cs. by rewrite exec_createdBy, E.
Qed.

Lemma stripOffset_cons c s :
  stripOffset (c :: s) = if offsetTail (c :: s) then [] else c :: stripOffset s.
Proof.
  unfold stripOffset. destruct (offsetTail (c :: s)) eqn:E.
  - rewrite (ReplaceAll_match _ _ unanchored_offset c s (length s) []).
    + by rewrite drop_all.
    + by rewrite exec_offset, E.
  - apply ReplaceAll_skip; [done|]. intros n cs. by rewrite exec_offset, E.
Qed.

(** ** C2: idempotence of the normalizer *)

Lemma cleanStackLine_fixed (L : str) :
  MatchString createdByRe (cleanStackLine L) = false ->
  cleanStackLine (cleanStackLine L) = cleanStackLine L.
Proof.
  intros Hc. rewrite (cleanStackLine_steps (cleanStackLine L)).
  assert (MatchString hexPtrRe (cleanStackLine L) = false) as Hh
    by apply stripPointers_clean.
  unfold stripOffset, stripTask, stripPointers.
  rewrite (ReplaceAll_no_match offsetRe) by auto using MatchString_offset_hexPtr.
  rewrite (ReplaceAll_no_match createdByRe) by done.
  by rewrite (ReplaceAll_no_match hexPtrRe).
Qed.

Lemma cleanStackLine_not_idempotent :
  let L := bytes "created by a in goroutine 1 in goroutine 2" in
  cleanStackLine L = bytes "created by a in goroutine 1" /\
  cleanStackLine (cleanStackLine L) = bytes "created by a" /\
  cleanStackLine (cleanStackLine L) <> cleanStackLine L.
Proof. vm_compute. repeat split; discriminate. Qed.








(** *** Task numbers *)







Lemma forallb_take (p : ascii -> bool) n s :
  forallb p s = true -> forallb p (take n s) = true.
Proof.
  intros H. rewrite <- (take_drop n s), forallb_app in H.
  by apply andb_true_iff in H as [H _].
Qed.







Lemma run_len_cut p l c V : p c = false -> run_len p (l ++ c :: V) = run_len p l.
Proof.
  intros Hc. induction l as [|b l IH]; cbn [app run_len].
  - by rewrite Hc.
  - by rewrite IH.
Qed.


Lemma taskTail_bound W d : taskTail W 0 = Some d -> 14 + d <= length W.
Proof.
  unfold taskTail. rewrite drop_0.
  destruct (prefix_of _ W) as [[|c l]|] eqn:E; try done.
  apply prefix_of_Some in E as ->. destruct (Class.digit c); [|done].
  intros [= <-]. rewrite length_app. pose proof (run_len_le Class.digit l).
  simpl. lia.
Qed.







(** *** Pointer values *)

Lemma stripOffset_prefix s : exists R, s = stripOffset s ++ R.
Proof.
  induction s as [|c s [R IH]]; [by exists []|]. rewrite stripOffset_cons.
  destruct (offsetTail (c :: s)); [by exists (c :: s)|].
  exists R. cbn [app]. by rewrite <- IH.
Qed.


























Lemma hexLen_min s : hexStart s = true -> 3 <= hexLen s.
Proof.
  destruct s as [|c1 [|c2 [|c3 t]]]; try done. cbn [hexStart].
  intros [_ H3]%andb_true_iff. unfold hexLen.
  change (drop 2 (c1 :: c2 :: c3 :: t)) with (c3 :: t). cbn [run_len]. rewrite H3.
  destruct (drop _ _) as [|c u]; [lia|]. destruct (Class.one "?" c); lia.
Qed.

Lemma stripPointers_length s : length (stripPointers s) <= length s.
Proof.
  remember (length s) as n eqn:Hn. revert s Hn.
  induction n as [n IH] using lt_wf_ind. intros s ->.
  destruct s as [|c s]; [done|]. rewrite stripPointers_cons.
  destruct (hexStart (c :: s)) eqn:E.
  - pose proof (hexLen_min _ E) as Hm. rewrite length_app.
    assert (length (stripPointers (drop (hexLen (c :: s)) (c :: s)))
            <= length (drop (hexLen (c :: s)) (c :: s))) as IH'.
    { eapply IH; [|done]. rewrite length_drop. simpl. lia. }
    rewrite length_drop in IH'. change (length (bytes "...")) with 3.
    assert (3 <= length (c :: s)) by (destruct s as [|? [|? ?]]; [done..|simpl; lia]).
    lia.
  - cbn [length]. specialize (IH (length s) ltac:(simpl; lia) s eq_refl). lia.
Qed.

Lemma taskTail_len t j d : taskTail t j = Some d -> j + 14 + d <= length t.
Proof.
  intros H. assert (taskTail (drop j t) 0 = Some d) as H'
    by (unfold taskTail in *; by rewrite drop_0).
  apply taskTail_bound in H'. rewrite length_drop in H'.
  destruct (decide (j <= length t)); [lia|].
  unfold taskTail in H. rewrite drop_ge in H by lia. done.
Qed.

Lemma createdMatch_len s j d :
  createdMatch s = Some (j, d) -> 12 + j + 14 + d <= length s.
Proof.
  intros (c & t & -> & _ & _ & Ht & _)%createdMatch_inv.
  apply taskTail_len in Ht. rewrite length_app. simpl. lia.
Qed.

Lemma stripTask_length s :
  length (stripTask s) <= length s /\
  (MatchString createdByRe s = true -> length (stripTask s) < length s).
Proof.
  remember (length s) as n eqn:Hn. revert s Hn.
  induction n as [n IH] using lt_wf_ind. intros s ->.
  destruct s as [|c s]; [by vm_compute|]. rewrite stripTask_cons.
  destruct (createdMatch (c :: s)) as [[j d]|] eqn:E.
  - pose proof (createdMatch_len _ _ _ E) as Hl.
    assert (length (stripTask (drop (12 + j + 14 + d) (c :: s)))
            <= length (drop (12 + j + 14 + d) (c :: s))) as IH'.
    { eapply IH; [|done]. rewrite length_drop. simpl. lia. }
    rewrite length_app, length_take. rewrite length_drop in IH'. lia.
  - destruct (IH (length s) ltac:(simpl; lia) s eq_refl) as [IH1 IH2].
    cbn [length]. split; [lia|]. intros Hm.
    destruct (MatchString createdByRe s) eqn:Es; [specialize (IH2 eq_refl); lia|].
    assert (MatchString createdByRe (c :: s) = false) as Hf; [|congruence].
    apply MatchString_cons; [done|]. by rewrite exec_createdBy, E.
Qed.

(** C2, amended: normalizing twice gives the same line exactly when the
    normalized line holds no further [created by X in goroutine N]. *)
Theorem cleanStackLine_idempotent_iff (L : str) :
  cleanStackLine (cleanStackLine L) = cleanStackLine L
  <-> MatchString createdByRe (cleanStackLine L) = false.
Proof.
  split; [|apply cleanStackLine_fixed].
  intros Heq. destruct (MatchString createdByRe (cleanStackLine L)) eqn:E; [exfalso|done].
  apply (f_equal length) in Heq. rewrite (cleanStackLine_steps (cleanStackLine L)) in Heq.
  assert (stripOffset (cleanStackLine L) = cleanStackLine L) as Ho.
  { apply ReplaceAll_no_match; [done|]. apply MatchString_offset_hexPtr.
    apply stripPointers_clean. }
  rewrite Ho in Heq. pose proof (stripPointers_length (stripTask (cleanStackLine L))).
  destruct (stripTask_length (cleanStackLine L)) as [_ Hlt]. specialize (Hlt E). lia.
Qed.

Lemma cleanStackLine_idempotent_iff_witness :
  let L := bytes "created by main.run in goroutine 17" in
  MatchString createdByRe (cleanStackLine L) = false /\
  cleanStackLine (cleanStackLine L) = cleanStackLine L.
Proof.
  split; [by vm_compute|].
  apply (proj2 (cleanStackLine_idempotent_iff _)). by vm_compute.
Defined.

End GCountFacts.

(** ** The indexer *)
Module GIndexFacts.
Import Regexp Strings GIndex GIndexSpec Samples.

Section Ordered.
Context (ord : Order) (Hfair : fair ord).

(** ** Fair orders *)

Lemma elem_of_rangeZ {A} (line : nat) (m : gmap Z A) k v :
  (k, v) ∈ rangeZ ord line m <-> m !! k = Some v.
Proof. rewrite (rangeZ_perm _ Hfair). apply elem_of_map_to_list. Qed.

Lemma NoDup_rangeZ {A} (line : nat) (m : gmap Z A) : NoDup (rangeZ ord line m).*1.
Proof. rewrite (rangeZ_perm _ Hfair). apply NoDup_fst_map_to_list. Qed.

Lemma rangeZ_empty {A} (line : nat) : rangeZ ord line (∅ : gmap Z A) = [].
Proof.
  apply Permutation_nil_r. rewrite (rangeZ_perm _ Hfair). by rewrite map_to_list_empty.
Qed.

Lemma elem_of_rangeS {A} (line : nat) (m : gmap str A) k v :
  (k, v) ∈ rangeS ord line m <-> m !! k = Some v.
Proof. rewrite (rangeS_perm _ Hfair). apply elem_of_map_to_list. Qed.

Lemma NoDup_rangeS {A} (line : nat) (m : gmap str A) : NoDup (rangeS ord line m).*1.
Proof. rewrite (rangeS_perm _ Hfair). apply NoDup_fst_map_to_list. Qed.

Lemma elem_of_rangeSet (line : nat) (s : gset str) x : x ∈ rangeSet ord line s <-> x ∈ s.
Proof. rewrite (rangeSet_perm _ Hfair). apply elem_of_elements. Qed.

Lemma elem_of_recv {A} (line : nat) (l : list A) x : x ∈ recv ord line l <-> x ∈ l.
Proof. by rewrite (recv_perm _ Hfair). Qed.

(** The first pair of a loop with a given key is the binding of the key. *)
Lemma list_find_key `{Countable K} {A} (m : gmap K A) (l : list (K * A)) id :
  l ≡ₚ map_to_list m ->
  snd <$> (snd <$> list_find (fun kv : K * A => kv.1 = id) l) = m !! id.
Proof.
  intros Hl. destruct (list_find _ _) as [[i [k a]]|] eqn:E; cbn.
  - apply list_find_Some in E as (Hi & Hk & _). simpl in Hk. subst k.
    symmetry. apply elem_of_map_to_list. rewrite <- Hl.
    by eapply list_elem_of_lookup_2.
  - destruct (m !! id) as [a|] eqn:Em; [exfalso|done].
    apply elem_of_map_to_list in Em. rewrite <- Hl in Em.
    eapply list_find_None in E. rewrite Forall_forall in E. by apply (E _ Em).
Qed.

(** ** C10: one record per goroutine id, the last block wins *)

Lemma addBlock_record result block :
  addBlock result block =
  match blockRecord block with
  | Some (id, g) => <[id := g]> result
  | None => result
  end.
Proof.
  unfold addBlock, blockRecord. destruct (parseGoroutineBlock block); [|done].
  by destruct (FindStringSubmatch goroHeaderRe block) as [[? ?]|].
Qed.

Lemma omap_cons_eq {A B} (f : A -> option B) x l :
  omap f (x :: l) = match f x with Some y => y :: omap f l | None => omap f l end.
Proof. done. Qed.

Lemma foldl_addBlock result bs id :
  foldl addBlock result bs !! id =
  match last (filter (fun r => r.1 = id) (omap blockRecord bs)) with
  | Some r => Some r.2
  | None => result !! id
  end.
Proof.
  revert result. induction bs as [|b bs IH]; intros result; [done|].
  cbn [foldl]. rewrite IH, addBlock_record, omap_cons_eq.
  destruct (blockRecord b) as [[id' g]|]; [|done].
  rewrite filter_cons. cbn [fst]. destruct (decide (id' = id)) as [->|Hne].
  - rewrite last_cons. destruct (last _); [done|]. by rewrite lookup_insert_eq.
  - destruct (last _); [done|]. by rewrite lookup_insert_ne.
Qed.

Lemma addEntry_fold ts l series id :
  NoDup l.*1 ->
  entriesOf (foldl (addEntry ts) series l) id =
  entriesOf series id ++
  match list_find (fun kv => kv.1 = id) l with
  | Some (_, (_, g)) => [newEntry ts g]
  | None => []
  end.
Proof.
  revert series. induction l as [|[k g] l IH]; intros series Hnd.
  - by rewrite app_nil_r.
  - apply NoDup_cons in Hnd as [Hk Hnd]. cbn [foldl]. rewrite IH by done.
    cbn [list_find fst]. destruct (decide (k = id)) as [->|Hne].
    + destruct (list_find _ l) as [[i [k' g']]|] eqn:E.
      * apply list_find_Some in E as (Hl & Hk' & _). simpl in Hk'. subst k'.
        destruct Hk. apply list_elem_of_fmap. exists (id, g').
        split; [done|]. by eapply list_elem_of_lookup_2.
      * cbn [fmap option_fmap option_map]. rewrite app_nil_r.
        unfold entriesOf, addEntry. by rewrite lookup_insert_eq.
    + assert (entriesOf (addEntry ts series (k, g)) id = entriesOf series id) as ->.
      { unfold entriesOf, addEntry. by rewrite lookup_insert_ne. }
      by destruct (list_find _ l) as [[i [k' g']]|].
Qed.

Lemma pass1Step_entries acc r id :
  entriesOf (goroSeries (pass1Step ord acc r)) id =
  entriesOf (goroSeries acc) id ++
  match goros r !! id with
  | Some g => [newEntry (Unix (timestamp r)) g]
  | None => []
  end.
Proof.
  unfold pass1Step. cbn [goroSeries].
  rewrite addEntry_fold by apply NoDup_rangeZ.
  rewrite <- (list_find_key (goros r) (rangeZ ord 546 (goros r)) id)
    by apply (rangeZ_perm _ Hfair).
  by destruct (list_find _ _) as [[i [k a]]|].
Qed.


Example two_blocks_same_id :
  let data := bytes "goroutine 7 [running]:
main.first()
goroutine 8 [select]:
main.other()
goroutine 7 [IO wait]:
main.second()
" in
  map (fun r => (r.1, state r.2)) (omap blockRecord (dumpBlocks data))
  = [(7%Z, bytes "running"); (8%Z, bytes "select"); (7%Z, bytes "IO wait")] /\
  (state <$> parseGoroutines data !! 7%Z) = Some (bytes "IO wait") /\
  (stack <$> parseGoroutines data !! 7%Z) = Some (bytes "main.second()") /\
  size (parseGoroutines data) = 2.
Proof. by vm_compute. Qed.

(** The indexer normalizes lines as the converter does. *)
Lemma normalizeLine_cleanStackLine line : normalizeLine line = GCount.cleanStackLine line.
Proof. reflexivity. Qed.

(** ** Sorting the results *)

Lemma insertResult_perm r l : insertResult r l ≡ₚ r :: l.
Proof.
  induction l as [|x l IH]; [done|]. cbn [insertResult].
  destruct (Before _ _); [|done]. rewrite IH. apply Permutation_swap.
Qed.

Lemma sortResults_perm l : sortResults l ≡ₚ l.
Proof.
  induction l as [|x l IH]; [done|]. cbn [sortResults foldr].
  rewrite insertResult_perm. by constructor.
Qed.

Lemma insertResult_sorted r l :
  StronglySorted byTime l -> StronglySorted byTime (insertResult r l).
Proof.
  induction 1 as [|x l Hs IH Hx]; cbn [insertResult]; [repeat constructor|].
  unfold Before. destruct (Z.ltb_spec (timestamp x) (timestamp r)).
  - constructor; [done|]. rewrite insertResult_perm.
    constructor; [unfold byTime; lia|done].
  - constructor; [by constructor|].
    constructor; [done|]. eapply Forall_impl; [done|]. unfold byTime. intros; lia.
Qed.

Lemma sortResults_sorted l : StronglySorted byTime (sortResults l).
Proof.
  induction l as [|x l IH]; [constructor|]. by apply insertResult_sorted.
Qed.

Lemma Unix_mono a b : (a <= b)%Z -> (Unix a <= Unix b)%Z.
Proof. intros. unfold Unix. apply Z.div_le_mono; lia. Qed.

(** ** The first pass *)

Lemma buildSeries_entries acc rs id :
  entriesOf (goroSeries (foldl (pass1Step ord) acc rs)) id =
  entriesOf (goroSeries acc) id
  ++ omap (fun r => newEntry (Unix (timestamp r)) <$> goros r !! id) rs.
Proof.
  revert acc. induction rs as [|r rs IH]; intros acc; cbn [foldl].
  - by rewrite app_nil_r.
  - rewrite IH, pass1Step_entries, omap_cons_eq, <- app_assoc.
    by destruct (goros r !! id).
Qed.

Lemma buildSeries_stats acc rs :
  statsTimestamps (foldl (pass1Step ord) acc rs)
  = statsTimestamps acc ++ map (fun r => Unix (timestamp r)) rs /\
  statsCounts (foldl (pass1Step ord) acc rs)
  = statsCounts acc ++ map (fun r => size (goros r)) rs.
Proof.
  revert acc. induction rs as [|r rs IH]; intros acc; cbn [foldl map].
  - by rewrite !app_nil_r.
  - destruct (IH (pass1Step ord acc r)) as [-> ->]. cbn. by rewrite <- !app_assoc.
Qed.

Lemma length_omap_filter {A B} (f : A -> option B) (l : list A) :
  length (omap f l) = length (filter (fun x => is_Some (f x)) l).
Proof.
  induction l as [|x l IH]; [done|]. rewrite omap_cons_eq, filter_cons.
  destruct (f x) eqn:E.
  - rewrite decide_True by eauto. cbn. by rewrite IH.
  - rewrite decide_False; [done|]. by intros [? ?].
Qed.

Lemma entries_sorted rs id :
  StronglySorted byTime rs ->
  StronglySorted Z.le
    (map Timestamp (omap (fun r => newEntry (Unix (timestamp r)) <$> goros r !! id) rs)).
Proof.
  induction 1 as [|r rs Hs IH Hr]; [constructor|]. rewrite omap_cons_eq.
  destruct (goros r !! id) as [g|]; [|done]. cbn. constructor; [done|].
  apply Forall_forall. intros t Ht.
  apply list_elem_of_fmap in Ht as (e & -> & He).
  apply list_elem_of_omap in He as (r' & Hr' & He).
  destruct (goros r' !! id); [|done]. injection He as <-. cbn.
  rewrite Forall_forall in Hr. by apply Unix_mono, Hr.
Qed.


Lemma addEntry_nonEmpty ts series kv : nonEmpty series -> nonEmpty (addEntry ts series kv).
Proof.
  destruct kv as [k g]. intros Hw id s. unfold addEntry.
  destruct (decide (k = id)) as [->|Hne].
  - rewrite lookup_insert_eq. intros [= <-]. cbn. by destruct (entriesOf series id).
  - rewrite lookup_insert_ne by done. apply Hw.
Qed.

Lemma buildSeries_nonEmpty rs : nonEmpty (goroSeries (buildSeries ord rs)).
Proof.
  unfold buildSeries.
  assert (nonEmpty (goroSeries (mkPass1 ∅ [] []))) as H by (intros ???; done).
  revert H. generalize (mkPass1 ∅ [] []).
  induction rs as [|r rs IH]; intros acc Hacc; [done|]. cbn [foldl]. apply IH.
  unfold pass1Step. cbn [goroSeries]. revert Hacc. generalize (goroSeries acc).
  induction (rangeZ ord 546 (goros r)) as [|kv l IHl]; intros series Hs; [done|].
  cbn [foldl]. by apply IHl, addEntry_nonEmpty.
Qed.

Lemma entriesOf_lookup series id s : series !! id = Some s -> entriesOf series id = Entries s.
Proof. unfold entriesOf. by intros ->. Qed.

Lemma entriesOf_Some series id :
  entriesOf series id <> [] -> exists s, series !! id = Some s /\ Entries s = entriesOf series id.
Proof. unfold entriesOf. destruct (series !! id); [eauto|done]. Qed.

Lemma hostResults_perm files : hostResults ord files ≡ₚ collect files.
Proof. unfold hostResults. by rewrite sortResults_perm, (recv_perm _ Hfair). Qed.

Lemma hostResults_sorted files : StronglySorted byTime (hostResults ord files).
Proof. apply sortResults_sorted. Qed.

(** The series of one goroutine: one entry per dump that holds it, in the
    order of the sorted dumps. *)
Lemma hostSeries_entries files id :
  entriesOf (hostSeries ord files) id =
  omap (fun r => newEntry (Unix (timestamp r)) <$> goros r !! id)
       (hostResults ord files).
Proof. unfold hostSeries, buildSeries. by rewrite buildSeries_entries. Qed.

Lemma hostSeries_shape files id :
  Sorted Z.le (map Timestamp (entriesOf (hostSeries ord files) id)) /\
  length (entriesOf (hostSeries ord files) id)
  = length (filter (appearsIn id) (collect files)).
Proof.
  rewrite hostSeries_entries. split.
  - apply StronglySorted_Sorted, entries_sorted, sortResults_sorted.
  - rewrite length_omap_filter.
    rewrite (list_filter_iff _ (appearsIn id)).
    + apply Permutation_length. by rewrite hostResults_perm.
    + intros r. unfold appearsIn. by rewrite fmap_is_Some.
Qed.

(** ** The store *)

Lemma Get_app db w key :
  Get (db ++ w) key = match Get w key with Some v => Some v | None => Get db key end.
Proof.
  induction db as [|[k v] db IH]; cbn [app Get].
  - by destruct (Get w key).
  - rewrite IH. by destruct (Get w key).
Qed.

Lemma Get_Put db k v key :
  Get (Put db k v) key = if decide (k = key) then Some v else Get db key.
Proof. unfold Put. rewrite Get_app. cbn. by destruct (decide (k = key)). Qed.

Lemma Get_absent w key : key ∉ w.*1 -> Get w key = None.
Proof.
  induction w as [|[k v] w IH]; [done|]. cbn. intros H.
  apply not_elem_of_cons in H as [Hne H]. rewrite IH by done.
  by rewrite decide_False.
Qed.

Lemma key_f_inj f1 f2 : key_f f1 = key_f f2 -> f1 = f2.
Proof. unfold key_f. by intros ?%app_inv_head. Qed.

Lemma writeSeries_spec host db series :
  writeSeries ord host db series = db ++ seriesRecords ord host series.
Proof.
  unfold writeSeries, seriesRecords.
  assert (forall l st, batchSize st = length (batch st) ->
    let st' := foldl (writeSeriesStep host) st l in
    store st' ++ batch st' = store st ++ batch st
                             ++ map (fun kv => (key_g host kv.1, VSeries kv.2)) l
    /\ batchSize st' = length (batch st')) as H.
  { induction l as [|[id s] l IH]; intros st Hst; cbn [foldl map].
    - by rewrite app_nil_r.
    - destruct (IH (writeSeriesStep host st (id, s))) as [E1 E2].
      + unfold writeSeriesStep. destruct (1000 <=? _); cbn; [done|].
        rewrite length_app. cbn. lia.
      + split; [|done]. cbv zeta in E1. rewrite E1. clear.
        unfold writeSeriesStep. destruct (1000 <=? _); cbn;
          by rewrite <- ?app_assoc. }
  destruct (H (rangeZ ord 656 series) (mkBatch db [] 0) eq_refl) as [E1 E2].
  cbv zeta in E1, E2. cbn [store batch app] in E1.
  destruct (0 <? _) eqn:E; [done|]. apply Nat.ltb_ge in E.
  destruct (batch _); [|simpl in *; lia]. by rewrite app_nil_r in E1.
Qed.

Lemma writeChildren_spec host db childrenIndex :
  writeChildren ord host db childrenIndex = db ++ childRecords ord host childrenIndex.
Proof.
  unfold writeChildren, childRecords. revert db.
  induction (rangeZ ord 719 childrenIndex) as [|[p cl] l IH]; intros db; cbn [foldl map].
  - by rewrite app_nil_r.
  - rewrite IH. unfold Put. by rewrite <- app_assoc.
Qed.

Lemma foldl_snoc_snd {K A} (l : list (K * A)) (e : list A) :
  foldl (fun existing '(_, occ) => existing ++ [occ]) e l = e ++ l.*2.
Proof.
  revert e. induction l as [|[k a] l IH]; intros e; cbn [foldl fmap list_fmap].
  - by rewrite app_nil_r.
  - rewrite IH. by rewrite <- app_assoc.
Qed.

Lemma mergeStep_spec db allFuncs funcName goroMap :
  mergeStep ord (db, allFuncs) (funcName, goroMap) =
  (Put db (key_f funcName)
       (VFuncIndex (mkFuncIndex (existingIndex db (key_f funcName)
                                 ++ (rangeZ ord 758 goroMap).*2))),
   {[funcName]} ∪ allFuncs).
Proof. unfold mergeStep. by rewrite foldl_snoc_snd. Qed.

Lemma existingIndex_Put db k f key :
  existingIndex (Put db k (VFuncIndex f)) key =
  if decide (k = key) then Occurrences f else existingIndex db key.
Proof. unfold existingIndex. rewrite Get_Put. by destruct (decide (k = key)). Qed.

Lemma mergeFuncs_fold l db allFuncs :
  exists F, (foldl (mergeStep ord) (db, allFuncs) l).1 = db ++ F /\ Forall isFuncRecord F.
Proof.
  revert db allFuncs. induction l as [|[fnm gm] l IH]; intros db allFuncs.
  - exists []. by rewrite app_nil_r.
  - cbn [foldl]. rewrite mergeStep_spec.
    destruct (IH (Put db (key_f fnm)
      (VFuncIndex (mkFuncIndex (existingIndex db (key_f fnm) ++ (rangeZ ord 758 gm).*2))))
      ({[fnm]} ∪ allFuncs)) as (F & -> & HF).
    eexists (_ :: F). unfold Put. rewrite <- app_assoc. split; [done|].
    constructor; [by eexists _, _|done].
Qed.

Lemma mergeFuncs_index l db allFuncs funcName :
  NoDup l.*1 ->
  existingIndex (foldl (mergeStep ord) (db, allFuncs) l).1 (key_f funcName) =
  existingIndex db (key_f funcName) ++
  match list_find (fun kv => kv.1 = funcName) l with
  | Some (_, (_, goroMap)) => (rangeZ ord 758 goroMap).*2
  | None => []
  end.
Proof.
  revert db allFuncs. induction l as [|[fnm gm] l IH]; intros db allFuncs Hnd.
  - by rewrite app_nil_r.
  - apply NoDup_cons in Hnd as [Hk Hnd]. cbn [foldl]. rewrite mergeStep_spec.
    rewrite IH, existingIndex_Put by done. cbn [list_find fst].
    destruct (decide (fnm = funcName)) as [->|Hne].
    + rewrite decide_True by done. cbn.
      destruct (list_find _ l) as [[i [k' g']]|] eqn:E; [|by rewrite app_nil_r].
      apply list_find_Some in E as (Hl & Hk' & _). simpl in Hk'. subst k'.
      destruct Hk. apply list_elem_of_fmap. exists (funcName, g').
      split; [done|]. by eapply list_elem_of_lookup_2.
    + rewrite decide_False by (by intros ?%key_f_inj).
      by destruct (list_find _ l) as [[i [k' g']]|].
Qed.

(** ** The children index *)

Lemma findParent_spec entries p funcs :
  findParent entries = (p, funcs) -> p <> 0%Z ->
  exists pre e post,
    entries = pre ++ e :: post /\ Forall (fun x => CreatedBy x = 0%Z) pre /\
    CreatedBy e = p /\ funcs = extractFirstTwoFuncs (Stack e).
Proof.
  induction entries as [|e entries IH]; cbn [findParent]; [by intros [= <- _]|].
  destruct (Z.eqb_spec (CreatedBy e) 0) as [E|E]; cbn [negb].
  - intros H Hp. destruct (IH H Hp) as (pre & e' & post & -> & Hpre & He & Hf).
    exists (e :: pre), e', post. repeat split; auto.
  - intros [= <- <-] _. by exists [], e, entries.
Qed.

Lemma childStep_lookup idx kv p :
  default [] (childStep idx kv !! p)
  = default [] (idx !! p) ++ option_list (childOf p kv).
Proof.
  destruct kv as [id series]. unfold childStep, childOf. cbn [fst snd].
  destruct (Entries series) as [|e es]; [by rewrite app_nil_r|].
  destruct (findParent (e :: es)) as [parentID funcs].
  destruct (parentID =? 0)%Z; [by rewrite app_nil_r|].
  destruct (decide (parentID = p)) as [->|Hne].
  - by rewrite lookup_insert_eq.
  - rewrite lookup_insert_ne by done. by rewrite app_nil_r.
Qed.

Lemma buildChildren_fold l idx p :
  default [] (foldl childStep idx l !! p) = default [] (idx !! p) ++ omap (childOf p) l.
Proof.
  revert idx. induction l as [|kv l IH]; intros idx; cbn [foldl].
  - by rewrite app_nil_r.
  - rewrite IH, childStep_lookup, omap_cons_eq, <- app_assoc.
    by destruct (childOf p kv).
Qed.

Lemma buildChildren_lookup series p children :
  buildChildren ord series !! p = Some children ->
  children = omap (childOf p) (rangeZ ord 689 series).
Proof.
  intros H. pose proof (buildChildren_fold (rangeZ ord 689 series) ∅ p) as E.
  unfold buildChildren in H. by rewrite H in E.
Qed.

Lemma childOf_spec p id series child :
  childOf p (id, series) = Some child ->
  ID child = id /\ p <> 0%Z /\
  exists pre e post,
    Entries series = pre ++ e :: post /\ Forall (fun x => CreatedBy x = 0%Z) pre /\
    CreatedBy e = p /\ Funcs child = extractFirstTwoFuncs (Stack e).
Proof.
  unfold childOf. cbn [fst snd]. destruct (Entries series) as [|e0 es] eqn:E; [done|].
  destruct (findParent (e0 :: es)) as [parentID funcs] eqn:Ef.
  destruct (Z.eqb_spec parentID 0); [done|].
  destruct (decide (parentID = p)) as [->|]; [|done]. intros [= <-].
  split; [done|]. split; [done|]. by apply findParent_spec.
Qed.

Lemma children_NoDup p (l : list (Z * GoroutineTimeSeries)) :
  NoDup l.*1 -> NoDup (map ID (omap (childOf p) l)).
Proof.
  induction l as [|[id s] l IH]; [constructor|]. cbn [fmap list_fmap fst].
  intros [Hid Hnd]%NoDup_cons. rewrite omap_cons_eq.
  destruct (childOf p (id, s)) as [child|] eqn:E; [|auto].
  cbn [map]. constructor; [|auto]. intros Hin.
  apply list_elem_of_fmap in Hin as (c' & Hc' & Hin).
  apply list_elem_of_omap in Hin as ([id' s'] & Hl & E').
  apply childOf_spec in E as [E _]. apply childOf_spec in E' as [E' _].
  apply Hid. apply list_elem_of_fmap. exists (id', s'). split; [|done].
  cbn. congruence.
Qed.

(** ** What [processHost] writes *)

Lemma processHost_spec db host files numWorkers :
  processHost ord db host (Some files) numWorkers
  = mergeFuncs ord (db ++ hostRecords ord host files) (hostFuncs ord host numWorkers files).
Proof.
  unfold processHost, hostRecords, hostFuncs, hostSeries, statsRecord, Put.
  cbv zeta. rewrite writeSeries_spec, writeChildren_spec.
  by rewrite <- !app_assoc.
Qed.

Lemma processHost_log db host files numWorkers :
  exists F, (processHost ord db host files numWorkers).1
            = db ++ from_option (hostRecords ord host) [] files ++ F
            /\ Forall isFuncRecord F.
Proof.
  destruct files as [files|].
  - rewrite processHost_spec. unfold mergeFuncs.
    destruct (mergeFuncs_fold (rangeS ord 745 (hostFuncs ord host numWorkers files))
                (db ++ hostRecords ord host files) ∅) as (F & -> & HF).
    exists F. by rewrite <- app_assoc.
  - exists []. cbn. by rewrite app_nil_r.
Qed.

Lemma hostRecords_key host files kv funcName :
  kv ∈ hostRecords ord host files -> kv.1 <> key_f funcName.
Proof.
  unfold hostRecords, seriesRecords, childRecords, statsRecord.
  rewrite !elem_of_app, !list_elem_of_fmap, list_elem_of_singleton.
  intros [(x & -> & _)|[(x & -> & _)| ->]]; done.
Qed.

(** The log of a rebuild: the host list, then for each host its records
    and the function indexes it merges, then the function list. *)
Lemma hosts_fold numWorkers corpus db allFuncs :
  exists W, (foldl (hostStep ord numWorkers) (db, allFuncs) corpus).1 = db ++ W /\
    (forall kv, kv ∈ W ->
       isFuncRecord kv \/
       exists host files, (host, Some files) ∈ corpus /\ kv ∈ hostRecords ord host files) /\
    (forall host files kv,
       (host, Some files) ∈ corpus -> kv ∈ hostRecords ord host files -> kv ∈ W).
Proof.
  revert db allFuncs. induction corpus as [|[host files] corpus IH]; intros db allFuncs.
  - exists []. rewrite app_nil_r. split; [done|].
    split; [by intros ? ?%elem_of_nil|by intros ??? ?%elem_of_nil].
  - cbn [foldl]. unfold hostStep at 2. cbn [fst snd].
    destruct (processHost_log db host files numWorkers) as (F & E & HF).
    destruct (processHost ord db host files numWorkers) as [db1 funcs]. cbn [fst] in E.
    subst db1. destruct (IH (db ++ from_option (hostRecords ord host) [] files ++ F)
                           (funcs ∪ allFuncs)) as (W & -> & H1 & H2).
    exists (from_option (hostRecords ord host) [] files ++ F ++ W).
    split; [by rewrite <- !app_assoc|]. split.
    + intros kv. rewrite !elem_of_app. intros [Hkv|[Hkv|Hkv]].
      * right. destruct files as [files|]; [|by apply elem_of_nil in Hkv].
        exists host, files. split; [by left|done].
      * left. rewrite Forall_forall in HF. by apply HF.
      * destruct (H1 kv Hkv) as [?|(h & fs & Hh & ?)]; [by left|right].
        exists h, fs. split; [by right|done].
    + intros h fs kv Hh Hkv. rewrite !elem_of_app.
      apply elem_of_cons in Hh as [[= -> <-]|Hh]; [by left|].
      right; right. by eapply H2.
Qed.

Lemma runIndex_log corpus numWorkers :
  exists W funcList,
    runIndex ord corpus numWorkers
    = (key_hosts, VHosts corpus.*1) :: W ++ [(key_funcs, VFuncs funcList)] /\
    (forall kv, kv ∈ W ->
       isFuncRecord kv \/
       exists host files, (host, Some files) ∈ corpus /\ kv ∈ hostRecords ord host files) /\
    (forall host files kv,
       (host, Some files) ∈ corpus -> kv ∈ hostRecords ord host files -> kv ∈ W).
Proof.
  unfold runIndex.
  destruct (hosts_fold numWorkers corpus (Put [] key_hosts (VHosts (map fst corpus))) ∅)
    as (W & E & H1 & H2).
  destruct (foldl _ _ corpus) as [db allFuncs]. cbn [fst] in E. subst db.
  exists W, (SortStrings (rangeSet ord 444 allFuncs)). split; [done|]. by split.
Qed.

(** A data record of the log is a record of one of the hosts. *)
Lemma runIndex_data corpus numWorkers key v :
  (key, v) ∈ runIndex ord corpus numWorkers ->
  match v with VSeries _ | VChildren _ | VStats _ _ => True | _ => False end ->
  exists host files, (host, Some files) ∈ corpus /\ (key, v) ∈ hostRecords ord host files.
Proof.
  destruct (runIndex_log corpus numWorkers) as (W & fl & -> & H1 & _).
  rewrite elem_of_cons, elem_of_app, list_elem_of_singleton.
  intros [[= -> ->]|[Hkv|[= -> ->]]] Hv; try done.
  destruct (H1 _ Hkv) as [(f & fi & [= -> ->])|H]; done.
Qed.

Lemma runIndex_host corpus numWorkers host files kv :
  (host, Some files) ∈ corpus -> kv ∈ hostRecords ord host files ->
  kv ∈ runIndex ord corpus numWorkers.
Proof.
  destruct (runIndex_log corpus numWorkers) as (W & fl & -> & _ & H2).
  intros Hh Hkv. rewrite elem_of_cons, elem_of_app. right; left. by eapply H2.
Qed.

Lemma series_record host files key s :
  (key, VSeries s) ∈ hostRecords ord host files ->
  exists goroID, key = key_g host goroID /\ hostSeries ord files !! goroID = Some s.
Proof.
  unfold hostRecords, seriesRecords, childRecords, statsRecord.
  rewrite !elem_of_app, !list_elem_of_fmap, list_elem_of_singleton.
  intros [([id s'] & [= -> ->] & H)|[(x & [= ] & _)| [= ]]].
  exists id. split; [done|]. by eapply elem_of_rangeZ.
Qed.

Lemma series_record_intro host files goroID s :
  hostSeries ord files !! goroID = Some s ->
  (key_g host goroID, VSeries s) ∈ hostRecords ord host files.
Proof.
  intros H. unfold hostRecords, seriesRecords. rewrite elem_of_app. left.
  apply list_elem_of_fmap. exists (goroID, s). split; [done|].
  by eapply elem_of_rangeZ.
Qed.

Lemma children_record host files key children :
  (key, VChildren children) ∈ hostRecords ord host files ->
  exists parentID, key = key_c host parentID /\
    buildChildren ord (hostSeries ord files) !! parentID = Some children.
Proof.
  unfold hostRecords, seriesRecords, childRecords, statsRecord.
  rewrite !elem_of_app, !list_elem_of_fmap, list_elem_of_singleton.
  intros [(x & [= ] & _)|[([p cl] & [= -> ->] & H)| [= ]]].
  exists p. split; [done|]. by eapply elem_of_rangeZ.
Qed.

Lemma stats_record host files key ts cs :
  (key, VStats ts cs) ∈ hostRecords ord host files ->
  key = key_s host /\
  ts = map (fun r => Unix (timestamp r)) (hostResults ord files) /\
  cs = map (fun r => size (goros r)) (hostResults ord files).
Proof.
  unfold hostRecords, seriesRecords, childRecords, statsRecord.
  rewrite !elem_of_app, !list_elem_of_fmap, list_elem_of_singleton.
  intros [(x & [= ] & _)|[(x & [= ] & _)| [= -> -> ->]]].
  unfold buildSeries.
  by destruct (buildSeries_stats (mkPass1 ∅ [] []) (hostResults ord files)) as [-> ->].
Qed.

Lemma stats_record_intro host files : statsRecord ord host files ∈ hostRecords ord host files.
Proof. unfold hostRecords. rewrite !elem_of_app, list_elem_of_singleton. auto. Qed.

(** ** C5: time series *)

(** C5: the timestamps of every persisted series are in non-decreasing
    order and the series has one entry per parsed dump of its host that
    holds the goroutine; every goroutine that some dump holds has its
    series persisted. *)
Theorem series_sorted_one_entry_per_dump corpus numWorkers :
  (forall key s, (key, VSeries s) ∈ runIndex ord corpus numWorkers ->
     exists host files goroID,
       (host, Some files) ∈ corpus /\ key = key_g host goroID /\
       Sorted Z.le (map Timestamp (Entries s)) /\
       length (Entries s) = length (filter (appearsIn goroID) (collect files))) /\
  (forall host files goroID,
     (host, Some files) ∈ corpus -> Exists (appearsIn goroID) (collect files) ->
     exists s, (key_g host goroID, VSeries s) ∈ runIndex ord corpus numWorkers /\
       Sorted Z.le (map Timestamp (Entries s)) /\
       length (Entries s) = length (filter (appearsIn goroID) (collect files))).
Proof.
  split.
  - intros key s Hin.
    apply runIndex_data in Hin as (host & files & Hh & Hin); [|done].
    apply series_record in Hin as (goroID & -> & Hs).
    exists host, files, goroID. split; [done|]. split; [done|].
    rewrite <- (entriesOf_lookup _ _ _ Hs). apply hostSeries_shape.
  - intros host files goroID Hh Hex.
    destruct (hostSeries_shape files goroID) as [Hsorted Hlen].
    destruct (entriesOf_Some (hostSeries ord files) goroID) as (s & Hs & Es).
    { intros E. rewrite E in Hlen. cbn in Hlen.
      apply Exists_exists in Hex as (r & Hr & Ha).
      assert (r ∈ filter (appearsIn goroID) (collect files)) as Hf
        by by apply list_elem_of_filter.
      destruct (filter _ _); [by apply elem_of_nil in Hf|done]. }
    exists s. rewrite Es. split; [|done].
    eapply runIndex_host; [done|]. by apply series_record_intro.
Qed.

(** ** C8: snapshot counts *)

Lemma parseSnapshotFile_parsed f : is_Some (parseSnapshotFile f) <-> parsed f.
Proof.
  unfold parseSnapshotFile, parsed. destruct (stamp f), (content f); split;
    intros H; try done; try (by destruct H as [[] []]); by destruct H.
Qed.

Lemma collect_length files : length (collect files) = length (filter parsed files).
Proof.
  unfold collect. rewrite length_omap_filter. f_equal.
  apply list_filter_iff. intros f. apply parseSnapshotFile_parsed.
Qed.

Lemma timestamps_sorted rs :
  StronglySorted byTime rs -> Sorted Z.le (map (fun r => Unix (timestamp r)) rs).
Proof.
  intros H. apply StronglySorted_Sorted.
  induction H as [|r rs Hs IH Hr]; [constructor|]. cbn. constructor; [done|].
  apply Forall_forall. intros t (r' & -> & Hr')%list_elem_of_fmap.
  rewrite Forall_forall in Hr. by apply Unix_mono, Hr.
Qed.

(** C8: the stats record of a host holds as many timestamps as counts, one
    pair per parsed dump file, with the timestamps in ascending order
    (equal ones allowed) and each count the size of the map of that dump;
    every host with a file list gets its record. *)
Theorem stats_one_pair_per_dump corpus numWorkers :
  (forall key ts cs, (key, VStats ts cs) ∈ runIndex ord corpus numWorkers ->
     exists host files rs,
       (host, Some files) ∈ corpus /\ key = key_s host /\
       length ts = length cs /\ length ts = length (filter parsed files) /\
       Sorted Z.le ts /\ rs ≡ₚ collect files /\
       ts = map (fun r => Unix (timestamp r)) rs /\
       cs = map (fun r => size (goros r)) rs) /\
  (forall host files, (host, Some files) ∈ corpus ->
     exists ts cs, (key_s host, VStats ts cs) ∈ runIndex ord corpus numWorkers).
Proof.
  split.
  - intros key ts cs Hin.
    apply runIndex_data in Hin as (host & files & Hh & Hin); [|done].
    apply stats_record in Hin as (-> & -> & ->).
    exists host, files, (hostResults ord files).
    rewrite !length_map. repeat split; try done.
    + by rewrite hostResults_perm, collect_length.
    + apply timestamps_sorted, hostResults_sorted.
    + apply hostResults_perm.
  - intros host files Hh. eexists _, _. eapply runIndex_host; [done|].
    apply stats_record_intro.
Qed.

(** ** Keys *)

Lemma bytes_inj s1 s2 : bytes s1 = bytes s2 -> s1 = s2.
Proof.
  unfold bytes. intros H. apply (f_equal string_of_list_ascii) in H.
  by rewrite !string_of_list_ascii_of_string in H.
Qed.

Lemma to_int_not_nil n :
  Z.to_int n <> Decimal.Pos Decimal.Nil /\ Z.to_int n <> Decimal.Neg Decimal.Nil.
Proof.
  destruct n as [|p|p]; cbn; split; try done;
    intros [= H]; by apply Unsigned.to_uint_nonnil in H.
Qed.

Lemma itoa_inj a b : itoa a = itoa b -> a = b.
Proof.
  unfold itoa. intros H%bytes_inj. apply (f_equal NilZero.int_of_string) in H.
  destruct (to_int_not_nil a), (to_int_not_nil b).
  rewrite !NilZero.isi in H by done. injection H as H. by apply to_int_inj.
Qed.

Lemma uint_no_colon d : ":"%char ∉ bytes (NilEmpty.string_of_uint d).
Proof.
  induction d; cbn; [apply not_elem_of_nil|..];
    (apply not_elem_of_cons; split; [done|apply IHd]).
Qed.

Lemma itoa_no_colon n : ":"%char ∉ itoa n.
Proof.
  unfold itoa, NilZero.string_of_int, NilZero.string_of_uint.
  assert (forall d, ":"%char ∉ bytes
            match d with Decimal.Nil => "0"%string | _ => NilEmpty.string_of_uint d end) as H.
  { intros d. destruct d; try apply uint_no_colon.
    cbn. apply not_elem_of_cons. split; [done|apply not_elem_of_nil]. }
  destruct (Z.to_int n) as [d|d]; [apply H|].
  cbn [bytes list_ascii_of_string]. apply not_elem_of_cons. split; [done|apply H].
Qed.

Lemma split_last_colon (h1 h2 a1 a2 : str) :
  ":"%char ∉ a1 -> ":"%char ∉ a2 ->
  h1 ++ ":"%char :: a1 = h2 ++ ":"%char :: a2 -> h1 = h2 /\ a1 = a2.
Proof.
  intros H1 H2. revert h2. induction h1 as [|c h1 IH]; intros [|c' h2]; cbn.
  - by intros [= ->].
  - intros [= <- ->]. destruct H1. apply elem_of_app. right. by left.
  - intros [= -> <-]. destruct H2. apply elem_of_app. right. by left.
  - intros [= -> H]. by destruct (IH _ H) as [-> ->].
Qed.

Lemma key_g_inj h1 i1 h2 i2 : key_g h1 i1 = key_g h2 i2 -> h1 = h2 /\ i1 = i2.
Proof.
  unfold key_g. cbn [bytes list_ascii_of_string app]. intros [= H].
  apply split_last_colon in H as [-> H]; [|apply itoa_no_colon..].
  by apply itoa_inj in H as ->.
Qed.

Lemma Get_Some db key v : Get db key = Some v -> (key, v) ∈ db.
Proof.
  induction db as [|[k v0] db IH]; cbn; [done|].
  destruct (Get db key) as [v'|].
  - intros [= ->]. right. by apply IH.
  - destruct (decide (k = key)) as [->|]; [|done]. intros [= ->]. by left.
Qed.

Lemma Get_None db key v : Get db key = None -> (key, v) ∉ db.
Proof.
  induction db as [|[k v0] db IH]; cbn; [intros _; apply not_elem_of_nil|].
  destruct (Get db key) as [v'|]; [done|].
  destruct (decide (k = key)) as [->|Hne]; [done|]. intros _.
  apply not_elem_of_cons. split; [congruence|by apply IH].
Qed.

Lemma Get_unique db key v :
  (key, v) ∈ db -> (forall v', (key, v') ∈ db -> v' = v) -> Get db key = Some v.
Proof.
  intros Hin Hu. destruct (Get db key) as [v'|] eqn:E.
  - f_equal. by apply Hu, Get_Some.
  - by apply (Get_None _ _ v) in E.
Qed.

Lemma NoDup_fst_unique {A B} (l : list (A * B)) x y1 y2 :
  NoDup l.*1 -> (x, y1) ∈ l -> (x, y2) ∈ l -> y1 = y2.
Proof.
  induction l as [|[a b] l IH]; [by intros _ ?%elem_of_nil|].
  cbn. intros [Ha Hnd]%NoDup_cons [[= -> ->]|H1]%elem_of_cons [[= ->]|H2]%elem_of_cons;
    try done; try by apply IH.
  - destruct Ha. apply list_elem_of_fmap. by exists (a, y2).
  - subst. destruct Ha. apply list_elem_of_fmap. by exists (a, y1).
Qed.

(** With one directory per host, the series of a goroutine is what the
    store returns under its key after the rebuild. *)
Lemma runIndex_Get_series corpus numWorkers host files goroID s :
  NoDup corpus.*1 -> (host, Some files) ∈ corpus ->
  hostSeries ord files !! goroID = Some s ->
  Get (runIndex ord corpus numWorkers) (key_g host goroID) = Some (VSeries s).
Proof.
  intros Hnd Hh Hs. apply Get_unique.
  - eapply runIndex_host; [done|]. by apply series_record_intro.
  - intros v' Hin.
    destruct (runIndex_log corpus numWorkers) as (W & fl & E & H1 & _).
    rewrite E in Hin. clear E.
    rewrite elem_of_cons, elem_of_app, list_elem_of_singleton in Hin.
    destruct Hin as [[= ]|[Hin|[= ]]].
    destruct (H1 _ Hin) as [(f & fi & [= ])|(h' & fs' & Hh' & Hr)].
    unfold hostRecords, seriesRecords, childRecords, statsRecord in Hr.
    rewrite !elem_of_app, !list_elem_of_fmap, list_elem_of_singleton in Hr.
    destruct Hr as [([id s'] & [Hk ->]%pair_equal_spec & Hm)|[(x & [= ] & _)| [= ]]].
    cbn [fst snd] in *. apply key_g_inj in Hk as [<- <-].
    pose proof (NoDup_fst_unique _ _ _ _ Hnd Hh Hh') as [= <-].
    apply elem_of_rangeZ in Hm. congruence.
Qed.

(** ** C6 and C1: the children index *)

Lemma child_origin corpus numWorkers key children child :
  NoDup corpus.*1 ->
  (key, VChildren children) ∈ runIndex ord corpus numWorkers -> child ∈ children ->
  exists host parentID s pre e post,
    key = key_c host parentID /\ parentID <> 0%Z /\
    Get (runIndex ord corpus numWorkers) (key_g host (ID child)) = Some (VSeries s) /\
    Entries s = pre ++ e :: post /\ Forall (fun x => CreatedBy x = 0%Z) pre /\
    CreatedBy e = parentID /\ Funcs child = extractFirstTwoFuncs (Stack e).
Proof.
  intros Hnd Hin Hc.
  apply runIndex_data in Hin as (host & files & Hh & Hin); [|done].
  apply children_record in Hin as (parentID & -> & Hl).
  apply buildChildren_lookup in Hl as ->.
  apply list_elem_of_omap in Hc as ([id s] & Hm & Hc).
  apply childOf_spec in Hc as (<- & Hp & pre & e & post & E & Hpre & He & Hf).
  apply elem_of_rangeZ in Hm.
  exists host, parentID, s, pre, e, post. repeat split; try done.
  by eapply runIndex_Get_series.
Qed.

(** C6: in every children list no child occurs twice, and the series
    stored under the key of each child holds an entry that names the
    parent of the list. *)
Theorem children_symmetry corpus numWorkers key children :
  NoDup corpus.*1 ->
  (key, VChildren children) ∈ runIndex ord corpus numWorkers ->
  exists host parentID,
    key = key_c host parentID /\ NoDup (map ID children) /\
    forall child, child ∈ children ->
      exists s e,
        Get (runIndex ord corpus numWorkers) (key_g host (ID child)) = Some (VSeries s) /\
        e ∈ Entries s /\ CreatedBy e = parentID.
Proof.
  intros Hnd Hin. pose proof Hin as Hin'.
  apply runIndex_data in Hin' as (host & files & Hh & Hin'); [|done].
  apply children_record in Hin' as (parentID & -> & Hl).
  exists host, parentID. split; [done|]. split.
  - apply buildChildren_lookup in Hl as ->.
    apply children_NoDup, NoDup_rangeZ.
  - intros child Hc.
    destruct (child_origin _ _ _ _ _ Hnd Hin Hc)
      as (h' & p' & s & pre & e & post & Hk & _ & Hg & E & _ & He & _).
    assert (h' = host /\ p' = parentID) as [-> ->].
    { unfold key_c in Hk. cbn [bytes list_ascii_of_string app] in Hk.
      injection Hk as Hk.
      apply split_last_colon in Hk as [-> Hk]; [|apply itoa_no_colon..].
      by apply itoa_inj in Hk as ->. }
    exists s, e. split; [done|]. split; [|done].
    rewrite E. apply elem_of_app. right. by left.
Qed.


(** ** C7: merging the function index *)

Lemma existingIndex_host db host files funcName :
  existingIndex (db ++ hostRecords ord host files) (key_f funcName)
  = existingIndex db (key_f funcName).
Proof.
  unfold existingIndex. rewrite Get_app, Get_absent; [done|].
  intros (kv & E & Hkv)%list_elem_of_fmap.
  by apply (hostRecords_key _ _ _ funcName) in Hkv.
Qed.

Lemma funcIndex_merge db host files numWorkers funcName :
  existingIndex (processHost ord db host (Some files) numWorkers).1 (key_f funcName)
  = existingIndex db (key_f funcName)
    ++ (rangeZ ord 758 (default ∅ (hostFuncs ord host numWorkers files !! funcName))).*2.
Proof.
  rewrite processHost_spec. unfold mergeFuncs.
  rewrite mergeFuncs_index by apply NoDup_rangeS.
  rewrite existingIndex_host. f_equal.
  rewrite <- (list_find_key (hostFuncs ord host numWorkers files)
                (rangeS ord 745 (hostFuncs ord host numWorkers files)) funcName)
    by apply (rangeS_perm _ Hfair).
  destruct (list_find _ _) as [[i [k gm]]|]; [done|].
  cbn. by rewrite rangeZ_empty.
Qed.

(** ** C3: order of the writes *)

(** C3 fails on the code: the host list is the first write of every
    rebuild, the records of all hosts follow it, and only the function
    list comes last. *)
Theorem hosts_written_first corpus numWorkers :
  exists W funcList,
    runIndex ord corpus numWorkers
    = (key_hosts, VHosts corpus.*1) :: W ++ [(key_funcs, VFuncs funcList)] /\
    forall host files, (host, Some files) ∈ corpus ->
      forall kv, kv ∈ hostRecords ord host files -> kv ∈ W.
Proof.
  destruct (runIndex_log corpus numWorkers) as (W & fl & E & _ & H).
  exists W, fl. split; [done|]. intros host files Hh kv Hkv. by eapply H.
Qed.

(** ** The second pass *)

Lemma lookupOcc_setOcc m f i o funcName id :
  lookupOcc (setOcc m f i o) funcName id =
  if decide (f = funcName /\ i = id) then Some o else lookupOcc m funcName id.
Proof.
  unfold lookupOcc, setOcc. destruct (decide (f = funcName)) as [->|Hf].
  - rewrite lookup_insert_eq. cbn. destruct (decide (i = id)) as [->|Hi].
    + rewrite lookup_insert_eq. by rewrite decide_True.
    + rewrite lookup_insert_ne by done. rewrite decide_False by (by intros [? ?]).
      by destruct (m !! funcName).
  - rewrite lookup_insert_ne by done. by rewrite decide_False by (by intros [? ?]).
Qed.

Lemma setOcc_names m fns i o funcName id :
  lookupOcc (foldl (fun m f => setOcc m f i o) m fns) funcName id =
  if decide (i = id /\ funcName ∈ fns) then Some o else lookupOcc m funcName id.
Proof.
  revert m. induction fns as [|f fns IH]; intros m; cbn [foldl].
  - rewrite decide_False; [done|]. by intros [_ ?%elem_of_nil].
  - rewrite IH, lookupOcc_setOcc.
    destruct (decide (i = id)) as [->|Hi].
    + destruct (decide (funcName ∈ fns)) as [Hin|Hin].
      * rewrite !decide_True; [done|split; [done|by right]|done].
      * rewrite (decide_False (P := _ /\ funcName ∈ fns)) by (by intros [? ?]).
        destruct (decide (f = funcName)) as [->|Hf].
        -- rewrite !decide_True; [done|split; [done|by left]|done].
        -- rewrite !decide_False; [done| |by intros [? ?]].
           intros [_ [?|?]%elem_of_cons]; done.
    + rewrite !decide_False; [done|by intros [? ?]..].
Qed.

Lemma workerStep_lookup host series m id0 funcName id :
  lookupOcc (workerStep ord host series m id0) funcName id =
  if decide (id0 = id /\ funcName ∈ seriesFuncs (entriesOf series id0))
  then Some (occOf host series id0) else lookupOcc m funcName id.
Proof.
  unfold workerStep. destruct (entriesOf series id0) as [|e es] eqn:E.
  - rewrite decide_False; [done|]. by intros [_ ?%elem_of_empty].
  - rewrite setOcc_names. unfold occOf. rewrite E.
    apply decide_ext. by rewrite elem_of_rangeSet.
Qed.

Lemma worker_lookup host series ids m funcName id :
  lookupOcc (foldl (workerStep ord host series) m ids) funcName id =
  if decide (id ∈ ids /\ funcName ∈ seriesFuncs (entriesOf series id))
  then Some (occOf host series id) else lookupOcc m funcName id.
Proof.
  revert m. induction ids as [|id0 ids IH]; intros m; cbn [foldl].
  - rewrite decide_False; [done|]. by intros [?%elem_of_nil _].
  - rewrite IH, workerStep_lookup.
    destruct (decide (id ∈ ids /\ _)) as [[H1 H2]|Hn].
    + rewrite decide_True; [done|]. split; [by right|done].
    + destruct (decide (id0 = id /\ _)) as [[-> H2]|Hn'].
      * rewrite decide_True; [done|]. split; [by left|done].
      * rewrite decide_False; [done|].
        intros [[->|?]%elem_of_cons ?]; [by apply Hn'|by apply Hn].
Qed.

Lemma worker_results host series ids r :
  r ∈ worker ord host series ids <->
  goroID r ∈ ids /\ fn r ∈ seriesFuncs (entriesOf series (goroID r)) /\
  occ r = occOf host series (goroID r).
Proof.
  unfold worker. rewrite list_elem_of_In, in_flat_map.
  pose proof (worker_lookup host series ids ∅ (fn r) (goroID r)) as Hl.
  set (lm := foldl (workerStep ord host series) ∅ ids) in *.
  split.
  - intros ([f gm] & Hf & Hr). apply list_elem_of_In, elem_of_rangeS in Hf.
    apply in_map_iff in Hr as ([i o] & <- & Hi).
    apply list_elem_of_In, elem_of_rangeZ in Hi. cbn [fn goroID occ] in *.
    unfold lookupOcc in Hl at 1. rewrite Hf in Hl. cbn in Hl. rewrite Hi in Hl.
    destruct (decide _) as [[? ?]|]; [by injection Hl as ->|done].
  - intros (H1 & H2 & H3). rewrite decide_True in Hl by done.
    unfold lookupOcc in Hl. destruct (lm !! fn r) as [gm|] eqn:Ef; [|done].
    cbn in Hl. exists (fn r, gm). split.
    + by apply list_elem_of_In, elem_of_rangeS.
    + apply in_map_iff. exists (goroID r, occ r). split; [by destruct r|].
      apply list_elem_of_In, elem_of_rangeZ. by rewrite H3.
Qed.

Lemma merge_lookup (g : Z -> FuncOccurrence) rs m funcName id :
  (forall r, r ∈ rs -> occ r = g (goroID r)) ->
  lookupOcc (foldl (fun m r => setOcc m (fn r) (goroID r) (occ r)) m rs) funcName id =
  if decide (Exists (fun r => fn r = funcName /\ goroID r = id) rs)
  then Some (g id) else lookupOcc m funcName id.
Proof.
  revert m. induction rs as [|r rs IH]; intros m Hg; cbn [foldl].
  - rewrite decide_False; [done|]. by intros ?%Exists_nil.
  - rewrite IH by (intros; apply Hg; by right). rewrite lookupOcc_setOcc.
    destruct (decide (Exists _ rs)) as [He|Hn].
    + rewrite decide_True; [done|]. by apply Exists_cons_tl.
    + destruct (decide (fn r = funcName /\ goroID r = id)) as [[E1 E2]|Hn'].
      * rewrite decide_True by (by apply Exists_cons_hd).
        rewrite Hg by by left. by rewrite E2.
      * rewrite decide_False; [done|]. by intros [?|?]%Exists_cons.
Qed.

(** The slices cover the list of ids, in order. *)
Lemma chunks_concat n (ids : list Z) : 0 < n -> concat (chunks n ids) = ids.
Proof.
  intros Hn. unfold chunks.
  set (L := length ids). set (c := (L + n - 1) / n).
  assert (L <= n * c) as Hc.
  { unfold c. pose proof (Nat.div_mod_eq (L + n - 1) n).
    pose proof (Nat.mod_upper_bound (L + n - 1) n). nia. }
  assert (forall k, concat (omap (fun i =>
            let start := i * c in
            if L <=? start then None
            else Some (take (Nat.min (start + c) L - start) (drop start ids)))
            (seq 0 k)) = take (k * c) ids) as H.
  { induction k as [|k IH]; [done|].
    rewrite seq_S, omap_app, concat_app, IH. cbn [omap list_omap].
    cbv zeta. cbn [Nat.add]. destruct (Nat.leb_spec L (k * c)).
    - cbn. rewrite app_nil_r, !take_ge; [done|unfold L in *; nia|unfold L in *; lia].
    - cbn. rewrite app_nil_r.
      assert (take (Nat.min (k * c + c) L - k * c) (drop (k * c) ids)
              = take c (drop (k * c) ids)) as ->.
      { destruct (Nat.le_ge_cases (k * c + c) L).
        - f_equal. lia.
        - rewrite !take_ge; [done|rewrite length_drop; unfold L in *; lia..]. }
      rewrite take_take_drop. f_equal. lia. }
  rewrite H, take_ge; [done|]. unfold L in *. lia.
Qed.

(** The occurrences of a host: one for every goroutine and every function
    name of its stacks. *)
Lemma buildFuncOccurrences_spec host numWorkers series funcName id :
  lookupOcc (buildFuncOccurrences ord host numWorkers series) funcName id =
  if decide (funcName ∈ seriesFuncs (entriesOf series id))
  then Some (occOf host series id) else None.
Proof.
  unfold buildFuncOccurrences.
  set (ids := map fst (rangeZ ord 563 series)).
  assert (forall r,
            r ∈ concat (recv ord 644 (map (worker ord host series)
                                          (chunks (Pos.to_nat numWorkers) ids))) <->
            exists ch, ch ∈ chunks (Pos.to_nat numWorkers) ids /\
                       r ∈ worker ord host series ch) as Hres.
  { intros r. rewrite list_elem_of_In, in_concat. split.
    - intros (l & Hl & Hr). apply list_elem_of_In, elem_of_recv in Hl.
      apply list_elem_of_In, in_map_iff in Hl as (ch & <- & Hch).
      exists ch. by rewrite !list_elem_of_In.
    - intros (ch & Hch & Hr). exists (worker ord host series ch).
      rewrite <- !list_elem_of_In, elem_of_recv. split; [|done].
      apply list_elem_of_In, in_map. by apply list_elem_of_In. }
  rewrite (merge_lookup (occOf host series)).
  - apply decide_ext. split.
    + intros (r & Hr & <- & <-)%Exists_exists.
      apply Hres in Hr as (ch & _ & Hr).
      by apply worker_results in Hr as (_ & ? & _).
    + intros Hf. apply Exists_exists.
      exists (mkFuncOcc funcName id (occOf host series id)). split; [|done].
      assert (id ∈ ids) as Hid.
      { destruct (series !! id) as [s|] eqn:E.
        - apply list_elem_of_fmap. exists (id, s).
          split; [done|by apply elem_of_rangeZ].
        - unfold entriesOf in Hf. rewrite E in Hf. by apply elem_of_empty in Hf. }
      rewrite <- (chunks_concat (Pos.to_nat numWorkers) ids) in Hid by lia.
      apply list_elem_of_In, in_concat in Hid as (ch & Hch & Hid).
      apply Hres. exists ch. split; [by apply list_elem_of_In|].
      apply worker_results. split; [by apply list_elem_of_In|done].
  - intros r (ch & _ & Hr)%Hres.
    by apply worker_results in Hr as (_ & _ & ?).
Qed.

Lemma hostFuncs_lookup host numWorkers files funcName id :
  default ∅ (hostFuncs ord host numWorkers files !! funcName) !! id =
  if decide (funcName ∈ seriesFuncs (entriesOf (hostSeries ord files) id))
  then Some (occOf host (hostSeries ord files) id) else None.
Proof.
  rewrite <- buildFuncOccurrences_spec with (numWorkers := numWorkers).
  unfold lookupOcc, hostFuncs. by destruct (_ !! funcName).
Qed.

(** ** C7: merging the function index *)

(** C7: after a host is processed the index of every function holds what
    it held before, in the same order, followed by the occurrences of
    this host: one for each goroutine of the host that has the function
    in a stack, and none besides. *)
Theorem funcIndex_merge_keeps_earlier db host files numWorkers funcName :
  exists new,
    existingIndex (processHost ord db host (Some files) numWorkers).1 (key_f funcName)
    = existingIndex db (key_f funcName) ++ new /\
    NoDup (map GoroutineID new) /\
    forall o, o ∈ new <->
      funcName ∈ seriesFuncs (entriesOf (hostSeries ord files) (GoroutineID o)) /\
      o = occOf host (hostSeries ord files) (GoroutineID o).
Proof.
  set (gm := default ∅ (hostFuncs ord host numWorkers files !! funcName)).
  exists (rangeZ ord 758 gm).*2. split; [apply funcIndex_merge|].
  assert (forall id o, gm !! id = Some o ->
            funcName ∈ seriesFuncs (entriesOf (hostSeries ord files) id) /\
            o = occOf host (hostSeries ord files) id) as Hgm.
  { intros id o. unfold gm. rewrite hostFuncs_lookup.
    destruct (decide _); [|done]. by intros [= <-]. }
  split.
  - assert (map GoroutineID (rangeZ ord 758 gm).*2 = (rangeZ ord 758 gm).*1) as ->.
    { rewrite <- list_fmap_compose. apply list_fmap_ext.
      intros i [id o] Hl%list_elem_of_lookup_2%elem_of_rangeZ.
      by apply Hgm in Hl as [_ ->]. }
    apply NoDup_rangeZ.
  - intros o. split.
    + intros ([id o'] & -> & Hl%elem_of_rangeZ)%list_elem_of_fmap.
      apply Hgm in Hl as [? ->]. by cbn.
    + intros [Hf Ho]. apply list_elem_of_fmap. exists (GoroutineID o, o).
      split; [done|]. apply elem_of_rangeZ. unfold gm.
      rewrite hostFuncs_lookup, decide_True by done. by rewrite <- Ho.
Qed.

(** ** Which keys a rebuild writes *)

Lemma hostSeries_elem files id e :
  e ∈ entriesOf (hostSeries ord files) id <->
  exists r g, r ∈ collect files /\ goros r !! id = Some g /\
              e = newEntry (Unix (timestamp r)) g.
Proof.
  rewrite hostSeries_entries, list_elem_of_omap. split.
  - intros (r & Hr & He). rewrite hostResults_perm in Hr.
    destruct (goros r !! id) as [g|] eqn:E; [|done]. injection He as <-. eauto.
  - intros (r & g & Hr & Hg & ->). exists r. rewrite hostResults_perm.
    split; [done|]. by rewrite Hg.
Qed.

Lemma findParent_only entries p :
  p <> 0%Z ->
  Forall (fun e => CreatedBy e = 0%Z \/ CreatedBy e = p) entries ->
  Exists (fun e => CreatedBy e = p) entries ->
  exists funcs, findParent entries = (p, funcs).
Proof.
  intros Hp. induction entries as [|e entries IH]; intros Hall Hex.
  - by apply Exists_nil in Hex.
  - apply Forall_cons in Hall as [He Hall]. cbn [findParent].
    destruct (Z.eqb_spec (CreatedBy e) 0) as [E|E]; cbn [negb].
    + apply IH; [done|]. apply Exists_cons in Hex as [Hex|Hex]; [congruence|done].
    + destruct He as [He|He]; [done|]. rewrite He. eauto.
Qed.

(** A goroutine whose entries name [p], and no other parent, puts a
    children list of [p] into the records of its host. *)
Lemma children_key_intro host files id p :
  p <> 0%Z ->
  Forall (fun e => CreatedBy e = 0%Z \/ CreatedBy e = p)
         (entriesOf (hostSeries ord files) id) ->
  Exists (fun e => CreatedBy e = p) (entriesOf (hostSeries ord files) id) ->
  key_c host p ∈ (hostRecords ord host files).*1.
Proof.
  intros Hp Hall Hex.
  destruct (findParent_only _ _ Hp Hall Hex) as (funcs & Hf).
  destruct (entriesOf_Some (hostSeries ord files) id) as (s & Hs & Es).
  { intros E. rewrite E in Hex. by apply Exists_nil in Hex. }
  rewrite <- Es in Hf.
  assert (is_Some (childOf p (id, s))) as [child Hc].
  { unfold childOf. cbn [fst snd]. destruct (Entries s) as [|e es] eqn:E.
    - rewrite <- Es in Hex. by apply Exists_nil in Hex.
    - rewrite Hf. destruct (Z.eqb_spec p 0); [done|]. by rewrite decide_True. }
  pose proof (buildChildren_fold (rangeZ ord 689 (hostSeries ord files)) ∅ p) as E.
  change (foldl childStep ∅ (rangeZ ord 689 (hostSeries ord files)))
    with (buildChildren ord (hostSeries ord files)) in E.
  destruct (buildChildren ord (hostSeries ord files) !! p) as [children|] eqn:Eb.
  - apply list_elem_of_fmap. exists (key_c host p, VChildren children).
    split; [done|]. unfold hostRecords, childRecords.
    rewrite !elem_of_app. right; left.
    apply list_elem_of_fmap. exists (p, children). split; [done|].
    by apply elem_of_rangeZ.
  - exfalso. rewrite lookup_empty in E. cbn in E.
    assert (child ∈ omap (childOf p) (rangeZ ord 689 (hostSeries ord files))) as Hin.
    { apply list_elem_of_omap. exists (id, s). split; [|done]. by apply elem_of_rangeZ. }
    rewrite <- E in Hin. by apply elem_of_nil in Hin.
Qed.

(** No series is written for a goroutine that no dump of the host holds. *)
Lemma series_key_absent corpus numWorkers host id :
  (forall files, (host, Some files) ∈ corpus ->
     Forall (fun r => goros r !! id = None) (collect files)) ->
  key_g host id ∉ (runIndex ord corpus numWorkers).*1.
Proof.
  intros Hnone ([k v] & Hk & Hin)%list_elem_of_fmap. cbn [fst] in Hk. subst k.
  destruct (runIndex_log corpus numWorkers) as (W & fl & E & H1 & _).
  rewrite E in Hin. clear E.
  rewrite elem_of_cons, elem_of_app, list_elem_of_singleton in Hin.
  destruct Hin as [[= ]|[Hin|[= ]]].
  destruct (H1 _ Hin) as [(f & fi & [= ])|(h' & fs' & Hh' & Hr)].
  unfold hostRecords, seriesRecords, childRecords, statsRecord in Hr.
  rewrite !elem_of_app, !list_elem_of_fmap, list_elem_of_singleton in Hr.
  destruct Hr as [([id' s'] & [Hk ->]%pair_equal_spec & Hm)|[(x & [= ] & _)| [= ]]].
  cbn [fst snd] in *. apply key_g_inj in Hk as [-> ->].
  apply elem_of_rangeZ in Hm.
  pose proof (buildSeries_nonEmpty (hostResults ord fs') _ _ Hm) as Hne.
  destruct (Entries s') as [|e es] eqn:Ee; [done|].
  assert (e ∈ entriesOf (hostSeries ord fs') id') as He.
  { rewrite (entriesOf_lookup _ _ _ Hm), Ee. by left. }
  apply hostSeries_elem in He as (r & g & Hr & Hg & _).
  specialize (Hnone _ Hh'). rewrite Forall_forall in Hnone.
  specialize (Hnone _ Hr). congruence.
Qed.

End Ordered.

(** ** Runs on the sample dumps *)

Lemma mapOrder_fair : fair mapOrder.
Proof. by split. Qed.

Lemma children_symmetry_witness :
  NoDup sampleCorpus.*1 /\
  (key_c (bytes "h") 1, VChildren [mkChild 7 (bytes "main.late -> main.spawn") 1000 2000])
    ∈ runIndex mapOrder sampleCorpus 1 /\
  exists host parentID,
    key_c (bytes "h") 1 = key_c host parentID /\
    NoDup (map ID [mkChild 7 (bytes "main.late -> main.spawn") 1000 2000]) /\
    forall child, child ∈ [mkChild 7 (bytes "main.late -> main.spawn") 1000 2000] ->
      exists s e,
        Get (runIndex mapOrder sampleCorpus 1) (key_g host (ID child)) = Some (VSeries s) /\
        e ∈ Entries s /\ CreatedBy e = parentID.
Proof.
  assert (NoDup sampleCorpus.*1) as Hnd by (repeat constructor; by intros ?%elem_of_nil).
  assert ((key_c (bytes "h") 1,
           VChildren [mkChild 7 (bytes "main.late -> main.spawn") 1000 2000])
            ∈ runIndex mapOrder sampleCorpus 1) as Hin by (apply Get_Some; by vm_compute).
  split; [done|]. split; [done|].
  exact (children_symmetry mapOrder mapOrder_fair sampleCorpus 1 _ _ Hnd Hin).
Defined.



Lemma funcIndex_two_hosts :
  existingIndex (runIndex mapOrder twoHosts 2) (key_f (bytes "pkg.Handle"))
  = [mkOcc (bytes "a") 1 1000 1000; mkOcc (bytes "b") 1 1060 1060].
Proof. by vm_compute. Qed.

(** The keys of a rebuild of one host with two dumps, in the order of
    the writes. *)
Lemma hosts_written_first_sample :
  let keys := (runIndex mapOrder sampleCorpus 1).*1 in
  keys !! 0 = Some (bytes "m:hosts") /\
  keys !! 1 = Some (bytes "g:h:7") /\
  keys !! 2 = Some (bytes "c:h:1") /\
  keys !! 3 = Some (bytes "s:h") /\
  last keys = Some (bytes "m:funcs") /\
  length keys = 8.
Proof. by vm_compute. Qed.

Lemma series_sorted_one_entry_per_dump_witness :
  (bytes "h", Some sampleFiles) ∈ sampleCorpus /\
  Exists (appearsIn 7) (collect sampleFiles) /\
  exists s, (key_g (bytes "h") 7, VSeries s) ∈ runIndex mapOrder sampleCorpus 2 /\
    Sorted Z.le (map Timestamp (Entries s)) /\
    length (Entries s) = length (filter (appearsIn 7) (collect sampleFiles)).
Proof.
  assert ((bytes "h", Some sampleFiles) ∈ sampleCorpus) as Hin by (by left).
  assert (Exists (appearsIn 7) (collect sampleFiles)) as Hex.
  { unfold collect, sampleFiles. cbn [omap list_omap parseSnapshotFile stamp content].
    apply Exists_cons_hd. unfold appearsIn. cbn [goros].
    apply (bool_decide_unpack _). by vm_compute. }
  split; [done|]. split; [done|].
  exact (proj2 (series_sorted_one_entry_per_dump mapOrder mapOrder_fair sampleCorpus 2)
           _ _ _ Hin Hex).
Defined.

Lemma stats_one_pair_per_dump_witness :
  (key_s (bytes "h"), VStats [1000; 2000]%Z [1; 1]) ∈ runIndex mapOrder sampleCorpus 2 /\
  exists host files rs,
    (host, Some files) ∈ sampleCorpus /\ key_s (bytes "h") = key_s host /\
    length [1000; 2000]%Z = length [1; 1] /\
    length [1000; 2000]%Z = length (filter parsed files) /\
    Sorted Z.le [1000; 2000]%Z /\ rs ≡ₚ collect files /\
    [1000; 2000]%Z = map (fun r => Unix (timestamp r)) rs /\
    [1; 1] = map (fun r => size (goros r)) rs.
Proof.
  assert ((key_s (bytes "h"), VStats [1000; 2000]%Z [1; 1]) ∈ runIndex mapOrder sampleCorpus 2)
    as Hin by (apply Get_Some; by vm_compute).
  split; [done|].
  exact (proj1 (stats_one_pair_per_dump mapOrder mapOrder_fair sampleCorpus 2) _ _ _ Hin).
Defined.

(** ** C9: children of a goroutine that no dump holds *)

(** C9: there is a corpus in which goroutine 1 is named as a parent and
    is held by no dump of the host, and for which every rebuild writes
    the children list of goroutine 1 but no series for it. *)
Theorem children_of_unobserved_parent :
  exists corpus host files parentID,
    corpus = [(host, Some files)] /\
    Forall (fun r => goros r !! parentID = None) (collect files) /\
    forall ord numWorkers, fair ord ->
      key_c host parentID ∈ (runIndex ord corpus numWorkers).*1 /\
      key_g host parentID ∉ (runIndex ord corpus numWorkers).*1.
Proof.
  exists sampleCorpus, (bytes "h"), sampleFiles, 1%Z.
  assert (Forall (fun r => goros r !! 1%Z = None) (collect sampleFiles)) as Hnone.
  { unfold collect, sampleFiles. cbn [omap list_omap parseSnapshotFile stamp content].
    repeat constructor; by vm_compute. }
  split; [done|]. split; [done|]. intros ord numWorkers Hfair. split.
  - assert (key_c (bytes "h") 1 ∈ (hostRecords ord (bytes "h") sampleFiles).*1) as Hk.
    { apply (children_key_intro ord Hfair _ _ 7%Z); [done|..].
      - apply Forall_forall. intros e (r & g & Hr & Hg & ->)%hostSeries_elem; [|done].
        unfold collect, sampleFiles in Hr.
        cbn [omap list_omap parseSnapshotFile stamp content] in Hr.
        apply elem_of_cons in Hr as [->|Hr].
        + revert Hg. vm_compute. intros [= <-]. by left.
        + apply list_elem_of_singleton in Hr as ->.
          revert Hg. vm_compute. intros [= <-]. by right.
      - apply Exists_exists.
        destruct (parseGoroutines dumpLate !! 7%Z) as [g|] eqn:Eg; [|by vm_compute in Eg].
        exists (newEntry 2000 g). split.
        + apply hostSeries_elem; [done|].
          exists (mkResult 2000000000000 (parseGoroutines dumpLate)), g.
          split; [|done]. unfold collect, sampleFiles.
          cbn [omap list_omap parseSnapshotFile stamp content]. right; by left.
        + revert Eg. vm_compute. by intros [= <-]. }
    apply list_elem_of_fmap in Hk as (kv & -> & Hkv).
    apply list_elem_of_fmap. exists kv. split; [done|].
    eapply runIndex_host; [..|exact Hkv]; try done. by left.
  - apply series_key_absent; [done|].
    by intros files [= ->]%list_elem_of_singleton.
Qed.


Lemma funcIndex_merge_keeps_earlier_witness :
  let files := [mkFile (Some 1060000000000%Z) (Some dumpHandle)] in
  let db := [(key_f (bytes "pkg.Handle"),
              VFuncIndex (mkFuncIndex [mkOcc (bytes "a") 1 1000 1000]))] in
  fair mapOrder /\
  exists new,
    existingIndex (processHost mapOrder db (bytes "b") (Some files) 2).1
                  (key_f (bytes "pkg.Handle"))
    = existingIndex db (key_f (bytes "pkg.Handle")) ++ new /\
    NoDup (map GoroutineID new) /\
    forall o, o ∈ new <->
      bytes "pkg.Handle"
        ∈ seriesFuncs (entriesOf (hostSeries mapOrder files) (GoroutineID o)) /\
      o = occOf (bytes "b") (hostSeries mapOrder files) (GoroutineID o).
Proof.
  split; [exact mapOrder_fair|].
  exact (funcIndex_merge_keeps_earlier mapOrder mapOrder_fair _ (bytes "b") _ 2
           (bytes "pkg.Handle")).
Defined.

End GIndexFacts.

(** ** More on the line normalizer *)
Module NormalizerFacts.
Import Regexp RegexpFacts GCount Strings GCountSpec GCountFacts.

Lemma stripOffset_length s : length (stripOffset s) <= length s.
Proof.
  destruct (stripOffset_prefix s) as [R E]. rewrite E at 2. rewrite length_app. lia.
Qed.

Lemma cleanStackLine_length L : length (cleanStackLine L) <= length L.
Proof.
  rewrite cleanStackLine_steps.
  pose proof (stripPointers_length (stripTask (stripOffset L))).
  pose proof (proj1 (stripTask_length (stripOffset L))).
  pose proof (stripOffset_length L). lia.
Qed.


(** X2: the normalizer leaves a line as it is exactly when the line holds
    no [created by X in goroutine N] and no hex pointer; it never makes
    a line longer. *)
Theorem cleanStackLine_unchanged_iff (L : str) :
  (cleanStackLine L = L <->
   MatchString createdByRe L = false /\ MatchString hexPtrRe L = false) /\
  length (cleanStackLine L) <= length L.
Proof.
  split; [|apply cleanStackLine_length]. split.
  - intros E. assert (MatchString hexPtrRe L = false) as Hp.
    { rewrite <- E, cleanStackLine_steps. apply stripPointers_clean. }
    split; [|done].
    destruct (MatchString createdByRe L) eqn:Hc; [exfalso|done].
    apply (f_equal length) in E. rewrite cleanStackLine_steps in E.
    assert (stripOffset L = L) as Ho.
    { apply ReplaceAll_no_match; [done|]. by apply MatchString_offset_hexPtr. }
    rewrite Ho in E. pose proof (stripPointers_length (stripTask L)).
    destruct (stripTask_length L) as [_ Hlt]. specialize (Hlt Hc). lia.
  - intros [Hc Hp]. rewrite cleanStackLine_steps. unfold stripOffset, stripTask, stripPointers.
    rewrite (ReplaceAll_no_match offsetRe) by auto using MatchString_offset_hexPtr.
    rewrite (ReplaceAll_no_match createdByRe) by done.
    by rewrite (ReplaceAll_no_match hexPtrRe).
Qed.

End NormalizerFacts.

(** ** More on the indexer's pipeline *)
Module PipelineFacts.
Import Regexp Strings GIndex GIndexSpec Samples GIndexFacts.

(** *** The slices handed to the workers *)

Lemma chunks_length n (ids : list Z) : length (chunks n ids) <= n.
Proof.
  unfold chunks. rewrite length_omap_filter.
  etrans; [apply length_filter|]. by rewrite length_seq.
Qed.

Lemma chunks_nonempty n (ids : list Z) : Forall (fun c => c <> []) (chunks n ids).
Proof.
  unfold chunks. apply Forall_forall. intros c (i & Hi & Hc)%list_elem_of_omap.
  apply elem_of_seq in Hi.
  cbv zeta in Hc. set (c0 := (length ids + n - 1) / n) in *.
  destruct (Nat.leb_spec (length ids) (i * c0)) as [|Hlt]; [done|].
  injection Hc as <-. intros E%(f_equal length).
  rewrite length_take, length_drop in E. cbn in E.
  assert (c0 <> 0) as Hc0.
  { intros E0. pose proof E0 as E1. apply Nat.div_small_iff in E1; [|lia].
    rewrite E0 in Hlt. lia. }
  generalize dependent (i * c0). intros; lia.
Qed.

(** X3: the goroutine ids are cut into at most [numWorkers] slices, none
    of them empty, which put end to end give the ids back: each id goes
    to one worker. *)
Theorem chunks_partition (numWorkers : positive) (goroIDs : list Z) :
  concat (chunks (Pos.to_nat numWorkers) goroIDs) = goroIDs /\
  length (chunks (Pos.to_nat numWorkers) goroIDs) <= Pos.to_nat numWorkers /\
  Forall (fun c => c <> []) (chunks (Pos.to_nat numWorkers) goroIDs).
Proof.
  split; [apply chunks_concat; lia|]. split; [apply chunks_length|apply chunks_nonempty].
Qed.

(** *** Keys *)

Lemma key_c_inj h1 i1 h2 i2 : key_c h1 i1 = key_c h2 i2 -> h1 = h2 /\ i1 = i2.
Proof.
  unfold key_c. cbn [bytes list_ascii_of_string app]. intros [= H].
  apply split_last_colon in H as [-> H]; [|apply itoa_no_colon..].
  by apply itoa_inj in H as ->.
Qed.

(** X4: keys do not collide.  Two series keys, or two children keys, are
    equal only for the same host and the same goroutine id, also when a
    host name holds a colon; keys of different kinds differ. *)
Theorem keys_do_not_collide :
  (forall h1 i1 h2 i2, key_g h1 i1 = key_g h2 i2 -> h1 = h2 /\ i1 = i2) /\
  (forall h1 i1 h2 i2, key_c h1 i1 = key_c h2 i2 -> h1 = h2 /\ i1 = i2) /\
  (forall h1 h2, key_s h1 = key_s h2 -> h1 = h2) /\
  (forall f1 f2, key_f f1 = key_f f2 -> f1 = f2) /\
  (forall h i h' i' h'' f,
     NoDup [key_g h i; key_c h' i'; key_s h''; key_f f; key_hosts; key_funcs]).
Proof.
  split; [apply key_g_inj|]. split; [apply key_c_inj|].
  split; [by intros h1 h2 [= ]|]. split; [by intros f1 f2 [= ]|].
  intros. unfold key_g, key_c, key_s, key_f, key_hosts, key_funcs.
  cbn [bytes list_ascii_of_string app].
  repeat (apply NoDup_cons; split;
          [rewrite ?elem_of_cons, elem_of_nil; intros H; repeat destruct H as [H|H]; done|]).
  apply NoDup_nil_2.
Qed.

(** *** Time spans *)

Lemma first_le_last es :
  StronglySorted Z.le (map Timestamp es) -> (firstTimestamp es <= lastTimestamp es)%Z.
Proof.
  destruct es as [|e es]; [done|]. cbn [map firstTimestamp]. unfold lastTimestamp.
  intros [_ Hle]%StronglySorted_inv. rewrite last_cons.
  destruct (last es) as [e'|] eqn:E; [|lia].
  rewrite Forall_forall in Hle. apply Hle, list_elem_of_fmap. exists e'.
  split; [done|]. apply last_Some in E as [l' ->]. apply elem_of_app. right. by left.
Qed.

Section Ordered.
Context (ord : Order) (Hfair : fair ord).

Lemma hostSeries_sorted files id :
  StronglySorted Z.le (map Timestamp (entriesOf (hostSeries ord files) id)).
Proof.
  rewrite (hostSeries_entries ord Hfair). apply entries_sorted, hostResults_sorted.
Qed.

(** X5: every child of a children list is a goroutine with a series of
    its host; the two times stored with it are the first and the last
    timestamp of that series, so that the first is not after the last. *)
Theorem child_time_span corpus numWorkers key children child :
  (key, VChildren children) ∈ runIndex ord corpus numWorkers -> child ∈ children ->
  exists host files s,
    (host, Some files) ∈ corpus /\
    hostSeries ord files !! ID child = Some s /\
    ChildFirstSeen child = firstTimestamp (Entries s) /\
    ChildLastSeen child = lastTimestamp (Entries s) /\
    (ChildFirstSeen child <= ChildLastSeen child)%Z.
Proof.
  intros Hin Hc.
  apply runIndex_data in Hin as (host & files & Hh & Hin); [|done].
  apply (children_record ord Hfair) in Hin as (parentID & -> & Hl).
  apply buildChildren_lookup in Hl as ->.
  apply list_elem_of_omap in Hc as ([id s] & Hm & Hc).
  apply (elem_of_rangeZ ord Hfair) in Hm.
  exists host, files, s. split; [done|].
  unfold childOf in Hc. cbn [fst snd] in Hc.
  destruct (Entries s) as [|e es] eqn:E; [done|].
  destruct (findParent (e :: es)) as [p funcs].
  destruct (p =? 0)%Z; [done|]. destruct (decide (p = parentID)); [|done].
  injection Hc as <-. cbn [ID ChildFirstSeen ChildLastSeen].
  split; [done|]. split; [done|]. split; [done|].
  apply (first_le_last (e :: es)). rewrite <- E, <- (entriesOf_lookup _ _ _ Hm).
  apply hostSeries_sorted.
Qed.

End Ordered.

Lemma child_time_span_witness :
  let child := mkChild 7 (bytes "main.late -> main.spawn") 1000 2000 in
  fair mapOrder /\
  (key_c (bytes "h") 1, VChildren [child]) ∈ runIndex mapOrder sampleCorpus 1 /\
  exists host files s,
    (host, Some files) ∈ sampleCorpus /\
    hostSeries mapOrder files !! ID child = Some s /\
    ChildFirstSeen child = firstTimestamp (Entries s) /\
    ChildLastSeen child = lastTimestamp (Entries s) /\
    (ChildFirstSeen child <= ChildLastSeen child)%Z.
Proof.
  intros child.
  assert ((key_c (bytes "h") 1, VChildren [child]) ∈ runIndex mapOrder sampleCorpus 1)
    as Hin by (apply Get_Some; by vm_compute).
  split; [exact mapOrder_fair|]. split; [done|].
  exact (child_time_span mapOrder mapOrder_fair sampleCorpus 1 _ _ child Hin
           (list_elem_of_here child [])).
Defined.

End PipelineFacts.

(** ** More on the function index *)
Module FuncIndexFacts.
Import Regexp Strings GIndex GIndexSpec Samples GIndexFacts PipelineFacts.

(** *** Occurrence maps *)

Lemma setOcc_inhabited m f i o :
  (forall funcName gm, m !! funcName = Some gm -> gm <> ∅) ->
  forall funcName gm, setOcc m f i o !! funcName = Some gm -> gm <> ∅.
Proof.
  intros Hm funcName gm. unfold setOcc. destruct (decide (f = funcName)) as [->|Hne].
  - rewrite lookup_insert_eq. intros [= <-]. apply insert_non_empty.
  - rewrite lookup_insert_ne by done. apply Hm.
Qed.

Lemma merge_inhabited rs m :
  (forall funcName gm, m !! funcName = Some gm -> gm <> ∅) ->
  forall funcName gm,
    foldl (fun m r => setOcc m (fn r) (goroID r) (occ r)) m rs !! funcName = Some gm ->
    gm <> ∅.
Proof.
  revert m. induction rs as [|r rs IH]; intros m Hm; [done|].
  cbn [foldl]. by apply IH, setOcc_inhabited.
Qed.

Lemma lookupOcc_ext (m1 m2 : gmap str (gmap Z FuncOccurrence)) :
  (forall funcName gm, m1 !! funcName = Some gm -> gm <> ∅) ->
  (forall funcName gm, m2 !! funcName = Some gm -> gm <> ∅) ->
  (forall funcName id, lookupOcc m1 funcName id = lookupOcc m2 funcName id) ->
  m1 = m2.
Proof.
  intros H1 H2 Hl. apply map_eq. intros funcName.
  specialize (Hl funcName). unfold lookupOcc in Hl.
  destruct (m1 !! funcName) as [g1|] eqn:E1, (m2 !! funcName) as [g2|] eqn:E2;
    cbn in Hl; [| | |done].
  - f_equal. by apply map_eq.
  - destruct (H1 _ _ E1). by apply map_empty.
  - destruct (H2 _ _ E2). apply map_empty. intros id. by rewrite <- Hl.
Qed.

(** *** Sorting names *)



Lemma leb_total a b : leb a b = false -> leb b a = true.
Proof.
  revert b. induction a as [|x a IH]; intros [|y b]; cbn [leb]; try done.
  destruct (N.ltb_spec (Class.code x) (Class.code y)); [done|].
  destruct (N.ltb_spec (Class.code y) (Class.code x)); [done|]. apply IH.
Qed.



Section Ordered.
Context (ord : Order) (Hfair : fair ord).

Lemma buildFuncOccurrences_inhabited host numWorkers series funcName gm :
  buildFuncOccurrences ord host numWorkers series !! funcName = Some gm -> gm <> ∅.
Proof. unfold buildFuncOccurrences. by apply merge_inhabited. Qed.

Lemma buildFuncOccurrences_workers host n1 n2 series :
  buildFuncOccurrences ord host n1 series = buildFuncOccurrences ord host n2 series.
Proof.
  apply lookupOcc_ext; try (intros ??; apply buildFuncOccurrences_inhabited).
  intros funcName id. by rewrite !(buildFuncOccurrences_spec ord Hfair).
Qed.


(** *** What the function index holds *)

Lemma hostRecords_no_func host files key f :
  (key, VFuncIndex f) ∉ hostRecords ord host files.
Proof.
  unfold hostRecords, seriesRecords, childRecords, statsRecord.
  rewrite !elem_of_app, !list_elem_of_fmap, list_elem_of_singleton.
  intros [(x & [= ] & _)|[(x & [= ] & _)| [= ]]].
Qed.

Lemma mergeFuncs_inv (Q : str -> FuncOccurrence -> Prop) l db allFuncs :
  (forall key f, (key, VFuncIndex f) ∈ db -> Forall (Q key) (Occurrences f)) ->
  (forall funcName gm id o,
     (funcName, gm) ∈ l -> gm !! id = Some o -> Q (key_f funcName) o) ->
  forall key f, (key, VFuncIndex f) ∈ (foldl (mergeStep ord) (db, allFuncs) l).1 ->
    Forall (Q key) (Occurrences f).
Proof.
  revert db allFuncs. induction l as [|[fnm gm] l IH]; intros db allFuncs Hdb Hl; [done|].
  cbn [foldl]. rewrite mergeStep_spec. apply IH.
  - intros key f. unfold Put. rewrite elem_of_app, list_elem_of_singleton.
    intros [Hin|[= -> ->]]; [by apply Hdb|]. cbn [Occurrences].
    apply Forall_app. split.
    + unfold existingIndex.
      destruct (Get db (key_f fnm)) as [[]|] eqn:E; try by constructor.
      apply Get_Some in E. by apply Hdb in E.
    + apply Forall_forall. intros o ([id o'] & -> & Hin)%list_elem_of_fmap.
      apply (elem_of_rangeZ ord Hfair) in Hin. eapply Hl; [by left|done].
  - intros ???? Hin. apply Hl. by right.
Qed.

Lemma hosts_inv (Q : str -> FuncOccurrence -> Prop) numWorkers l db allFuncs :
  (forall key f, (key, VFuncIndex f) ∈ db -> Forall (Q key) (Occurrences f)) ->
  (forall host files funcName gm id o,
     (host, Some files) ∈ l -> hostFuncs ord host numWorkers files !! funcName = Some gm ->
     gm !! id = Some o -> Q (key_f funcName) o) ->
  forall key f,
    (key, VFuncIndex f) ∈ (foldl (hostStep ord numWorkers) (db, allFuncs) l).1 ->
    Forall (Q key) (Occurrences f).
Proof.
  revert db allFuncs. induction l as [|[host files] l IH]; intros db allFuncs Hdb Hl; [done|].
  cbn [foldl]. unfold hostStep at 2. cbn [fst snd].
  destruct (processHost ord db host files numWorkers) as [db1 funcs] eqn:E.
  apply IH; [|intros ?????? Hin; apply Hl; by right].
  destruct files as [files|]; [|by injection E as <- <-].
  rewrite processHost_spec in E. unfold mergeFuncs in E.
  apply (f_equal fst) in E. cbn [fst] in E. rewrite <- E.
  apply mergeFuncs_inv.
  - intros key f [Hin|Hin]%elem_of_app; [by apply Hdb|].
    by apply hostRecords_no_func in Hin.
  - intros funcName gm id o Hin%(elem_of_rangeS ord Hfair) Ho.
    eapply Hl; [by left|done..].
Qed.

(** X7: the function index names only what the dumps show.  Every
    occurrence stored under the key of a function belongs to a host of
    the input and to a goroutine of that host with the function in one
    of its stacks, and its two times are the first and the last
    timestamp of the series of that goroutine. *)
Theorem funcIndex_sound corpus numWorkers key f o :
  (key, VFuncIndex f) ∈ runIndex ord corpus numWorkers -> o ∈ Occurrences f ->
  exists funcName files,
    key = key_f funcName /\ (Host o, Some files) ∈ corpus /\
    funcName ∈ seriesFuncs (entriesOf (hostSeries ord files) (GoroutineID o)) /\
    o = occOf (Host o) (hostSeries ord files) (GoroutineID o) /\
    (FirstSeen o <= LastSeen o)%Z.
Proof.
  set (Q := fun (key : str) (o : FuncOccurrence) =>
    exists funcName files,
      key = key_f funcName /\ (Host o, Some files) ∈ corpus /\
      funcName ∈ seriesFuncs (entriesOf (hostSeries ord files) (GoroutineID o)) /\
      o = occOf (Host o) (hostSeries ord files) (GoroutineID o) /\
      (FirstSeen o <= LastSeen o)%Z).
  intros Hin Ho. change (Q key o).
  assert (Forall (Q key) (Occurrences f)) as HQ;
    [|rewrite Forall_forall in HQ; by apply HQ].
  unfold runIndex in Hin.
  destruct (foldl _ _ corpus) as [db allFuncs] eqn:E.
  unfold Put in Hin. apply elem_of_app in Hin as [Hin|[= ]%list_elem_of_singleton].
  apply (f_equal fst) in E. cbn [fst] in E. rewrite <- E in Hin.
  revert Hin. apply hosts_inv.
  - by intros k f' [= ]%list_elem_of_singleton.
  - intros host files funcName gm id o' Hh Hgm Ho'.
    pose proof (hostFuncs_lookup ord Hfair host numWorkers files funcName id) as El.
    rewrite Hgm in El. cbn in El. rewrite Ho' in El.
    destruct (decide _) as [Hf|]; [|done]. injection El as ->.
    exists funcName, files. cbn [occOf Host GoroutineID FirstSeen LastSeen].
    repeat split; try done. apply first_le_last, hostSeries_sorted, Hfair.
Qed.

(** *** The list of function names *)









(** *** A host without dumps *)

Lemma rangeS_empty {A} (line : nat) : rangeS ord line (∅ : gmap str A) = [].
Proof.
  apply Permutation_nil_r. rewrite (rangeS_perm _ Hfair). by rewrite map_to_list_empty.
Qed.

Lemma recv_nil {A} (line : nat) : recv ord line (@nil A) = [].
Proof. apply Permutation_nil_r. by rewrite (recv_perm _ Hfair). Qed.

Lemma chunks_nil n : chunks n [] = [].
Proof.
  unfold chunks. generalize (seq 0 n). intros l. induction l as [|i l IH]; [done|].
  rewrite omap_cons_eq. cbv zeta. cbn [length]. by destruct (0 <=? _) eqn:E.
Qed.

(** X9: a host whose directory holds no dump that can be read gets its
    stats record, with no timestamps and no counts, and nothing else:
    no series, no children list, no function. *)
Theorem host_without_dumps db host files numWorkers :
  Forall (fun f => ~ parsed f) files ->
  processHost ord db host (Some files) numWorkers
  = (db ++ [(key_s host, VStats [] [])], ∅).
Proof.
  intros Hnone.
  assert (collect files = []) as Hc.
  { unfold collect. induction Hnone as [|f fs Hf _ IH]; [done|].
    rewrite omap_cons_eq. destruct (parseSnapshotFile f) eqn:E; [|done].
    destruct Hf. apply parseSnapshotFile_parsed. by rewrite E. }
  rewrite processHost_spec.
  assert (hostSeries ord files = ∅) as Hs.
  { unfold hostSeries, hostResults. by rewrite Hc, recv_nil. }
  assert (hostRecords ord host files = [(key_s host, VStats [] [])]) as ->.
  { unfold hostRecords, seriesRecords, childRecords, statsRecord, buildChildren.
    rewrite Hs, !(rangeZ_empty ord Hfair). cbn [foldl].
    rewrite (rangeZ_empty ord Hfair). unfold hostResults.
    by rewrite Hc, recv_nil. }
  unfold hostFuncs, buildFuncOccurrences, mergeFuncs.
  rewrite Hs, (rangeZ_empty ord Hfair). cbn [map]. rewrite chunks_nil. cbn [map].
  rewrite recv_nil. cbn [concat foldl]. by rewrite rangeS_empty.
Qed.

(** X6: the records a rebuild writes do not depend on the number of
    workers. *)
Theorem workers_do_not_matter corpus (n1 n2 : positive) :
  runIndex ord corpus n1 = runIndex ord corpus n2.
Proof.
  assert (forall db host files,
            processHost ord db host files n1 = processHost ord db host files n2) as Hp.
  { intros db host [files|]; [|done]. rewrite !processHost_spec.
    unfold hostFuncs. by rewrite (buildFuncOccurrences_workers host n1 n2). }
  unfold runIndex.
  assert (forall acc, foldl (hostStep ord n1) acc corpus = foldl (hostStep ord n2) acc corpus)
    as ->; [|done].
  induction corpus as [|h hs IH]; intros [db allFuncs]; [done|].
  cbn [foldl]. rewrite <- IH. f_equal. unfold hostStep. by rewrite Hp.
Qed.

End Ordered.

Lemma workers_do_not_matter_witness :
  fair mapOrder /\ runIndex mapOrder sampleCorpus 1 = runIndex mapOrder sampleCorpus 7.
Proof.
  split; [exact mapOrder_fair|].
  exact (workers_do_not_matter mapOrder mapOrder_fair sampleCorpus 1 7).
Defined.

Lemma funcIndex_sound_witness :
  let o := mkOcc (bytes "b") 1 1060 1060 in
  let f := mkFuncIndex [mkOcc (bytes "a") 1 1000 1000; o] in
  fair mapOrder /\
  (key_f (bytes "pkg.Handle"), VFuncIndex f) ∈ runIndex mapOrder twoHosts 2 /\
  o ∈ Occurrences f /\
  exists funcName files,
    key_f (bytes "pkg.Handle") = key_f funcName /\ (Host o, Some files) ∈ twoHosts /\
    funcName ∈ seriesFuncs (entriesOf (hostSeries mapOrder files) (GoroutineID o)) /\
    o = occOf (Host o) (hostSeries mapOrder files) (GoroutineID o) /\
    (FirstSeen o <= LastSeen o)%Z.
Proof.
  intros o f.
  assert ((key_f (bytes "pkg.Handle"), VFuncIndex f) ∈ runIndex mapOrder twoHosts 2)
    as Hin by (apply Get_Some; by vm_compute).
  assert (o ∈ Occurrences f) as Ho by (right; by left).
  split; [exact mapOrder_fair|]. split; [done|]. split; [done|].
  exact (funcIndex_sound mapOrder mapOrder_fair twoHosts 2 _ f o Hin Ho).
Defined.


Lemma host_without_dumps_witness :
  let files := [mkFile None (Some dumpEarly); mkFile (Some 5%Z) None] in
  fair mapOrder /\ Forall (fun f => ~ parsed f) files /\
  processHost mapOrder [] (bytes "h") (Some files) 2
  = ([] ++ [(key_s (bytes "h"), VStats [] [])], ∅).
Proof.
  intros files.
  assert (Forall (fun f => ~ parsed f) files) as H.
  { repeat constructor; intros [[? E1] [? E2]]; cbn in *; discriminate. }
  split; [exact mapOrder_fair|]. split; [done|].
  exact (host_without_dumps mapOrder mapOrder_fair [] (bytes "h") files 2 H).
Defined.

End FuncIndexFacts.

(** ** More on the parser of the indexer *)
Module ParserFacts.
Import Regexp RegexpFacts Strings GIndex GIndexSpec GCountFacts GIndexFacts.
#[local] Arguments Ascii.eqb : simpl never.
#[local] Arguments Class.digit : simpl never.
#[local] Arguments Class.state : simpl never.
#[local] Arguments Class.space : simpl never.

(** *** What a group of a match holds *)

Lemma run_Plus_inv {R} n p z cs (k : cursor -> caps -> option R) r :
  run (Grp n (Plus p)) z cs k = Some r ->
  exists j, 1 <= j <= run_len p (rest z) /\
    k (seek (prev z) (off z) (rest z) j) ((n, (off z, off z + j)) :: cs) = Some r.
Proof.
  unfold Plus. cbn [run]. destruct (rest z) as [|c t] eqn:E; [done|].
  destruct (p c) eqn:Ep; [|done]. cbn [rest prev off]. rewrite star_back.
  intros (i & Hi & Hk & _)%back_Some. exists (S i). cbn [run_len]. rewrite Ep.
  split; [lia|]. rewrite seek_S.
  rewrite seek_off in Hk by (pose proof (run_len_le p t); lia).
  by replace (off z + S i) with (S (off z) + i) by lia.
Qed.

Lemma find_exec r pv s pos p s' m :
  find r pv s pos = Some (p, s', m) ->
  exists pv' pre, s = pre ++ s' /\ p = pos + length pre /\ exec r pv' s' = Some m.
Proof.
  revert pv pos. induction s as [|c s IH]; intros pv pos; cbn [find].
  - destruct (exec r pv []) eqn:E; [|done]. intros [= <- <- <-].
    exists pv, []. by rewrite Nat.add_0_r.
  - destruct (exec r pv (c :: s)) eqn:E.
    + intros [= <- <- <-]. exists pv, []. by rewrite Nat.add_0_r.
    + intros (pv' & pre & -> & -> & He)%IH. exists pv', (c :: pre).
      split; [done|]. split; [cbn; lia|done].
Qed.

Lemma take_run p n t : n <= run_len p t -> forallb p (take n t) = true.
Proof.
  intros Hn. rewrite <- (Nat.min_l n (run_len p t)) by done. rewrite <- take_take.
  apply forallb_take, run_len_take.
Qed.

(** *** Headers *)

Lemma exec_goroHeader pv s len cs :
  exec goroHeaderRe pv s = Some (len, cs) ->
  exists n m,
    1 <= n /\ 1 <= m /\ forallb Class.digit (group s cs 1) = true /\
    length (group s cs 1) = n /\ forallb Class.state (group s cs 2) = true /\
    length (group s cs 2) = m /\
    s = bytes "goroutine " ++ group s cs 1 ++ bytes " [" ++ group s cs 2
        ++ drop (12 + n + m) s.
Proof.
  unfold exec, goroHeaderRe. cbn [Seq run prev].
  intros H.
  assert (run (Lit (bytes "goroutine ")) (Cursor pv 0 s) []
    (fun z' cs' => run (Grp 1 (Plus Class.digit)) z' cs'
      (fun z'0 cs'0 => run (Lit (bytes " [")) z'0 cs'0
        (fun z'1 cs'1 => run (Grp 2 (Plus Class.state)) z'1 cs'1
          (fun z'2 cs'2 => run Eps z'2 cs'2
             (fun z0 cs0 => Some (off z0, cs0))))))
     = Some (len, cs)) as H'.
  { destruct pv as [c|]; [|done]. by destruct (Ascii.eqb c "010"). }
  clear H. rewrite run_Lit in H'. cbn [rest prev off] in H'.
  destruct (prefix_of (bytes "goroutine ") s) as [t|] eqn:Et; [|discriminate].
  apply prefix_of_Some in Et as ->.
  cbn [bytes list_ascii_of_string app length seek] in H'. rewrite seek_0 in H'.
  apply run_Plus_inv in H' as (n & Hn & H'). cbn [rest prev off] in Hn, H'.
  pose proof (run_len_le Class.digit t) as Hlen.
  rewrite run_Lit, seek_rest in H'.
  destruct (prefix_of _ (drop n t)) as [u|] eqn:Eu; [|discriminate].
  apply prefix_of_Some in Eu.
  assert (2 + length u = length t - n) as Hu.
  { apply (f_equal length) in Eu. rewrite length_drop, length_app in Eu. cbn in Eu. lia. }
  rewrite ?seek_rest, ?seek_off in H' by (rewrite ?length_drop; cbn; lia).
  rewrite Eu in H'. cbn [bytes list_ascii_of_string app length drop] in H'.
  cbn [seek] in H'. rewrite seek_0 in H'.
  apply run_Plus_inv in H' as (m & Hm & H'). cbn [rest prev off] in Hm, H'.
  pose proof (run_len_le Class.state u) as Hlen'.
  cbn [run] in H'. rewrite seek_off in H' by lia.
  apply (inj Some), pair_equal_spec in H' as [<- <-].
  exists n, m. split; [lia|]. split; [lia|].
  unfold group. cbn [lookup_group Nat.eqb].
  replace (10 + n - 10) with n by lia.
  replace (S (S (10 + n)) + m - S (S (10 + n))) with m by lia.
  replace (S (S (10 + n))) with (10 + (n + 2)) by lia.
  replace (12 + n + m) with (10 + (n + 2 + m)) by lia.
  rewrite !(drop_app_add' (bytes "goroutine ")) by done.
  rewrite <- !drop_drop, Eu.
  change (drop 2 ([" "%char; "["%char] ++ u)) with u.
  change (drop 10 (bytes "goroutine " ++ t)) with t.
  split; [apply take_run; lia|]. split; [rewrite length_take; lia|].
  split; [apply take_run; lia|]. split; [rewrite length_take; lia|].
  f_equal. rewrite <- (take_drop n t) at 1. f_equal. rewrite Eu.
  cbn [bytes list_ascii_of_string app]. by rewrite take_drop.
Qed.

Lemma run_Star_inv {R} p z cs (k : cursor -> caps -> option R) r :
  run (Star p) z cs k = Some r -> exists z', k z' cs = Some r.
Proof. cbn [run]. rewrite star_back. intros (i & _ & Hk & _)%back_Some. eauto. Qed.

Lemma exec_createdByGoroID pv s len cs :
  exec createdByGoroIDRe pv s = Some (len, cs) ->
  group s cs 1 <> [] /\ forallb Class.digit (group s cs 1) = true.
Proof.
  unfold exec, createdByGoroIDRe. intros H.
  assert (run (Lit (bytes "in goroutine ")) (Cursor pv 0 s) []
    (fun z' cs' => run (Grp 1 (Plus Class.digit)) z' cs'
      (fun z'0 cs'0 => run (Star Class.space) z'0 cs'0
        (fun z'1 cs'1 => run Eot z'1 cs'1
          (fun z'2 cs'2 => run Eps z'2 cs'2
             (fun z0 cs0 => Some (off z0, cs0))))))
     = Some (len, cs)) as H' by exact H.
  clear H. rewrite run_Lit in H'. cbn [rest prev off] in H'.
  destruct (prefix_of (bytes "in goroutine ") s) as [t|] eqn:Et; [|discriminate].
  apply prefix_of_Some in Et as ->.
  cbn [bytes list_ascii_of_string app length seek] in H'. rewrite seek_0 in H'.
  apply run_Plus_inv in H' as (n & Hn & H'). cbn [rest prev off] in Hn, H'.
  apply run_Star_inv in H' as (z' & H'). cbn [run] in H'.
  destruct (rest z'); [|discriminate]. apply (inj Some), pair_equal_spec in H' as [_ <-].
  cbv [group lookup_group Nat.eqb]. replace (13 + n - 13) with n by lia.
  change (drop 13 (bytes "in goroutine " ++ t)) with t.
  split; [|apply take_run; lia].
  intros E%(f_equal length). rewrite length_take in E.
  pose proof (run_len_le Class.digit t). cbn in E. lia.
Qed.

(** *** Numbers *)

Lemma digitValue_range c : Class.digit c = true -> (0 <= digitValue c <= 9)%Z.
Proof.
  unfold Class.digit, Class.between, digitValue.
  cbn [bytes list_ascii_of_string]. intros [H1 H2]%andb_true_iff.
  apply N.leb_le in H1, H2. change (Class.code "0") with 48%N in H1.
  change (Class.code "9") with 57%N in H2. lia.
Qed.

Lemma decimal_nonneg ds : forallb Class.digit ds = true -> (0 <= decimal ds)%Z.
Proof.
  unfold decimal. intros Hds.
  enough (forall acc, (0 <= acc)%Z ->
    (0 <= foldl (fun acc c => 10 * acc + digitValue c) acc ds)%Z) as H by (apply H; lia).
  induction ds as [|c ds IH]; intros acc Hacc; [done|]. cbn [forallb foldl] in *.
  apply andb_true_iff in Hds as [Hc Hds]. apply IH; [done|].
  pose proof (digitValue_range c Hc). lia.
Qed.

Lemma Sscanf_d_range ds old :
  forallb Class.digit ds = true -> (0 <= old <= maxInt64)%Z ->
  (0 <= Sscanf_d ds old <= maxInt64)%Z.
Proof.
  intros Hds Hold. unfold Sscanf_d. pose proof (decimal_nonneg ds Hds).
  destruct (Z.leb_spec (decimal ds) maxInt64); lia.
Qed.

(** *** Parsed goroutines *)

Lemma FindStringSubmatch_goroHeader s w g :
  FindStringSubmatch goroHeaderRe s = Some (w, g) ->
  g 1 <> [] /\ forallb Class.digit (g 1) = true /\
  g 2 <> [] /\ forallb Class.state (g 2) = true.
Proof.
  unfold FindStringSubmatch. destruct (find goroHeaderRe None s 0) as [[[p s'] [len cs]]|] eqn:E;
    [|done].
  intros [= <- <-]. apply find_exec in E as (pv' & pre & _ & _ & He).
  apply exec_goroHeader in He as (n & m & Hn & Hm & Hd & Ln & Hs & Lm & _).
  repeat split; try done.
  - intros E. rewrite E in Ln. cbn in Ln. lia.
  - intros E. rewrite E in Lm. cbn in Lm. lia.
Qed.

Lemma blockStep_createdBy acc line :
  (0 <= acc.2 <= maxInt64)%Z -> (0 <= (blockStep acc line).2 <= maxInt64)%Z.
Proof.
  destruct acc as [stackLines cb]. unfold blockStep. cbn [snd].
  destruct (TrimSpace line) as [|c l] eqn:El; [done|]. cbn [snd]. intros Hcb.
  destruct (cb =? 0)%Z; [|done].
  unfold FindStringSubmatch.
  destruct (find createdByGoroIDRe None (c :: l) 0) as [[[p s'] [len cs]]|] eqn:E; [|done].
  apply find_exec in E as (pv' & pre & _ & _ & He).
  apply exec_createdByGoroID in He as [_ Hd]. by apply Sscanf_d_range.
Qed.

Lemma foldl_blockStep_createdBy lines acc :
  (0 <= acc.2 <= maxInt64)%Z -> (0 <= (foldl blockStep acc lines).2 <= maxInt64)%Z.
Proof.
  revert acc. induction lines as [|l ls IH]; intros acc Hacc; [done|].
  cbn [foldl]. by apply IH, blockStep_createdBy.
Qed.

Lemma parseGoroutineBlock_wellformed block g :
  parseGoroutineBlock block = Some g ->
  (0 <= createdBy g <= maxInt64)%Z /\
  state g <> [] /\ forallb Class.state (state g) = true.
Proof.
  unfold parseGoroutineBlock. destruct (SplitLines block) as [|header lines]; [done|].
  destruct (FindStringSubmatch goroHeaderRe header) as [[w h]|] eqn:E; [|done].
  apply FindStringSubmatch_goroHeader in E as (_ & _ & Hs & Hs').
  destruct (foldl blockStep ([], 0%Z) lines) as [stackLines cb] eqn:Ef.
  intros [= <-]. cbn [createdBy state]. split; [|done].
  pose proof (foldl_blockStep_createdBy lines ([], 0%Z)) as H.
  rewrite Ef in H. apply H. cbn. unfold maxInt64. lia.
Qed.

(** X10: what the parser returns is well formed.  The id of every parsed
    goroutine and the id of its parent lie between 0 and the largest
    [int64], and its state is not empty and holds neither [,] nor []]. *)
Theorem parsed_goroutine_wellformed (data : str) (id : Z) (g : parsedGoroutine) :
  parseGoroutines data !! id = Some g ->
  (0 <= id <= maxInt64)%Z /\ (0 <= createdBy g <= maxInt64)%Z /\
  state g <> [] /\ (","%char ∉ state g) /\ ("]"%char ∉ state g).
Proof.
  unfold parseGoroutines. rewrite foldl_addBlock, lookup_empty.
  destruct (last _) as [[id' g']|] eqn:E; [|done]. cbn [snd]. intros [= ->].
  apply last_Some in E as [l E].
  assert ((id', g) ∈ filter (fun r : Z * parsedGoroutine => r.1 = id)
                      (omap blockRecord (blocks data (FindAllStringIndex goroHeaderRe data))))
    as Hin by (rewrite E; apply elem_of_app; right; by left).
  apply list_elem_of_filter in Hin as [Hid Hin]. cbn [fst] in Hid. subst id'.
  apply list_elem_of_omap in Hin as (block & _ & Hb).
  unfold blockRecord in Hb.
  destruct (parseGoroutineBlock block) as [g0|] eqn:Eg; [|done].
  destruct (FindStringSubmatch goroHeaderRe block) as [[w h]|] eqn:Eh; [|done].
  injection Hb as <- <-.
  apply FindStringSubmatch_goroHeader in Eh as (_ & Hd & _).
  apply parseGoroutineBlock_wellformed in Eg as (Hc & Hs & Hs').
  split; [by apply Sscanf_d_range|]. split; [done|]. split; [done|].
  rewrite forallb_forall in Hs'.
  split; intros Hin%list_elem_of_In%Hs'; by vm_compute in Hin.
Qed.

Lemma parsed_goroutine_wellformed_witness :
  let data := bytes "goroutine 7 [chan receive, 3 minutes]:
main.wait()
created by main.start in goroutine 1
" in
  exists g, parseGoroutines data !! 7%Z = Some g /\
    (0 <= 7 <= maxInt64)%Z /\ (0 <= createdBy g <= maxInt64)%Z /\
    state g <> [] /\ (","%char ∉ state g) /\ ("]"%char ∉ state g).
Proof.
  intros data.
  destruct (parseGoroutines data !! 7%Z) as [g|] eqn:E; [|by vm_compute in E].
  exists g. split; [done|].
  exact (parsed_goroutine_wellformed data 7 g E).
Defined.

(** *** Dumps without goroutines *)

Lemma index_go_none r pv s pos :
  find r pv s pos = None -> index_go r pv s pos 0 = [].
Proof.
  revert pv pos. induction s as [|c s IH]; intros pv pos; [done|].
  cbn [find index_go]. destruct (exec r pv (c :: s)); [done|]. apply IH.
Qed.

(** X11: a dump in which no line starts with [goroutine N [state] parses
    to the empty map: it is a parsed dump that holds no goroutine. *)
Theorem parseGoroutines_no_header (data : str) :
  MatchString goroHeaderRe data = false -> parseGoroutines data = ∅.
Proof.
  unfold MatchString, parseGoroutines, FindAllStringIndex.
  destruct (find goroHeaderRe None data 0) eqn:E; [done|]. intros _.
  by rewrite index_go_none.
Qed.

Lemma parseGoroutines_no_header_witness :
  let data := bytes "no goroutine 1 [running]:
 goroutine 2 [select]:
goroutine x [select]:
" in
  MatchString goroHeaderRe data = false /\ parseGoroutines data = ∅.
Proof.
  intros data. assert (MatchString goroHeaderRe data = false) as H by (by vm_compute).
  split; [done|]. exact (parseGoroutines_no_header data H).
Defined.

End ParserFacts.

(** ** gcount: the groups and the listing *)
Module GroupingFacts.
Import Regexp RegexpFacts GCount Strings Grouping GroupingSpec GCountFacts.
Import GIndexFacts (omap_cons_eq).
Import ParserFacts (run_Plus_inv).
Import FuncIndexFacts (leb_total).
#[local] Arguments Ascii.eqb : simpl never.
#[local] Arguments Class.digit : simpl never.
#[local] Arguments Class.state : simpl never.
#[local] Arguments Class.space : simpl never.

(** *** One block *)

Lemma parseGoroutineBlock_read block groups :
  parseGoroutineBlock block groups =
  match readBlock block with
  | Some r => addTo groups r
  | None => groups
  end.
Proof.
  unfold parseGoroutineBlock, readBlock.
  destruct (SplitLines block) as [|header lines]; [done|].
  by destruct (FindStringSubmatchStart headerRe header) as [[w m]|].
Qed.

Lemma parseAndGroup_fold bs groups :
  foldl (fun groups block => parseGoroutineBlock (TrimSpace block) groups) groups bs =
  foldl addTo groups (omap (fun block => readBlock (TrimSpace block)) bs).
Proof.
  revert groups. induction bs as [|b bs IH]; intros groups; [done|].
  cbn [foldl]. rewrite IH, parseGoroutineBlock_read, omap_cons_eq.
  by destruct (readBlock (TrimSpace b)).
Qed.

Lemma filter_positive ws w :
  filter (fun w => (0 < w)%Z) (ws ++ [w]) =
  filter (fun w => (0 < w)%Z) ws ++ (if (0 <? w)%Z then [w] else []).
Proof.
  rewrite filter_app. f_equal. destruct (Z.ltb_spec 0 w).
  - by rewrite filter_cons_True.
  - rewrite filter_cons_False; [done|lia].
Qed.

Lemma addTo_lookup groups rs r key :
  groups !! keyOf r = groupOf (filter (fun r' => keyOf r' = keyOf r) rs) ->
  groups !! key = groupOf (filter (fun r' => keyOf r' = key) rs) ->
  addTo groups r !! key = groupOf (filter (fun r' => keyOf r' = key) (rs ++ [r])).
Proof.
  intros Hr Hkey. rewrite filter_app. unfold addTo.
  destruct (decide (keyOf r = key)) as [<-|Hne].
  - rewrite filter_cons_True by done. rewrite filter_nil, Hr.
    destruct (filter _ rs) as [|[[st sk] w] l] eqn:E; cbn [groupOf].
    + rewrite lookup_insert_eq. destruct r as [[st sk] w].
      cbn [app groupOf fst snd length map]. do 2 f_equal.
      exact (eq_sym (filter_positive [] w)).
    + rewrite lookup_insert_eq. cbn [groupOf count state stack waits].
      rewrite <- app_comm_cons. cbn [groupOf]. rewrite !app_comm_cons.
      do 2 f_equal.
      * rewrite length_app. cbn [length]. lia.
      * rewrite map_app. change (map snd [r]) with [r.2]. rewrite filter_positive.
        destruct (0 <? r.2)%Z; [done|by rewrite app_nil_r].
  - rewrite filter_cons_False by done. rewrite filter_nil, app_nil_r.
    by destruct (groups !! keyOf r); rewrite lookup_insert_ne.
Qed.

Lemma foldl_addTo rs' groups rs :
  (forall key, groups !! key = groupOf (filter (fun r => keyOf r = key) rs)) ->
  forall key, foldl addTo groups rs' !! key =
              groupOf (filter (fun r => keyOf r = key) (rs ++ rs')).
Proof.
  revert groups rs. induction rs' as [|r rs' IH]; intros groups rs H key.
  - by rewrite app_nil_r.
  - cbn [foldl]. rewrite (IH _ (rs ++ [r])); [by rewrite <- app_assoc|].
    intros key'. by apply addTo_lookup.
Qed.

(** X12: the groups of a dump.  Under each key is the group of the
    goroutines read off the dump with that state and stack: its count is
    their number, its state and stack are theirs, and its waits are their
    minutes (those above 0) in the order of the text.  There is no group
    for a state and stack that no goroutine has. *)
Theorem groups_of_dump (data key : str) :
  parseAndGroup data !! key = groupOf (filter (fun r => keyOf r = key) (reads data)).
Proof.
  unfold parseAndGroup, reads. rewrite parseAndGroup_fold.
  by apply (foldl_addTo _ ∅ []).
Qed.

(** *** The listing *)

Lemma goroutines_perm l l' : l ≡ₚ l' -> goroutines l = goroutines l'.
Proof.
  unfold goroutines. induction 1; cbn [map foldr]; lia.
Qed.

Lemma total_goroutines (l : list (str * goroutineGroup)) a :
  foldl (fun total sg => (total + count sg.2)%Z) a l = (a + goroutines l.*2)%Z.
Proof.
  unfold goroutines. revert a. induction l as [|x l IH]; intros a; cbn; [lia|].
  rewrite IH. lia.
Qed.

Lemma insertGroup_perm x l : insertGroup x l ≡ₚ x :: l.
Proof.
  induction l as [|y l IH]; [done|]. cbn [insertGroup].
  destruct (less y.2 x.2); [|done]. rewrite IH. apply Permutation_swap.
Qed.

Lemma sortGroups_perm l : sortGroups l ≡ₚ l.
Proof.
  induction l as [|x l IH]; [done|]. cbn [sortGroups foldr].
  rewrite insertGroup_perm. by constructor.
Qed.

Lemma leb_trans a b c : leb a b = true -> leb b c = true -> leb a c = true.
Proof.
  revert b c. induction a as [|x a IH]; intros [|y b] [|z c]; cbn [leb]; try done.
  repeat match goal with
         | |- context [(?a <? ?b)%N] => destruct (N.ltb_spec a b)
         end; try done; try lia.
  apply IH.
Qed.

Lemma listedBefore_trans a b c : listedBefore a b -> listedBefore b c -> listedBefore a c.
Proof.
  unfold listedBefore. intros [H1|[H1 L1]] [H2|[H2 L2]]; try (left; lia).
  right. split; [lia|]. by apply (leb_trans _ (state b)).
Qed.

Lemma less_false x y : less y x = false -> listedBefore x y.
Proof.
  unfold less, listedBefore, ltb. destruct (Z.eqb_spec (count y) (count x)); cbn [negb].
  - intros H%negb_false_iff. by right.
  - intros H%Z.ltb_ge. left. lia.
Qed.

Lemma less_true x y : less y x = true -> listedBefore y x.
Proof.
  unfold less, listedBefore, ltb. destruct (Z.eqb_spec (count y) (count x)); cbn [negb].
  - intros H%negb_true_iff%leb_total. by right.
  - intros H%Z.ltb_lt. by left.
Qed.

Lemma insertGroup_sorted x l :
  StronglySorted (fun a b => listedBefore a.2 b.2) l ->
  StronglySorted (fun a b => listedBefore a.2 b.2) (insertGroup x l).
Proof.
  induction 1 as [|y l Hl IH Hy]; cbn [insertGroup]; [by repeat constructor|].
  destruct (less y.2 x.2) eqn:E.
  - constructor; [done|]. rewrite insertGroup_perm. constructor; [|done].
    by apply less_true.
  - apply less_false in E. constructor; [by constructor|].
    constructor; [done|]. eapply Forall_impl; [exact Hy|].
    intros z Hz. by apply (listedBefore_trans _ y.2).
Qed.

Lemma sortGroups_sorted l :
  StronglySorted (fun a b => listedBefore a.2 b.2) (sortGroups l).
Proof.
  induction l as [|x l IH]; [constructor|]. by apply insertGroup_sorted.
Qed.

Lemma StronglySorted_fmap {A B} (f : A -> B) (R : B -> B -> Prop) l :
  StronglySorted (fun a b => R (f a) (f b)) l -> StronglySorted R (f <$> l).
Proof.
  induction 1 as [|x l Hl IH Hx]; [constructor|]. cbn. constructor; [done|].
  by apply Forall_fmap.
Qed.

(** *** Counting *)

Lemma goroutines_addTo groups r :
  goroutines (map_to_list (addTo groups r)).*2 = (goroutines (map_to_list groups).*2 + 1)%Z.
Proof.
  unfold addTo. destruct (groups !! keyOf r) as [g|] eqn:E.
  - rewrite <- insert_delete_eq.
    rewrite (goroutines_perm _ _ (fmap_Permutation snd _ _
               (map_to_list_insert _ _ _ (lookup_delete_eq _ _)))).
    rewrite <- (goroutines_perm _ _ (fmap_Permutation snd _ _
               (map_to_list_delete _ _ _ E))).
    unfold goroutines. cbn. lia.
  - rewrite (goroutines_perm _ _ (fmap_Permutation snd _ _
               (map_to_list_insert _ _ _ E))).
    unfold goroutines. cbn. lia.
Qed.

Lemma goroutines_foldl rs groups :
  goroutines (map_to_list (foldl addTo groups rs)).*2 =
  (goroutines (map_to_list groups).*2 + Z.of_nat (length rs))%Z.
Proof.
  revert groups. induction rs as [|r rs IH]; intros groups; cbn [foldl length]; [lia|].
  rewrite IH, goroutines_addTo. lia.
Qed.

Lemma goroutines_parseAndGroup data :
  goroutines (map_to_list (parseAndGroup data)).*2 = Z.of_nat (length (reads data)).
Proof.
  unfold parseAndGroup, reads. rewrite parseAndGroup_fold, goroutines_foldl.
  by rewrite map_to_list_empty.
Qed.

(** *** Headers the parser turns down *)

Lemma run_Plus_bare {R} p z cs (k : cursor -> caps -> option R) r :
  run (Plus p) z cs k = Some r ->
  exists j, 1 <= j <= run_len p (rest z) /\
    k (seek (prev z) (off z) (rest z) j) cs = Some r.
Proof.
  unfold Plus. cbn [run]. destruct (rest z) as [|c t] eqn:E; [done|].
  destruct (p c) eqn:Ep; [|done]. cbn [rest prev off]. rewrite star_back.
  intros (i & Hi & Hk & _)%back_Some. exists (S i). cbn [run_len]. rewrite Ep.
  split; [lia|]. by rewrite seek_S.
Qed.

Lemma run_Star_bound {R} p z cs (k : cursor -> caps -> option R) r :
  run (Star p) z cs k = Some r ->
  exists i, i <= run_len p (rest z) /\
    k (seek (prev z) (off z) (rest z) i) cs = Some r.
Proof. cbn [run]. rewrite star_back. intros (i & Hi & Hk & _)%back_Some. eauto. Qed.

Lemma run_Opt_inv {R} r1 z cs (k : cursor -> caps -> option R) r :
  run (Opt r1) z cs k = Some r -> run r1 z cs k = Some r \/ k z cs = Some r.
Proof. cbn [run]. destruct (run r1 z cs k); [by left|by right]. Qed.

Lemma drop_run_head (p : ascii -> bool) a c t j x u :
  forallb p a = true -> j <= length a -> drop j (a ++ c :: t) = x :: u -> p x = false ->
  j = length a /\ x = c /\ u = t.
Proof.
  intros Ha Hj Hd Hx. destruct (decide (j = length a)) as [->|Hne].
  - rewrite drop_app_length in Hd. by injection Hd as <- <-.
  - rewrite drop_app_le in Hd by lia.
    destruct (drop j a) as [|y l] eqn:E.
    { apply (f_equal length) in E. rewrite length_drop in E. cbn in E. lia. }
    injection Hd as -> _. rewrite forallb_forall in Ha.
    assert (In x a) as Hin%Ha; [|congruence].
    apply list_elem_of_In, (subseteq_drop j a). rewrite E. by left.
Qed.

Lemma space_not_digit c : Class.space c = true -> Class.digit c = false.
Proof.
  destruct c as [[] [] [] [] [] [] [] []]; by vm_compute.
Qed.

Lemma seek_seek pv o s i j :
  seek (prev (seek pv o s i)) (off (seek pv o s i)) (rest (seek pv o s i)) j =
  seek pv o s (i + j).
Proof.
  revert pv o s. induction i as [|i IH]; intros pv o s.
  - by rewrite seek_0.
  - destruct s as [|c s]; [by destruct j|]. cbn [Nat.add]. rewrite !seek_S. apply IH.
Qed.

Lemma run_len_blanks_then p q w c t i :
  forallb q w = true -> (forall y, q y = true -> p y = false) -> p c = false ->
  i <= length w -> run_len p (drop i (w ++ c :: t)) = 0.
Proof.
  intros Hw Hq Hc Hi. rewrite drop_app_le by done.
  destruct (drop i w) as [|y l] eqn:E; cbn [app]; [by apply run_len_stop|].
  apply run_len_stop, Hq. rewrite forallb_forall in Hw. apply Hw.
  apply list_elem_of_In, (subseteq_drop i w). rewrite E. by left.
Qed.

Lemma exec_header_annotation n st w c t :
  forallb Class.digit n = true -> forallb Class.state st = true ->
  forallb Class.space w = true -> Class.digit c = false -> Class.space c = false ->
  exec headerRe None
       (bytes "goroutine " ++ n ++ bytes " [" ++ st ++ bytes "," ++ w ++ c :: t) = None.
Proof.
  intros Hn Hst Hw Hc Hc'.
  destruct (exec headerRe None _) as [[len cs]|] eqn:H; [exfalso|done].
  unfold exec, headerRe in H.
  set (minutes := Seq [Lit (bytes ","); Star Class.space; Grp 2 (Plus Class.digit);
                       Star Class.space; Lit (bytes "minute"); Opt (Lit (bytes "s"))]) in H.
  set (T3 := w ++ c :: t) in H.
  set (T2 := st ++ bytes "," ++ T3) in H.
  set (T1 := n ++ bytes " [" ++ T2) in H.
  set (text := bytes "goroutine " ++ T1) in H.
  assert (drop 10 text = T1) as E1 by done.
  assert (run (Lit (bytes "goroutine ")) (Cursor None 0 text) []
    (fun z1 c1 => run (Plus Class.digit) z1 c1
      (fun z2 c2 => run (Lit (bytes " [")) z2 c2
        (fun z3 c3 => run (Grp 1 (Plus Class.state)) z3 c3
          (fun z4 c4 => run (Opt minutes) z4 c4
            (fun z5 c5 => run (Lit (bytes "]:")) z5 c5
              (fun z6 c6 => run Eps z6 c6
                 (fun z0 cs0 => Some (off z0, cs0))))))))
     = Some (len, cs)) as H' by exact H.
  clear H. rewrite run_Lit in H'. cbn [rest prev off] in H'.
  replace (prefix_of (bytes "goroutine ") text) with (Some T1) in H'
    by (symmetry; apply prefix_of_app).
  change (length (bytes "goroutine ")) with 10 in H'.
  (* the digits *)
  apply run_Plus_bare in H' as (j & Hj & H').
  rewrite seek_seek in H'. rewrite seek_rest, E1 in Hj.
  unfold T1 in Hj. rewrite run_len_app in Hj by done.
  change (bytes " [" ++ T2) with (" "%char :: "["%char :: T2) in *.
  rewrite run_len_stop in Hj by done.
  rewrite run_Lit, seek_seek, seek_rest in H'.
  rewrite <- drop_drop, E1 in H'.
  destruct (prefix_of _ (drop j T1)) as [u1|] eqn:Eu1; [|discriminate].
  apply prefix_of_Some in Eu1. cbn [bytes list_ascii_of_string app] in Eu1.
  apply drop_run_head with (p := Class.digit) in Eu1 as (-> & _ & _); [|done|lia|done].
  assert (drop (10 + length n + 2) text = T2) as E2.
  { rewrite <- !drop_drop, E1. unfold T1. by rewrite drop_app_length. }
  cbn [length bytes list_ascii_of_string] in H'.
  (* the state *)
  apply run_Plus_inv in H' as (m & Hm & H').
  rewrite seek_seek in H'. rewrite seek_rest, E2 in Hm.
  unfold T2 in Hm. rewrite run_len_app in Hm by done.
  change (bytes "," ++ T3) with (","%char :: T3) in *.
  rewrite run_len_stop in Hm by done.
  assert (drop (10 + length n + 2 + m) text = drop m T2) as E3
    by (by rewrite <- drop_drop, E2).
  apply run_Opt_inv in H' as [H'|H'].
  - (* the minutes *)
    assert (run (Lit (bytes ",")) (seek None 0 text (10 + length n + 2 + m))
              [(1, (off (seek None 0 text (10 + length n + 2)),
                    off (seek None 0 text (10 + length n + 2)) + m))]
      (fun z1 c1 => run (Star Class.space) z1 c1
        (fun z2 c2 => run (Grp 2 (Plus Class.digit)) z2 c2
          (fun z3 c3 => run (Seq [Star Class.space; Lit (bytes "minute");
                                  Opt (Lit (bytes "s"))]) z3 c3
            (fun z5 c5 => run (Lit (bytes "]:")) z5 c5
              (fun z6 c6 => run Eps z6 c6
                 (fun z0 cs0 => Some (off z0, cs0)))))))
       = Some (len, cs)) as H'' by exact H'.
    clear H'. rewrite run_Lit, seek_seek, seek_rest, E3 in H''.
    destruct (prefix_of _ (drop m T2)) as [u2|] eqn:Eu2; [|discriminate].
    apply prefix_of_Some in Eu2. cbn [bytes list_ascii_of_string app] in Eu2.
    apply drop_run_head with (p := Class.state) in Eu2 as (-> & _ & _); [|done|lia|done].
    assert (drop (10 + length n + 2 + length st + 1) text = T3) as E4.
    { rewrite <- drop_drop, E3. unfold T2. rewrite drop_app_length. done. }
    cbn [length bytes list_ascii_of_string] in H''.
    apply run_Star_bound in H'' as (i & Hi & H'').
    rewrite seek_seek in H''. rewrite seek_rest, E4 in Hi.
    unfold T3 in Hi. rewrite run_len_cut, run_len_all in Hi by done.
    apply run_Plus_inv in H'' as (d & Hd & _).
    rewrite seek_rest, <- drop_drop, E4 in Hd. unfold T3 in Hd.
    rewrite (run_len_blanks_then _ Class.space) in Hd; try done; [lia|].
    apply space_not_digit.
  - (* no minutes *)
    rewrite run_Lit, seek_rest, E3 in H'.
    destruct (prefix_of _ (drop m T2)) as [u3|] eqn:Eu3; [|discriminate].
    apply prefix_of_Some in Eu3. cbn [bytes list_ascii_of_string app] in Eu3.
    by apply drop_run_head with (p := Class.state) in Eu3 as (_ & ? & _); [|done|lia|done].
Qed.


(** X15: a header with an annotation other than the minutes loses its
    goroutine.  When the state of the header is followed by a comma, white
    space and a byte that is neither white space nor a digit, as in
    [goroutine 9 [syscall, locked to thread]:], the block changes nothing
    in the groups: the goroutine is not counted. *)
Theorem annotated_header_dropped (n st w t block : str) (c : ascii) (lines : list str)
    (groups : gmap str goroutineGroup) :
  forallb Class.digit n = true -> forallb Class.state st = true ->
  forallb Class.space w = true -> Class.digit c = false -> Class.space c = false ->
  SplitLines block
    = (bytes "goroutine " ++ n ++ bytes " [" ++ st ++ bytes "," ++ w ++ c :: t) :: lines ->
  parseGoroutineBlock block groups = groups.
Proof.
  intros Hn Hst Hw Hc Hc' Hb. unfold parseGoroutineBlock, FindStringSubmatchStart.
  by rewrite Hb, exec_header_annotation.
Qed.

Lemma annotated_header_dropped_witness :
  let block := bytes "goroutine 9 [syscall, locked to thread]:
runtime.goexit()" in
  SplitLines block
    = (bytes "goroutine " ++ bytes "9" ++ bytes " [" ++ bytes "syscall" ++ bytes ","
       ++ bytes " " ++ "l"%char :: bytes "ocked to thread]:") :: [bytes "runtime.goexit()"] /\
  parseGoroutineBlock block ∅ = ∅.
Proof.
  intros block.
  assert (SplitLines block
    = (bytes "goroutine " ++ bytes "9" ++ bytes " [" ++ bytes "syscall" ++ bytes ","
       ++ bytes " " ++ "l"%char :: bytes "ocked to thread]:") :: [bytes "runtime.goexit()"])
    as H by (by vm_compute).
  split; [exact H|].
  exact (annotated_header_dropped (bytes "9") (bytes "syscall") (bytes " ")
           (bytes "ocked to thread]:") block "l" [bytes "runtime.goexit()"] ∅
           eq_refl eq_refl eq_refl eq_refl eq_refl H).
Defined.

Section Ordered.
Context (ord : GIndex.Order) (Hfair : GIndex.fair ord).

Lemma sorted_groups groups :
  (sortGroups (GIndex.rangeS ord 262 groups)).*2 ≡ₚ (map_to_list groups).*2.
Proof.
  apply fmap_Permutation. rewrite sortGroups_perm. apply (GIndex.rangeS_perm _ Hfair).
Qed.

Lemma formatDebug1_listing groups :
  formatDebug1 ord groups =
    bytes "goroutine profile: total "
    ++ GIndex.itoa (goroutines (sortGroups (GIndex.rangeS ord 262 groups)).*2) ++ ["010"%char]
    ++ concat (map formatGroup (sortGroups (GIndex.rangeS ord 262 groups)).*2).
Proof.
  unfold formatDebug1. rewrite total_goroutines, Z.add_0_l.
  do 3 f_equal. by rewrite <- list_fmap_compose.
Qed.

(** X13: the listing names every group once, the larger groups first.
    After the line with the total come the groups of the map, each one
    once: a group with more goroutines before one with fewer, and of two
    groups with as many goroutines the one whose state comes first. *)
Theorem listing_by_count (groups : gmap str goroutineGroup) :
  exists gs,
    gs ≡ₚ (map_to_list groups).*2 /\
    StronglySorted listedBefore gs /\
    formatDebug1 ord groups =
      bytes "goroutine profile: total " ++ GIndex.itoa (goroutines gs) ++ ["010"%char]
      ++ concat (map formatGroup gs).
Proof.
  exists (sortGroups (GIndex.rangeS ord 262 groups)).*2.
  split; [apply sorted_groups|]. split.
  - apply StronglySorted_fmap, sortGroups_sorted.
  - apply formatDebug1_listing.
Qed.

(** X14: the total counts every goroutine read.  The first line of the
    listing of a dump gives the number of goroutines whose header the
    parser accepted: grouping neither loses nor repeats one. *)
Theorem total_is_goroutines_read (data : str) :
  exists listing,
    formatDebug1 ord (parseAndGroup data) =
      bytes "goroutine profile: total "
      ++ GIndex.itoa (Z.of_nat (length (reads data))) ++ "010"%char :: listing.
Proof.
  exists (concat (map formatGroup (sortGroups (GIndex.rangeS ord 262 (parseAndGroup data))).*2)).
  rewrite formatDebug1_listing.
  by rewrite (goroutines_perm _ _ (sorted_groups _)), goroutines_parseAndGroup.
Qed.

End Ordered.

Lemma listing_by_count_witness :
  let groups := parseAndGroup (bytes "goroutine 1 [running]:
main.main()

goroutine 5 [select]:
main.wait(0xc000012345)

goroutine 6 [select]:
main.wait(0xc000099999)
") in
  exists gs,
    gs ≡ₚ (map_to_list groups).*2 /\
    StronglySorted listedBefore gs /\
    formatDebug1 GIndex.mapOrder groups =
      bytes "goroutine profile: total " ++ GIndex.itoa (goroutines gs) ++ ["010"%char]
      ++ concat (map formatGroup gs).
Proof.
  intros groups. exact (listing_by_count GIndex.mapOrder GIndexFacts.mapOrder_fair groups).
Defined.

Lemma total_is_goroutines_read_witness :
  let data := bytes "goroutine 1 [running]:
main.main()

goroutine 5 [select, 3 minutes]:
main.wait(0xc000012345)

goroutine 6 [select]:
main.wait(0xc000099999)
" in
  exists listing,
    formatDebug1 GIndex.mapOrder (parseAndGroup data) =
      bytes "goroutine profile: total "
      ++ GIndex.itoa (Z.of_nat (length (reads data))) ++ "010"%char :: listing.
Proof.
  intros data.
  exact (total_is_goroutines_read GIndex.mapOrder GIndexFacts.mapOrder_fair data).
Defined.

End GroupingFacts.

(** ** gindex: integers as eight bytes *)
Module Int64BytesFacts.
Import Strings Int64Bytes.
Local Open Scope Z_scope.

Ltac pow2 :=
  repeat match goal with
         | |- context [2 ^ Zpos ?k] =>
             let v := eval vm_compute in (2 ^ Zpos k) in change (2 ^ Zpos k) with v in *
         | H : context [2 ^ Zpos ?k] |- _ =>
             let v := eval vm_compute in (2 ^ Zpos k) in change (2 ^ Zpos k) with v in *
         end.

Lemma lor_shiftl lo hi k :
  0 <= k -> 0 <= lo < 2 ^ k -> Z.lor lo (Z.shiftl hi k) = lo + hi * 2 ^ k.
Proof.
  intros Hk Hlo. rewrite <- Z.add_lor_land, Z.shiftl_mul_pow2 by done.
  enough (Z.land lo (hi * 2 ^ k) = 0) as -> by lia.
  apply Z.bits_inj'. intros n Hn. rewrite Z.land_spec, Z.bits_0.
  destruct (Z.lt_ge_cases n k).
  - by rewrite Z.mul_pow2_bits_low, andb_false_r.
  - rewrite <- (Z.mod_small lo (2 ^ k)) by done.
    by rewrite Z.mod_pow2_bits_high.
Qed.

Lemma ofByte_range b : 0 <= ofByte b < 256.
Proof.
  unfold ofByte, Class.code. pose proof (N_ascii_bounded b). lia.
Qed.

Lemma ofByte_toByte v : ofByte (toByte v) = v mod 256.
Proof.
  unfold ofByte, toByte, byte, Class.code.
  change 255 with (Z.ones 8). rewrite Z.land_ones by done.
  pose proof (Z.mod_pos_bound v (2 ^ 8) eq_refl) as H.
  rewrite N_ascii_embedding by lia. rewrite Z2N.id; [done|lia].
Qed.

Lemma toByte_ofByte b v : v mod 256 = ofByte b -> toByte v = b.
Proof.
  intros H. unfold toByte. change 255 with (Z.ones 8). rewrite Z.land_ones by done.
  change (2 ^ 8) with 256. rewrite H. unfold ofByte, byte.
  by rewrite N2Z.id, ascii_N_embedding.
Qed.

Lemma Uint64_sum b0 b1 b2 b3 b4 b5 b6 b7 l :
  Uint64 (b0 :: b1 :: b2 :: b3 :: b4 :: b5 :: b6 :: b7 :: l) =
  Some (ofByte b7 + ofByte b6 * 2 ^ 8 + ofByte b5 * 2 ^ 16 + ofByte b4 * 2 ^ 24
        + ofByte b3 * 2 ^ 32 + ofByte b2 * 2 ^ 40 + ofByte b1 * 2 ^ 48
        + ofByte b0 * 2 ^ 56).
Proof.
  pose proof (ofByte_range b0). pose proof (ofByte_range b1).
  pose proof (ofByte_range b2). pose proof (ofByte_range b3).
  pose proof (ofByte_range b4). pose proof (ofByte_range b5).
  pose proof (ofByte_range b6). pose proof (ofByte_range b7).
  unfold Uint64. f_equal.
  rewrite (lor_shiftl _ (ofByte b6) 8) by (pow2; lia).
  rewrite (lor_shiftl _ (ofByte b5) 16) by (pow2; lia).
  rewrite (lor_shiftl _ (ofByte b4) 24) by (pow2; lia).
  rewrite (lor_shiftl _ (ofByte b3) 32) by (pow2; lia).
  rewrite (lor_shiftl _ (ofByte b2) 40) by (pow2; lia).
  rewrite (lor_shiftl _ (ofByte b1) 48) by (pow2; lia).
  by rewrite (lor_shiftl _ (ofByte b0) 56) by (pow2; lia).
Qed.

(** X16: an [int64] survives the trip through its eight bytes.
    [int64ToBytes] gives eight bytes, and [bytesToInt64] gives the number
    back. *)
Theorem int64_round_trip (n : Z) :
  - 2 ^ 63 <= n < 2 ^ 63 ->
  length (int64ToBytes n) = 8%nat /\ bytesToInt64 (int64ToBytes n) = Some n.
Proof.
  intros Hn. split; [done|].
  unfold bytesToInt64, int64ToBytes, PutUint64. rewrite Uint64_sum. cbn [option_map].
  rewrite !ofByte_toByte, !Z.shiftr_div_pow2 by done.
  f_equal. unfold int64, uint64.
  pose proof (Z.mod_pos_bound n (2 ^ 64) eq_refl) as Hu.
  set (u := n mod 2 ^ 64) in *.
  assert (u mod 256 + u / 2 ^ 8 mod 256 * 2 ^ 8 + u / 2 ^ 16 mod 256 * 2 ^ 16
          + u / 2 ^ 24 mod 256 * 2 ^ 24 + u / 2 ^ 32 mod 256 * 2 ^ 32
          + u / 2 ^ 40 mod 256 * 2 ^ 40 + u / 2 ^ 48 mod 256 * 2 ^ 48
          + u / 2 ^ 56 mod 256 * 2 ^ 56 = u) as ->.
  { clearbody u. clear Hn. pow2. Z.to_euclidean_division_equations. lia. }
  subst u. pow2. destruct (Z.ltb_spec (n mod 18446744073709551616) 9223372036854775808);
    Z.to_euclidean_division_equations; lia.
Qed.

Lemma int64_round_trip_witness :
  length (int64ToBytes (-2)) = 8%nat /\ bytesToInt64 (int64ToBytes (-2)) = Some (-2).
Proof.
  apply (int64_round_trip (-2)). split; [by vm_compute|by vm_compute].
Defined.

(** X17: eight bytes survive the trip through an [int64].  [bytesToInt64]
    fails on fewer than eight bytes; otherwise it reads the first eight,
    and [int64ToBytes] of the number it gives is those eight bytes. *)
Theorem bytes_round_trip (b : str) :
  match bytesToInt64 b with
  | Some n =>
      (8 <= length b)%nat /\ - 2 ^ 63 <= n < 2 ^ 63 /\ int64ToBytes n = take 8 b
  | None => (length b < 8)%nat
  end.
Proof.
  destruct b as [|b0 [|b1 [|b2 [|b3 [|b4 [|b5 [|b6 [|b7 l]]]]]]]];
    try (cbn; lia).
  unfold bytesToInt64. rewrite Uint64_sum. cbn [option_map take length].
  pose proof (ofByte_range b0). pose proof (ofByte_range b1).
  pose proof (ofByte_range b2). pose proof (ofByte_range b3).
  pose proof (ofByte_range b4). pose proof (ofByte_range b5).
  pose proof (ofByte_range b6). pose proof (ofByte_range b7).
  match goal with |- context [int64 ?x] => set (u := x) end.
  assert (0 <= u < 2 ^ 64) as Hu by (subst u; pow2; lia).
  assert (uint64 (int64 u) = u) as Hui.
  { unfold uint64, int64. pow2.
    destruct (Z.ltb_spec u 9223372036854775808); Z.to_euclidean_division_equations; lia. }
  split; [lia|]. split.
  { unfold int64. pow2. destruct (Z.ltb_spec u 9223372036854775808); lia. }
  unfold int64ToBytes, PutUint64. rewrite Hui, !Z.shiftr_div_pow2 by done.
  clear Hui Hu. subst u. pow2.
  repeat f_equal; apply toByte_ofByte; Z.to_euclidean_division_equations; lia.
Qed.

End Int64BytesFacts.

(** ** gindex: the symbols of a stack *)
Module SymbolFacts.
Import Regexp Strings GIndex GCountFacts.
#[local] Arguments Ascii.eqb : simpl never.

(** *** [Index] and [LastIndex] *)

Lemma eqb_eq' a c : Ascii.eqb a c = true <-> a = c.
Proof. apply Ascii.eqb_eq. Qed.

Lemma Index_None c s : Index c s = None <-> c ∉ s.
Proof.
  induction s as [|a s IH]; cbn [Index].
  - split; [intros _; apply not_elem_of_nil|done].
  - rewrite not_elem_of_cons. destruct (Ascii.eqb a c) eqn:E.
    + apply Ascii.eqb_eq in E as ->. split; [done|]. by intros [? _].
    + apply Ascii.eqb_neq in E. destruct (Index c s); cbn [option_map].
      * split; [done|]. intros [_ H]. by apply IH in H.
      * split; [|done]. intros _. split; [done|]. by apply IH.
Qed.

Lemma Index_Some c s i : Index c s = Some i -> (c ∉ take i s) /\ s !! i = Some c.
Proof.
  revert i. induction s as [|a s IH]; intros i; cbn [Index]; [done|].
  destruct (Ascii.eqb a c) eqn:E.
  - apply Ascii.eqb_eq in E as ->. intros [= <-]. split; [apply not_elem_of_nil|done].
  - apply Ascii.eqb_neq in E. destruct (Index c s) as [j|]; [|done].
    cbn [option_map]. intros [= <-]. destruct (IH j eq_refl) as [H1 H2].
    cbn [take]. by rewrite not_elem_of_cons.
Qed.

Lemma LastIndex_None c s : LastIndex c s = None <-> c ∉ s.
Proof.
  induction s as [|a s IH]; cbn [LastIndex].
  - split; [intros _; apply not_elem_of_nil|done].
  - rewrite not_elem_of_cons. destruct (LastIndex c s).
    + split; [done|]. intros [_ H]. by apply IH in H.
    + destruct (Ascii.eqb a c) eqn:E.
      * apply Ascii.eqb_eq in E as ->. split; [done|]. by intros [? _].
      * apply Ascii.eqb_neq in E. split; [|done]. intros _. split; [done|]. by apply IH.
Qed.

Lemma LastIndex_Some c s i :
  LastIndex c s = Some i <-> s !! i = Some c /\ c ∉ drop (S i) s.
Proof.
  revert i. induction s as [|a s IH]; intros i; cbn [LastIndex]; [by split; [|intros [? _]]|].
  destruct (LastIndex c s) as [j|] eqn:El.
  - split.
    + intros [= <-]. by apply IH.
    + intros [Hi Hd]. destruct i as [|i].
      * cbn in Hd. destruct (proj1 (IH j) eq_refl) as [Hj _].
        exfalso. apply Hd. by eapply list_elem_of_lookup_2.
      * assert (Some j = Some i) as [= ->] by (by apply IH). done.
  - apply LastIndex_None in El. destruct (Ascii.eqb a c) eqn:E.
    + apply Ascii.eqb_eq in E as ->. split.
      * by intros [= <-].
      * intros [Hi _]. destruct i as [|i]; [done|].
        exfalso. apply El. by eapply list_elem_of_lookup_2.
    + apply Ascii.eqb_neq in E. split; [done|]. intros [Hi _].
      destruct i as [|i]; [by injection Hi|].
      exfalso. apply El. by eapply list_elem_of_lookup_2.
Qed.

(** *** Names of functions *)

Lemma cleanFuncName_cases fn :
  cleanFuncName fn = fn \/
  exists lastDot parenIdx,
    LastIndex "." fn = Some (S lastDot) /\
    Index "(" (drop (S lastDot) fn) = Some (S parenIdx) /\
    cleanFuncName fn = take (S lastDot + S parenIdx) fn.
Proof.
  unfold cleanFuncName. destruct (LastIndex "." fn) as [[|d]|]; [by left| |by left].
  destruct (Index "(" (drop (S d) fn)) as [[|p]|] eqn:E; [by left| |by left].
  right. by exists d, p.
Qed.

Lemma cleanFuncName_prefix fn : exists args, fn = cleanFuncName fn ++ args.
Proof.
  destruct (cleanFuncName_cases fn) as [->|(d & p & _ & _ & ->)].
  - exists []. by rewrite app_nil_r.
  - exists (drop (S d + S p) fn). by rewrite take_drop.
Qed.

Lemma cleanFuncName_nonempty fn : fn <> [] -> cleanFuncName fn <> [].
Proof.
  intros Hfn. destruct (cleanFuncName_cases fn) as [->|(d & p & _ & _ & ->)]; [done|].
  by destruct fn.
Qed.

Lemma cutArgs_cases fn idx :
  cutArgs fn idx = fn \/ exists i, idx = Some (S i) /\ cutArgs fn idx = take (S i) fn.
Proof.
  unfold cutArgs. destruct idx as [[|i]|]; [by left| |by left].
  destruct (last (take (S i) fn)) as [c|]; [|by left].
  destruct (Ascii.eqb c "." || Ascii.eqb c "*"); [by left|]. right. by exists i.
Qed.

Lemma cutArgs_prefix fn idx : exists rest, fn = cutArgs fn idx ++ rest.
Proof.
  destruct (cutArgs_cases fn idx) as [->|(i & _ & ->)].
  - exists []. by rewrite app_nil_r.
  - exists (drop (S i) fn). by rewrite take_drop.
Qed.

Lemma cutArgs_nonempty fn idx : fn <> [] -> cutArgs fn idx <> [].
Proof.
  intros Hfn. destruct (cutArgs_cases fn idx) as [->|(i & _ & ->)]; [done|].
  by destruct fn.
Qed.

Lemma extractFuncs_fold lines funcs seen :
  Forall2 (fun fn line => fn <> [] /\ exists rest, line = fn ++ rest) funcs seen ->
  Forall2 (fun fn line => fn <> [] /\ exists rest, line = fn ++ rest)
    (foldl (fun funcs line =>
              let line := TrimSpace line in
              if skipsLine line then funcs
              else
                let fn := cleanFuncName (cutArgs line (Index "(" line)) in
                match fn with
                | [] => funcs
                | _ :: _ => funcs ++ [fn]
                end) funcs lines)
    (seen ++ filter (fun line => skipsLine line = false) (TrimSpace <$> lines)).
Proof.
  revert funcs seen. induction lines as [|l lines IH]; intros funcs seen H.
  - by rewrite app_nil_r.
  - cbn [foldl fmap list_fmap]. cbn zeta. destruct (skipsLine (TrimSpace l)) eqn:Es.
    + rewrite filter_cons_False by (by rewrite Es). by apply IH.
    + rewrite filter_cons_True by done.
      assert (TrimSpace l <> []) as Hl by (by intros E; rewrite E in Es).
      pose proof (cleanFuncName_nonempty _ (cutArgs_nonempty _ (Index "(" (TrimSpace l)) Hl))
        as Hne.
      destruct (cutArgs_prefix (TrimSpace l) (Index "(" (TrimSpace l))) as [r1 E1].
      destruct (cleanFuncName_prefix (cutArgs (TrimSpace l) (Index "(" (TrimSpace l))))
        as [r2 E2].
      destruct (cleanFuncName _) as [|c fn] eqn:E; [done|].
      rewrite (cons_middle _ seen), app_assoc. apply IH.
      apply Forall2_app; [done|]. constructor; [|constructor].
      split; [done|]. exists (r2 ++ r1). by rewrite app_assoc, <- E2.
Qed.

(** X18: [cleanFuncName] only cuts the end of a name, and cleaning a
    clean name changes nothing. *)
Theorem cleanFuncName_idempotent (fn : str) :
  (exists args, fn = cleanFuncName fn ++ args) /\
  cleanFuncName (cleanFuncName fn) = cleanFuncName fn.
Proof.
  split; [apply cleanFuncName_prefix|].
  destruct (cleanFuncName_cases fn) as [E|(d & p & Hd & Hp & E)].
  - by rewrite !E.
  - rewrite E.
    apply LastIndex_Some in Hd as [Hd Hno]. apply Index_Some in Hp as [Hp Hat].
    assert (S d + S p <= length fn) as Hlen.
    { apply lookup_lt_Some in Hat. rewrite length_drop in Hat. lia. }
    assert (LastIndex "." (take (S d + S p) fn) = Some (S d)) as Hd'.
    { apply LastIndex_Some. split.
      - rewrite lookup_take_lt by lia. done.
      - replace (S d + S p) with (S (S d) + p) by lia. rewrite <- take_drop_commute.
        intros Hin. apply Hno. by eapply (subseteq_take _ (drop (S (S d)) fn)). }
    unfold cleanFuncName at 1. rewrite Hd'.
    replace (drop (S d) (take (S d + S p) fn)) with (take (S p) (drop (S d) fn))
      by (by rewrite take_drop_commute).
    apply Index_None in Hp. by rewrite Hp.
Qed.

(** X19: the names read off a stack.  [extractFuncsFromStack] gives one
    name for every function line of the stack (a line that, trimmed, is
    not empty, holds no [.go:] and does not start with [created by]), in
    the order of the text; no name is empty, and each name is the start
    of its line. *)
Theorem one_name_per_function_line (stack : str) :
  Forall2 (fun fn line => fn <> [] /\ exists rest, line = fn ++ rest)
    (extractFuncsFromStack stack)
    (filter (fun line => skipsLine line = false) (TrimSpace <$> SplitLines stack)).
Proof. apply (extractFuncs_fold _ [] []). constructor. Qed.

(** *** Labels *)

Lemma symbols_fold lines allFuncs :
  Forall (fun fn => "/"%char ∉ fn) allFuncs ->
  Forall (fun fn => "/"%char ∉ fn)
    (foldl (fun allFuncs line =>
              let line := TrimSpace line in
              if skipsLine line then allFuncs
              else
                let fn :=
                  match LastIndex "/" line with
                  | Some lastSlash => drop (S lastSlash) line
                  | None => line
                  end in
                allFuncs ++ [cutArgs fn (LastIndex "(" fn)]) allFuncs lines).
Proof.
  revert allFuncs. induction lines as [|l lines IH]; intros allFuncs H; [done|].
  cbn [foldl]. cbn zeta. destruct (skipsLine (TrimSpace l)); [by apply IH|].
  apply IH, Forall_app. split; [done|]. constructor; [|constructor].
  set (fn := match LastIndex "/" (TrimSpace l) with Some _ => _ | None => _ end).
  assert ("/"%char ∉ fn) as Hfn.
  { subst fn. destruct (LastIndex "/" (TrimSpace l)) as [i|] eqn:E.
    - by apply LastIndex_Some in E as [_ E].
    - by apply LastIndex_None in E. }
  destruct (cutArgs_prefix fn (LastIndex "(" fn)) as [r E].
  intros Hin. apply Hfn. rewrite E. apply elem_of_app. by left.
Qed.

(** X20: a label holds no slash.  [extractFirstTwoFuncs] keeps of each
    function line what follows its last slash, so that neither symbol of
    the label carries the path of its package. *)
Theorem label_without_slash (stack : str) : "/"%char ∉ extractFirstTwoFuncs stack.
Proof.
  unfold extractFirstTwoFuncs, joinLastTwo, extractSymbols.
  pose proof (symbols_fold (SplitLines stack) [] (Forall_nil_2 _)) as H.
  apply List.Forall_rev in H.
  destruct (rev _) as [|f [|f' l]].
  - apply not_elem_of_nil.
  - by apply Forall_cons_1 in H as [H _].
  - apply Forall_cons_1 in H as [Hf [Hf' _]%Forall_cons_1].
    rewrite !not_elem_of_app. split; [done|]. split; [|done].
    cbn. rewrite !not_elem_of_cons. repeat split; try discriminate.
    apply not_elem_of_nil.
Qed.

End SymbolFacts.

(** ** gcount: the headers the parser reads *)
Module HeaderFacts.
Import Regexp RegexpFacts GCount Strings Grouping GroupingSpec GCountFacts.
#[local] Arguments Ascii.eqb : simpl never.
#[local] Arguments Class.digit : simpl never.
#[local] Arguments Class.state : simpl never.
#[local] Arguments Class.space : simpl never.

(** *** Matching forwards *)

(** The byte before the end of [a], or [pv] when [a] is empty. *)
Lemma seek_app pv o a b :
  exists pv', seek pv o (a ++ b) (length a) = Cursor pv' (o + length a) b.
Proof.
  revert pv o. induction a as [|c a IH]; intros pv o.
  - exists pv. cbn. by rewrite seek_0, Nat.add_0_r.
  - cbn [app length]. rewrite seek_S. destruct (IH (Some c) (S o)) as [pv' ->].
    exists pv'. f_equal. lia.
Qed.

Section Hit.
Context {R : Type}.
Implicit Types k : cursor -> caps -> option R.

Lemma run_Lit_hit p pv o b cs k r :
  (forall pv', k (Cursor pv' (o + length p) b) cs = Some r) ->
  run (Lit p) (Cursor pv o (p ++ b)) cs k = Some r.
Proof.
  intros Hk. rewrite run_Lit. cbn [rest prev off]. rewrite prefix_of_app.
  destruct (seek_app pv o p b) as [pv' ->]. apply Hk.
Qed.

Lemma run_Lit_miss p pv o s cs k :
  prefix_of p s = None -> run (Lit p) (Cursor pv o s) cs k = None.
Proof. intros H. rewrite run_Lit. cbn [rest]. by rewrite H. Qed.

Lemma run_Star_hit p pv o a b cs k r :
  forallb p a = true -> run_len p b = 0 ->
  (forall pv', k (Cursor pv' (o + length a) b) cs = Some r) ->
  run (Star p) (Cursor pv o (a ++ b)) cs k = Some r.
Proof.
  intros Ha Hb Hk. cbn [run rest prev off]. rewrite star_back, run_len_app, Hb, Nat.add_0_r by done.
  apply (back_first _ _ _ _ _ (length a)); [done| |intros; lia].
  destruct (seek_app pv o a b) as [pv' ->]. apply Hk.
Qed.

Lemma run_Plus_hit p pv o a b cs k r :
  a <> [] -> forallb p a = true -> run_len p b = 0 ->
  (forall pv', k (Cursor pv' (o + length a) b) cs = Some r) ->
  run (Plus p) (Cursor pv o (a ++ b)) cs k = Some r.
Proof.
  intros Hne Ha Hb Hk. destruct a as [|c a]; [done|].
  cbn [forallb] in Ha. apply andb_true_iff in Ha as [Hc Ha].
  unfold Plus. cbn [run rest prev off app]. rewrite Hc.
  apply (run_Star_hit p (Some c) (S o) a b cs k r Ha Hb).
  intros pv'. specialize (Hk pv'). cbn [length] in Hk.
  by replace (S o + length a) with (o + S (length a)) by lia.
Qed.

Lemma run_Opt_hit r1 z cs k r :
  run r1 z cs k = Some r -> run (Opt r1) z cs k = Some r.
Proof. intros H. cbn [run]. by rewrite H. Qed.

Lemma run_Opt_miss r1 z cs k :
  run r1 z cs k = None -> run (Opt r1) z cs k = k z cs.
Proof. intros H. cbn [run]. by rewrite H. Qed.

End Hit.

Lemma group_at s cs n pre g suf a b :
  lookup_group n cs = Some (a, b) -> s = pre ++ g ++ suf ->
  a = length pre -> b = a + length g -> group s cs n = g.
Proof.
  intros Hl -> -> ->. unfold group. rewrite Hl.
  rewrite drop_app_length. replace (_ + _ - _) with (length g) by lia.
  by rewrite take_app_length.
Qed.

Lemma run_Seq_cons {R} r rs z cs (k : cursor -> caps -> option R) :
  run (Seq (r :: rs)) z cs k = run r z cs (fun z' cs' => run (Seq rs) z' cs' k).
Proof. done. Qed.

Lemma run_Seq_nil {R} z cs (k : cursor -> caps -> option R) : run (Seq []) z cs k = k z cs.
Proof. done. Qed.

Lemma run_Grp {R} n r z cs (k : cursor -> caps -> option R) :
  run (Grp n r) z cs k = run r z cs (fun z' cs' => k z' ((n, (off z, off z')) :: cs')).
Proof. done. Qed.

Lemma run_len_other (p q : ascii -> bool) a b :
  a <> [] -> forallb q a = true -> (forall y, q y = true -> p y = false) ->
  run_len p (a ++ b) = 0.
Proof.
  intros Hne Ha Hq. destruct a as [|c a]; [done|]. cbn [forallb] in Ha.
  apply andb_true_iff in Ha as [Hc _]. cbn [app]. by apply run_len_stop, Hq.
Qed.

Lemma run_len_blanks_digit w c t :
  forallb Class.space w = true -> Class.digit c = false ->
  run_len Class.digit (w ++ c :: t) = 0.
Proof.
  intros Hw Hc. destruct w as [|y w]; cbn [app]; [by apply run_len_stop|].
  cbn [forallb] in Hw. apply andb_true_iff in Hw as [Hy _].
  by apply run_len_stop, GroupingFacts.space_not_digit.
Qed.

Lemma digit_not_space c : Class.digit c = true -> Class.space c = false.
Proof.
  destruct (Class.space c) eqn:E; [|done]. apply GroupingFacts.space_not_digit in E. congruence.
Qed.

Ltac step := intros ?; cbv beta; rewrite ?run_Seq_cons, ?run_Grp.

Lemma exec_header_minutes n st w1 m w2 s t :
  n <> [] -> forallb Class.digit n = true ->
  st <> [] -> forallb Class.state st = true ->
  forallb Class.space w1 = true ->
  m <> [] -> forallb Class.digit m = true ->
  forallb Class.space w2 = true -> s = [] \/ s = bytes "s" ->
  exists len cs,
    exec headerRe None
      (bytes "goroutine " ++ n ++ bytes " [" ++ st ++ bytes "," ++ w1 ++ m ++ w2
       ++ bytes "minute" ++ s ++ bytes "]:" ++ t) = Some (len, cs) /\
    lookup_group 1 cs = Some (length (bytes "goroutine " ++ n ++ bytes " ["),
                              length (bytes "goroutine " ++ n ++ bytes " [") + length st) /\
    lookup_group 2 cs
      = Some (length (bytes "goroutine " ++ n ++ bytes " [" ++ st ++ bytes "," ++ w1),
              length (bytes "goroutine " ++ n ++ bytes " [" ++ st ++ bytes "," ++ w1)
              + length m).
Proof.
  intros Hn Hn' Hst Hst' Hw1 Hm Hm' Hw2 Hs.
  assert (exists len,
    exec headerRe None
      (bytes "goroutine " ++ n ++ bytes " [" ++ st ++ bytes "," ++ w1 ++ m ++ w2
       ++ bytes "minute" ++ s ++ bytes "]:" ++ t)
    = Some (len,
        [(2, (0 + length (bytes "goroutine ") + length n + length (bytes " [") + length st
              + length (bytes ",") + length w1,
              0 + length (bytes "goroutine ") + length n + length (bytes " [") + length st
              + length (bytes ",") + length w1 + length m));
         (1, (0 + length (bytes "goroutine ") + length n + length (bytes " ["),
              0 + length (bytes "goroutine ") + length n + length (bytes " [")
              + length st))])) as [len E].
  { unfold exec, headerRe. rewrite run_Seq_cons.
    destruct Hs as [->| ->]; eexists; apply run_Lit_hit; step.
    all: apply run_Plus_hit; [done|done|by vm_compute|]; step.
    all: apply run_Lit_hit; step.
    all: apply run_Plus_hit; [done|done|by vm_compute|]; step; cbn [off].
    all: apply run_Opt_hit; rewrite run_Seq_cons.
    all: apply run_Lit_hit; step.
    all: apply run_Star_hit;
      [done|by apply (run_len_other _ Class.digit), digit_not_space|]; step.
    all: apply run_Plus_hit;
      [done|done|by apply run_len_blanks_digit; [|vm_compute]|]; step; cbn [off].
    all: apply run_Star_hit; [done|by vm_compute|]; step.
    all: apply run_Lit_hit; step.
    - rewrite run_Opt_miss by (by apply run_Lit_miss; vm_compute).
      rewrite run_Seq_nil, run_Seq_cons. cbn [app]. apply (run_Lit_hit (bytes "]:")). step.
      rewrite run_Seq_nil. cbn [off]. reflexivity.
    - apply run_Opt_hit. apply run_Lit_hit. step.
      rewrite run_Seq_nil, run_Seq_cons. apply (run_Lit_hit (bytes "]:")). step.
      rewrite run_Seq_nil. cbn [off]. reflexivity. }
  eexists len, _. split; [exact E|]. cbn [lookup_group Nat.eqb].
  split; f_equal; f_equal; rewrite ?length_app; lia.
Qed.

Lemma exec_header_plain n st t :
  n <> [] -> forallb Class.digit n = true ->
  st <> [] -> forallb Class.state st = true ->
  exists len cs,
    exec headerRe None (bytes "goroutine " ++ n ++ bytes " [" ++ st ++ bytes "]:" ++ t)
      = Some (len, cs) /\
    lookup_group 1 cs = Some (length (bytes "goroutine " ++ n ++ bytes " ["),
                              length (bytes "goroutine " ++ n ++ bytes " [") + length st) /\
    lookup_group 2 cs = None.
Proof.
  intros Hn Hn' Hst Hst'.
  assert (exists len,
    exec headerRe None (bytes "goroutine " ++ n ++ bytes " [" ++ st ++ bytes "]:" ++ t)
    = Some (len,
        [(1, (0 + length (bytes "goroutine ") + length n + length (bytes " ["),
              0 + length (bytes "goroutine ") + length n + length (bytes " [")
              + length st))])) as [len E].
  { unfold exec, headerRe. rewrite run_Seq_cons.
    eexists. apply run_Lit_hit. step.
    apply run_Plus_hit; [done|done|by vm_compute|]. step.
    apply run_Lit_hit. step.
    apply run_Plus_hit; [done|done|by vm_compute|]. step. cbn [off].
    rewrite run_Opt_miss by (by rewrite run_Seq_cons; apply run_Lit_miss; vm_compute).
    rewrite run_Seq_cons. apply (run_Lit_hit (bytes "]:")). step.
    rewrite run_Seq_nil. cbn [off]. reflexivity. }
  eexists len, _. split; [exact E|]. cbn [lookup_group Nat.eqb].
  split; [|done]. f_equal; f_equal; rewrite ?length_app; lia.
Qed.

Lemma group_none s cs n : lookup_group n cs = None -> group s cs n = [].
Proof. unfold group. by intros ->. Qed.

(** X21: what the parser reads off a header.  From a block whose first
    line starts with [goroutine N [state]:] it reads the state and no
    minutes; from one that starts with [goroutine N [state, M minutes]:]
    (any white space around [M], [minute] or [minutes]) it reads the state
    and [M], or no minutes when [M] does not fit an [int].  The stack is
    read off the other lines of the block. *)
Theorem header_read (n st w1 m w2 s t block : str) (lines : list str) :
  n <> [] -> forallb Class.digit n = true ->
  st <> [] -> forallb Class.state st = true ->
  forallb Class.space w1 = true ->
  m <> [] -> forallb Class.digit m = true ->
  forallb Class.space w2 = true -> s = [] \/ s = bytes "s" ->
  (SplitLines block
     = (bytes "goroutine " ++ n ++ bytes " [" ++ st ++ bytes "]:" ++ t) :: lines ->
   readBlock block = Some (st, JoinLines (foldl stackStep [] lines), 0%Z)) /\
  (SplitLines block
     = (bytes "goroutine " ++ n ++ bytes " [" ++ st ++ bytes "," ++ w1 ++ m ++ w2
        ++ bytes "minute" ++ s ++ bytes "]:" ++ t) :: lines ->
   readBlock block
     = Some (st, JoinLines (foldl stackStep [] lines),
             if (GIndex.decimal m <=? GIndex.maxInt64)%Z then GIndex.decimal m else 0%Z)).
Proof.
  intros Hn Hn' Hst Hst' Hw1 Hm Hm' Hw2 Hs. split; intros Hb.
  - destruct (exec_header_plain n st t Hn Hn' Hst Hst') as (len & cs & E & G1 & G2).
    unfold readBlock, FindStringSubmatchStart. rewrite Hb, E.
    rewrite (group_none _ _ 2 G2).
    set (text := bytes "goroutine " ++ _).
    assert (text = (bytes "goroutine " ++ n ++ bytes " [") ++ st ++ bytes "]:" ++ t) as Eq
      by (subst text; by rewrite <- !app_assoc).
    by rewrite (group_at text cs 1 _ st _ _ _ G1 Eq eq_refl eq_refl).
  - destruct (exec_header_minutes n st w1 m w2 s t Hn Hn' Hst Hst' Hw1 Hm Hm' Hw2 Hs)
      as (len & cs & E & G1 & G2).
    unfold readBlock, FindStringSubmatchStart. rewrite Hb, E.
    set (text := bytes "goroutine " ++ _).
    assert (text = (bytes "goroutine " ++ n ++ bytes " [") ++ st
                   ++ bytes "," ++ w1 ++ m ++ w2 ++ bytes "minute" ++ s ++ bytes "]:" ++ t)
      as Eq1 by (subst text; by rewrite <- !app_assoc).
    assert (text = (bytes "goroutine " ++ n ++ bytes " [" ++ st ++ bytes "," ++ w1) ++ m
                   ++ w2 ++ bytes "minute" ++ s ++ bytes "]:" ++ t)
      as Eq2 by (subst text; by rewrite <- !app_assoc).
    rewrite (group_at text cs 1 _ st _ _ _ G1 Eq1 eq_refl eq_refl).
    rewrite (group_at text cs 2 _ m _ _ _ G2 Eq2 eq_refl eq_refl).
    by destruct m.
Qed.

Lemma header_read_witness :
  let block := bytes "goroutine 5 [chan receive, 3 minutes]:
main.wait(0xc000012345)" in
  let plain := bytes "goroutine 5 [chan receive]:
main.wait(0xc000012345)" in
  readBlock plain = Some (bytes "chan receive", bytes "main.wait(...)", 0%Z) /\
  readBlock block = Some (bytes "chan receive", bytes "main.wait(...)", 3%Z).
Proof.
  intros block plain.
  assert (bytes "5" <> []) as Hn by done.
  assert (bytes "chan receive" <> []) as Hst by done.
  assert (bytes "3" <> []) as Hm by done.
  split.
  - exact (proj1 (header_read (bytes "5") (bytes "chan receive") (bytes " ") (bytes "3")
                    (bytes " ") (bytes "s") [] plain [bytes "main.wait(0xc000012345)"]
                    Hn eq_refl Hst eq_refl eq_refl Hm eq_refl eq_refl (or_intror eq_refl))
                 eq_refl).
  - exact (proj2 (header_read (bytes "5") (bytes "chan receive") (bytes " ") (bytes "3")
                    (bytes " ") (bytes "s") [] block [bytes "main.wait(0xc000012345)"]
                    Hn eq_refl Hst eq_refl eq_refl Hm eq_refl eq_refl (or_intror eq_refl))
                 eq_refl).
Defined.

End HeaderFacts.
